(** * Round-trip reconstruction and performance analytics

    A shallow embedding of the FIFO round-trip matcher of
    [src/pages/Analytics.jsx] and [src/pages/Positions.jsx] (the
    [roundTrips] memo of each page) and of the aggregations that
    [Analytics.jsx] derives from it ([metrics], [dailyPL], [cumulativePL]).
    After these come [symbolPerformance], the other memos of the Trade
    History page ([filteredOrders], [filteredRoundTrips], [totalStats]), the
    positions table of [Positions.jsx] and a memo of the Overview page.

    Conventions of the embedding:
    - a JavaScript number is a value of [num]: an exact rational, one of the
      two infinities, or NaN.  Arithmetic on finite values is exact (binary
      rounding and overflow are not represented) and the two zeros are
      identified; every other rule (NaN propagation, division by zero,
      comparisons with NaN) is the one of the language.  What is stated over
      [num] does not rest on the difference: it is about the structure of the
      result, or equates a value with the very sequence of operations the
      code performs, or assumes numbers on which no operation rounds (whole
      numbers up to 2^53).  Where rounding decides what the program computes,
      the code is read again over binary64 numbers, in [Double], and the
      question is settled there by evaluation;
    - the string fields [filled_qty] and [filled_avg_price] of an order are
      represented by the number [parseFloat] reads from them, NaN when the
      field is missing or not numeric;
    - a timestamp ([filled_at], [buyDate], [sellDate]) is the number of
      milliseconds [new Date(..)] gives for it, an integer;
    - [ordersBySymbol] is an object used as an insertion-ordered dictionary:
      an association list.  Ticker symbols are taken to be neither canonical
      array indices, which [Object.entries] would enumerate first, nor names
      of properties that every object inherits. *)

From Stdlib Require Import QArith Qreduction Qabs Lqa ZArith Lia.
From Stdlib Require Import Sorting.Sorted Permutation.
From Stdlib Require Import Floats.
From stdpp Require Import base option list strings gmap.

(** ** Numbers *)

Inductive num : Type :=
  | Finite (q : Q)
  | PosInf
  | NegInf
  | NaN.

Definition zero : num := Finite 0.
Definition hundred : num := Finite 100.

(** Sign of a rational: [Lt], [Eq] or [Gt] as it is below, at or above 0. *)
Definition Qsign (q : Q) : comparison := (Qnum q ?= 0)%Z.

Definition nneg (a : num) : num :=
  match a with
  | Finite x => Finite (Qred (- x))
  | PosInf => NegInf
  | NegInf => PosInf
  | NaN => NaN
  end.

(** [a + b], not rounded *)
Definition nadd (a b : num) : num :=
  match a, b with
  | NaN, _ | _, NaN => NaN
  | Finite x, Finite y => Finite (Qred (x + y))
  | PosInf, NegInf | NegInf, PosInf => NaN
  | PosInf, _ | _, PosInf => PosInf
  | NegInf, _ | _, NegInf => NegInf
  end.

(** [a - b], not rounded *)
Definition nsub (a b : num) : num :=
  match a, b with
  | NaN, _ | _, NaN => NaN
  | Finite x, Finite y => Finite (Qred (x - y))
  | PosInf, PosInf | NegInf, NegInf => NaN
  | PosInf, _ | _, NegInf => PosInf
  | NegInf, _ | _, PosInf => NegInf
  end.

(** An infinity with the sign [c], NaN for the sign of zero. *)
Definition signedInf (c : comparison) : num :=
  match c with
  | Gt => PosInf
  | Lt => NegInf
  | Eq => NaN
  end.

(** [a * b], not rounded *)
Definition nmul (a b : num) : num :=
  match a, b with
  | NaN, _ | _, NaN => NaN
  | Finite x, Finite y => Finite (Qred (x * y))
  | Finite x, PosInf | PosInf, Finite x => signedInf (Qsign x)
  | Finite x, NegInf | NegInf, Finite x => signedInf (CompOpp (Qsign x))
  | PosInf, PosInf | NegInf, NegInf => PosInf
  | PosInf, NegInf | NegInf, PosInf => NegInf
  end.

(** [a / b], not rounded; a finite value over zero is an infinity of its
    sign, and [0 / 0] is NaN. *)
Definition ndiv (a b : num) : num :=
  match a, b with
  | NaN, _ | _, NaN => NaN
  | Finite x, Finite y =>
      match Qsign y with
      | Eq => signedInf (Qsign x)
      | _ => Finite (Qred (x / y))
      end
  | Finite _, (PosInf | NegInf) => zero
  | PosInf, Finite y =>
      match Qsign y with Lt => NegInf | _ => PosInf end
  | NegInf, Finite y =>
      match Qsign y with Lt => PosInf | _ => NegInf end
  | (PosInf | NegInf), (PosInf | NegInf) => NaN
  end.

(** [a <= b]; false as soon as one side is NaN. *)
Definition nleb (a b : num) : bool :=
  match a, b with
  | NaN, _ | _, NaN => false
  | Finite x, Finite y => Qle_bool x y
  | NegInf, _ | _, PosInf => true
  | _, _ => false
  end.

(** [a < b] *)
Definition nltb (a b : num) : bool :=
  match a, b with
  | NaN, _ | _, NaN => false
  | Finite x, Finite y => negb (Qle_bool y x)
  | PosInf, _ | _, NegInf => false
  | _, _ => true
  end.

(** [a > b] and [a >= b] *)
Definition ngtb (a b : num) : bool := nltb b a.
Definition ngeb (a b : num) : bool := nleb b a.

(** [Math.min(a, b)] *)
Definition nmin (a b : num) : num :=
  match a, b with
  | NaN, _ | _, NaN => NaN
  | _, _ => if nleb a b then a else b
  end.

(** [Math.abs(a)] *)
Definition nabs (a : num) : num :=
  match a with
  | Finite x => Finite (Qred (Qabs x))
  | PosInf | NegInf => PosInf
  | NaN => NaN
  end.

(** Truthiness of a number: 0 and NaN are falsy. *)
Definition truthy (a : num) : bool :=
  match a with
  | Finite x => negb (Qeq_bool x 0)
  | PosInf | NegInf => true
  | NaN => false
  end.

(** [a || 0] *)
Definition orZero (a : num) : num := if truthy a then a else zero.

(** A count ([length], a counter) as a number. *)
Definition ofNat (n : nat) : num := Finite (inject_Z (Z.of_nat n)).

(** The difference of two timestamps, [new Date(a) - new Date(b)]. *)
Definition dateDiff (a b : Z) : num := Finite (inject_Z (a - b)).

(** ** Arrays *)

(** [Array.prototype.sort(cmp)]: a stable sort; [x] stays before [y] unless
    [cmp x y > 0] (a NaN from the comparator counts as 0).  The language
    fixes the result when [cmp] is a consistent ordering, as a difference of
    timestamps is; insertion from the right is one such sort. *)
Fixpoint insertBy {A : Type} (cmp : A → A → num) (x : A) (l : list A) : list A :=
  match l with
  | [] => [x]
  | y :: l' =>
      if ngtb (cmp x y) zero then y :: insertBy cmp x l' else x :: y :: l'
  end.

Definition sortBy {A : Type} (cmp : A → A → num) (l : list A) : list A :=
  foldr (insertBy cmp) [] l.

(** [reduce((sum, x) => sum + f(x), 0)] *)
Definition sumBy {A : Type} (f : A → num) (l : list A) : num :=
  fold_left (λ sum x, nadd sum (f x)) l zero.

(** ** Data *)

(** A closed order as the brokerage returns it. *)
Record order : Type := mkOrder {
  symbol : string;
  side : string;
  status : string;
  filled_qty : num;
  filled_avg_price : num;
  filled_at : Z;
}.

(** An entry of [buyQueue]: [{ qty, price, date }]. *)
Record lot : Type := mkLot {
  lot_qty : num;
  lot_price : num;
  lot_date : Z;
}.

(** An entry of [allRoundTrips].  The Trade History page builds the same
    object without [cost] and [revenue]; nothing there reads them. *)
Record roundTrip : Type := mkRoundTrip {
  rt_symbol : string;
  buyPrice : num;
  sellPrice : num;
  rt_qty : num;
  pl : num;
  plPercent : num;
  cost : num;
  revenue : num;
  buyDate : Z;
  sellDate : Z;
}.

(** The variables one pass over a symbol's orders updates: the shared
    [allRoundTrips], the symbol's [buyQueue] and, on the Trade History page,
    [realizedPL], [winCount] and [lossCount]. *)
Record passState : Type := mkPass {
  allRoundTrips : list roundTrip;
  buyQueue : list lot;
  realizedPL : num;
  winCount : nat;
  lossCount : nat;
}.

(** ** The matcher *)

Definition isFilled (o : order) : bool := String.eqb (status o) "filled".

(** [if (!obj[o.symbol]) obj[o.symbol] = []; obj[o.symbol].push(o)] *)
Fixpoint pushOrder (obj : list (string * list order)) (o : order)
  : list (string * list order) :=
  match obj with
  | [] => [(symbol o, [o])]
  | (s, os) :: rest =>
      if String.eqb s (symbol o) then (s, os ++ [o]) :: rest
      else (s, os) :: pushOrder rest o
  end.

Definition ordersBySymbol (orders : list order) : list (string * list order) :=
  fold_left pushOrder (List.filter isFilled orders) [].

Definition byFilledAt (a b : order) : num := dateDiff (filled_at a) (filled_at b).
Definition bySellDate (a b : roundTrip) : num := dateDiff (sellDate a) (sellDate b).

(** The object pushed on [allRoundTrips] when [matchQty] units of the lot
    [buy] are closed at [price]. *)
Definition tripOf (sym : string) (price : num) (date : Z)
    (matchQty : num) (buy : lot) : roundTrip :=
  {| rt_symbol := sym;
     buyPrice := lot_price buy;
     sellPrice := price;
     rt_qty := matchQty;
     pl := nmul (nsub price (lot_price buy)) matchQty;
     plPercent :=
       nmul (ndiv (nsub price (lot_price buy)) (lot_price buy)) hundred;
     cost := nmul (lot_price buy) matchQty;
     revenue := nmul price matchQty;
     buyDate := lot_date buy;
     sellDate := date |}.

(** One turn of the body of [while (sellQty > 0 && buyQueue.length > 0)],
    entered with [buy] at the head of the queue and [rest] behind it. *)
Definition matchOnce (sym : string) (price : num) (date : Z)
    (sellQty : num) (buy : lot) (rest : list lot) (st : passState)
  : num * passState :=
  let matchQty := nmin sellQty (lot_qty buy) in
  let rt := tripOf sym price date matchQty buy in
  let buy' := {| lot_qty := nsub (lot_qty buy) matchQty;
                 lot_price := lot_price buy;
                 lot_date := lot_date buy |} in
  (nsub sellQty matchQty,
   {| allRoundTrips := allRoundTrips st ++ [rt];
      buyQueue := if nleb (lot_qty buy') zero then rest else buy' :: rest;
      realizedPL := nadd (realizedPL st) (pl rt);
      winCount := if ngeb (pl rt) zero then S (winCount st) else winCount st;
      lossCount := if ngeb (pl rt) zero then lossCount st else S (lossCount st) |}).

(** The loop condition. *)
Definition loopCond (sellQty : num) (st : passState) : bool :=
  ngtb sellQty zero && negb (Nat.eqb (length (buyQueue st)) 0).

(** The [while] loop, bounded by [fuel] turns. *)
Fixpoint matchLoop (fuel : nat) (sym : string) (price : num) (date : Z)
    (sellQty : num) (st : passState) : num * passState :=
  match fuel with
  | O => (sellQty, st)
  | S fuel' =>
      if ngtb sellQty zero then
        match buyQueue st with
        | [] => (sellQty, st)
        | buy :: rest =>
            let '(sellQty', st') := matchOnce sym price date sellQty buy rest st in
            matchLoop fuel' sym price date sellQty' st'
        end
      else (sellQty, st)
  end.

(** The body of [sorted.forEach(order => ...)].  The loop is given one turn
    per queued lot and one more, which [matchLoop_exits] shows is enough for
    it to stop on its own condition. *)
Definition processOrder (sym : string) (st : passState) (o : order) : passState :=
  let qty := filled_qty o in
  let price := filled_avg_price o in
  if String.eqb (side o) "buy" then
    {| allRoundTrips := allRoundTrips st;
       buyQueue := buyQueue st ++ [ {| lot_qty := qty; lot_price := price;
                                       lot_date := filled_at o |} ];
       realizedPL := realizedPL st;
       winCount := winCount st;
       lossCount := lossCount st |}
  else if String.eqb (side o) "sell" && negb (Nat.eqb (length (buyQueue st)) 0) then
    snd (matchLoop (S (length (buyQueue st))) sym price (filled_at o) qty st)
  else st.

(** The state a symbol's pass starts from. *)
Definition startPass (all : list roundTrip) : passState :=
  {| allRoundTrips := all; buyQueue := []; realizedPL := zero;
     winCount := 0; lossCount := 0 |}.

(** The callback of [Object.entries(ordersBySymbol).forEach] up to the end
    of the inner [forEach]. *)
Definition processSymbol (all : list roundTrip) (sym : string)
    (symbolOrders : list order) : passState :=
  fold_left (processOrder sym) (sortBy byFilledAt symbolOrders) (startPass all).

(** [Analytics.jsx]: the [roundTrips] memo. *)
Module Analytics.

Definition collect (groups : list (string * list order)) : list roundTrip :=
  fold_left (λ all '(sym, symbolOrders),
               allRoundTrips (processSymbol all sym symbolOrders))
            groups [].

Definition roundTrips (orders : option (list order)) : list roundTrip :=
  match orders with
  | None => []
  | Some orders => sortBy bySellDate (collect (ordersBySymbol orders))
  end.

(** The [metrics] memo. *)
Record metricsT : Type := mkMetrics {
  totalTrades : nat;
  winners : nat;
  losers : nat;
  winRate : num;
  totalPL : num;
  avgWin : num;
  avgLoss : num;
  avgWinPercent : num;
  avgLossPercent : num;
  profitFactor : num;
  largestWin : option roundTrip;
  largestLoss : option roundTrip;
  expectancy : num;
}.

Definition isWinner (rt : roundTrip) : bool := ngeb (pl rt) zero.
Definition isLoser (rt : roundTrip) : bool := nltb (pl rt) zero.

(** [(a, b) => b.pl - a.pl] *)
Definition byPLDesc (a b : roundTrip) : num := nsub (pl b) (pl a).

Definition metrics (roundTrips : list roundTrip) : metricsT :=
  if Nat.eqb (length roundTrips) 0 then
    {| totalTrades := 0; winners := 0; losers := 0; winRate := zero;
       totalPL := zero; avgWin := zero; avgLoss := zero;
       avgWinPercent := zero; avgLossPercent := zero;
       profitFactor := zero; largestWin := None; largestLoss := None;
       expectancy := zero |}
  else
    let winners := List.filter isWinner roundTrips in
    let losers := List.filter isLoser roundTrips in
    let totalWins := sumBy pl winners in
    let totalLosses := nabs (sumBy pl losers) in
    let avgWin :=
      if negb (Nat.eqb (length winners) 0)
      then ndiv totalWins (ofNat (length winners)) else zero in
    let avgLoss :=
      if negb (Nat.eqb (length losers) 0)
      then ndiv totalLosses (ofNat (length losers)) else zero in
    let avgWinPercent :=
      if negb (Nat.eqb (length winners) 0)
      then ndiv (sumBy plPercent winners) (ofNat (length winners)) else zero in
    let avgLossPercent :=
      if negb (Nat.eqb (length losers) 0)
      then nabs (ndiv (sumBy plPercent losers) (ofNat (length losers)))
      else zero in
    let sortedByPL := sortBy byPLDesc roundTrips in
    let winRate :=
      if negb (Nat.eqb (length roundTrips) 0)
      then nmul (ndiv (ofNat (length winners)) (ofNat (length roundTrips))) hundred
      else zero in
    let profitFactor :=
      if ngtb totalLosses zero then ndiv totalWins totalLosses
      else if ngtb totalWins zero then PosInf else zero in
    let expectancy :=
      if negb (Nat.eqb (length roundTrips) 0)
      then nsub (nmul (ndiv winRate hundred) avgWin)
                (nmul (ndiv (nsub hundred winRate) hundred) avgLoss)
      else zero in
    {| totalTrades := length roundTrips;
       winners := length winners;
       losers := length losers;
       winRate := winRate;
       totalPL := sumBy pl roundTrips;
       avgWin := avgWin;
       avgLoss := avgLoss;
       avgWinPercent := avgWinPercent;
       avgLossPercent := avgLossPercent;
       profitFactor := profitFactor;
       largestWin := head sortedByPL;
       largestLoss := last sortedByPL;
       expectancy := expectancy |}.

(** The [dailyPL] memo.  A calendar day (a ['yyyy-MM-dd'] key) is
    represented by its number of days since the epoch, in which order the
    keys sort; the chart label ['MMM d'] made from it is left out.  [format]
    reads the day off the viewer's clock: [offset] gives, for every instant,
    the offset of the viewer's time zone from UTC in milliseconds. *)
Definition msPerDay : Z := 86400000.

Definition dateKey (offset : Z → Z) (timestamp : Z) : Z :=
  ((timestamp + offset timestamp) / msPerDay)%Z.

Record dayEntry : Type := mkDay {
  d_date : Z;
  d_pl : num;
}.

(** [dailyMap.get(dateKey) || 0] *)
Definition getOrZero (dailyMap : gmap Z num) (key : Z) : num :=
  match dailyMap !! key with
  | Some v => orZero v
  | None => zero
  end.

Definition addTrip (offset : Z → Z) (dailyMap : gmap Z num) (rt : roundTrip)
  : gmap Z num :=
  let key := dateKey offset (sellDate rt) in
  let current := getOrZero dailyMap key in
  <[key := nadd current (pl rt)]> dailyMap.

(** [eachDayOfInterval({ start, end })] *)
Definition eachDayOfInterval (startDate endDate : Z) : list Z :=
  seqZ startDate (endDate - startDate + 1).

Definition dailyPL (offset : Z → Z) (roundTrips : list roundTrip) : list dayEntry :=
  if Nat.eqb (length roundTrips) 0 then []
  else
    let dailyMap := fold_left (addTrip offset) roundTrips ∅ in
    let dates := sortBy dateDiff (map fst (map_to_list dailyMap)) in
    match head dates, last dates with
    | Some startDate, Some endDate =>
        map (λ date, {| d_date := date; d_pl := getOrZero dailyMap date |})
            (eachDayOfInterval startDate endDate)
    | _, _ => []
    end.

(** The [cumulativePL] memo: [dailyPL.map] with the running variable
    [cumulative]. *)
Record cumEntry : Type := mkCum {
  c_date : Z;
  cumulative : num;
}.

Fixpoint runningTotal (cumulative : num) (days : list dayEntry) : list cumEntry :=
  match days with
  | [] => []
  | day :: rest =>
      let cumulative := nadd cumulative (d_pl day) in
      {| c_date := d_date day; cumulative := cumulative |}
        :: runningTotal cumulative rest
  end.

Definition cumulativePL (dailyPL : list dayEntry) : list cumEntry :=
  if Nat.eqb (length dailyPL) 0 then [] else runningTotal zero dailyPL.

End Analytics.

(** [Positions.jsx], component [TradeHistory]: the memo that yields
    [{ roundTrips, symbolStats }]. *)
Module Positions.

Record symbolStat : Type := mkStat {
  st_realizedPL : num;
  st_trades : nat;
  st_winCount : nat;
  st_lossCount : nat;
  st_winRate : num;
}.

Definition statOf (st : passState) : symbolStat :=
  {| st_realizedPL := realizedPL st;
     st_trades := winCount st + lossCount st;
     st_winCount := winCount st;
     st_lossCount := lossCount st;
     st_winRate :=
       if negb (Nat.eqb (winCount st + lossCount st) 0)
       then nmul (ndiv (ofNat (winCount st))
                       (ofNat (winCount st + lossCount st))) hundred
       else zero |}.

Definition collect (groups : list (string * list order))
  : list roundTrip * gmap string symbolStat :=
  fold_left (λ '(all, stats) '(sym, symbolOrders),
               let st := processSymbol all sym symbolOrders in
               (allRoundTrips st, <[sym := statOf st]> stats))
            groups ([], ∅).

Definition tradeHistory (orders : option (list order))
  : list roundTrip * gmap string symbolStat :=
  match orders with
  | None => ([], ∅)
  | Some orders => collect (ordersBySymbol orders)
  end.

Definition roundTrips (orders : option (list order)) : list roundTrip :=
  fst (tradeHistory orders).

Definition symbolStats (orders : option (list order)) : gmap string symbolStat :=
  snd (tradeHistory orders).

End Positions.

(** ** Notions used to state the properties *)

(** Every element's key is at most the key of every later element. *)
Definition ascendingBy {A : Type} (key : A → Z) (l : list A) : Prop :=
  StronglySorted (λ a b, (key a ≤ key b)%Z) l.

(** The filled orders of one symbol, in input order. *)
Definition ofSymbol (sym : string) (o : order) : bool :=
  String.eqb sym (symbol o).

Definition symbolOrders (sym : string) (orders : list order) : list order :=
  List.filter (ofSymbol sym) (List.filter isFilled orders).

(** The symbols of the filled orders, each once, in the order in which they
    first occur. *)
Definition addKey (keys : list string) (s : string) : list string :=
  if existsb (String.eqb s) keys then keys else keys ++ [s].

Definition symbolsOf (orders : list order) : list string :=
  fold_left addKey (map symbol (List.filter isFilled orders)) [].

(** The round trips one symbol's pass emits, and the statistics it leaves. *)
Definition symTrips (sym : string) (symbolOrders : list order) : list roundTrip :=
  allRoundTrips (processSymbol [] sym symbolOrders).

Definition symStat (sym : string) (symbolOrders : list order) : Positions.symbolStat :=
  Positions.statOf (processSymbol [] sym symbolOrders).

(** The round trips of one symbol in a sequence of round trips. *)
Definition tripsOf (sym : string) (rts : list roundTrip) : list roundTrip :=
  List.filter (λ rt, String.eqb sym (rt_symbol rt)) rts.

(** A pass state seen from a pass that started with [all] already in
    [allRoundTrips]. *)
Definition withTrips (all : list roundTrip) (st : passState) : passState :=
  {| allRoundTrips := all ++ allRoundTrips st;
     buyQueue := buyQueue st;
     realizedPL := realizedPL st;
     winCount := winCount st;
     lossCount := lossCount st |}.

(** What [plPercent] comes to over a buy price of 0, by the sell price:
    [Infinity] above 0, [-Infinity] below 0, NaN at 0 or NaN. *)
Definition percentOverZero (sell : num) : num :=
  match sell with
  | Finite s => signedInf (Qsign s)
  | other => other
  end.

(** A number that is finite and not below 0, as quantities are. *)
Definition nonNegative (a : num) : Prop := ∃ q, a = Finite q ∧ (0 <= q)%Q.

Definition isFinite (a : num) : Prop := ∃ q, a = Finite q.

(** The rational a finite number stands for. *)
Definition val (a : num) : Q :=
  match a with
  | Finite q => q
  | _ => 0%Q
  end.

(** The exact sum of the values [f] takes on a list. *)
Definition qsum {A : Type} (f : A → num) (l : list A) : Q :=
  foldr (λ x s, (val (f x) + s)%Q) 0%Q l.

(** The filled buy orders of one symbol, in input order. *)
Definition isBuy (o : order) : bool := String.eqb (side o) "buy".

Definition buysOf (sym : string) (orders : list order) : list order :=
  List.filter isBuy (symbolOrders sym orders).

(** The invariant of a pass over orders whose buys amount to [bought]:
    every open lot and every round trip holds a quantity that is finite and
    not below 0, and matched and open quantities add up to [bought]. *)
Definition quantitiesAccounted (bought : Q) (st : passState) : Prop :=
  Forall (λ b, nonNegative (lot_qty b)) (buyQueue st)
  ∧ Forall (λ rt, nonNegative (rt_qty rt)) (allRoundTrips st)
  ∧ (qsum rt_qty (allRoundTrips st) + qsum lot_qty (buyQueue st) == bought)%Q.

(** The calendar day a round trip was sold on, the round trips sold on a
    given day, and the earliest and latest day of a non-empty sequence
    [rt :: rts]. *)
Definition sellDay (offset : Z → Z) (rt : roundTrip) : Z :=
  Analytics.dateKey offset (sellDate rt).

Definition soldOn (offset : Z → Z) (day : Z) (rts : list roundTrip) : list roundTrip :=
  List.filter (λ rt, Z.eqb (sellDay offset rt) day) rts.

Definition earliestSellDay (offset : Z → Z) (rt : roundTrip) (rts : list roundTrip) : Z :=
  foldr (λ x m, Z.min (sellDay offset x) m) (sellDay offset rt) rts.

Definition latestSellDay (offset : Z → Z) (rt : roundTrip) (rts : list roundTrip) : Z :=
  foldr (λ x m, Z.max (sellDay offset x) m) (sellDay offset rt) rts.

(** A finite number in lowest terms, as every result of an addition is. *)
Definition canonical (a : num) : Prop := ∃ q, a = Finite (Qred q).

(** What the map holds once the round trips [l] are entered: for every day
    with a sale, the sum over that day's round trips. *)
Definition dailyMapOf (offset : Z → Z) (l : list roundTrip) (dailyMap : gmap Z num)
  : Prop :=
  ∀ day, dailyMap !! day
         = if decide (soldOn offset day l = []) then None
           else Some (sumBy pl (soldOn offset day l)).

(** The viewer's clock set to UTC. *)
Definition utc : Z → Z := λ _, 0%Z.

(** The orders of the symbol of [o] that the symbol's pass handles before
    [o] and after it, when [o] stands between [l1] and [l2] in the input:
    before it come the orders filled earlier and those filled at the same
    instant that stand before it in the input. *)
Definition handledBefore (l1 : list order) (o : order) (l2 : list order) : list order :=
  sortBy byFilledAt
    (List.filter (λ x, (filled_at x <=? filled_at o)%Z) (symbolOrders (symbol o) l1)
     ++ List.filter (λ x, (filled_at x <? filled_at o)%Z) (symbolOrders (symbol o) l2)).

Definition handledAfter (l1 : list order) (o : order) (l2 : list order) : list order :=
  sortBy byFilledAt
    (List.filter (λ x, negb (filled_at x <=? filled_at o)%Z) (symbolOrders (symbol o) l1)
     ++ List.filter (λ x, negb (filled_at x <? filled_at o)%Z) (symbolOrders (symbol o) l2)).

(** The queue of open lots [o] finds when the pass reaches it. *)
Definition queueFoundBy (l1 : list order) (o : order) (l2 : list order) : list lot :=
  buyQueue (fold_left (processOrder (symbol o)) (handledBefore l1 o l2) (startPass [])).

(** ** The worked example of the specification

    Two buys and one sell of one symbol, the round trips expected from
    them and the lot expected to stay open. *)

Definition buy1 (sym : string) (T1 : Z) : order :=
  mkOrder sym "buy" "filled" (Finite 10) (Finite 100) T1.
Definition buy2 (sym : string) (T2 : Z) : order :=
  mkOrder sym "buy" "filled" (Finite 5) (Finite 110) T2.
Definition sell3 (sym : string) (T3 : Z) : order :=
  mkOrder sym "sell" "filled" (Finite 12) (Finite 120) T3.

Definition trip1 (sym : string) (T1 T3 : Z) : roundTrip :=
  {| rt_symbol := sym; buyPrice := Finite 100; sellPrice := Finite 120;
     rt_qty := Finite 10; pl := Finite 200; plPercent := Finite 20;
     cost := Finite 1000; revenue := Finite 1200;
     buyDate := T1; sellDate := T3 |}.
Definition trip2 (sym : string) (T2 T3 : Z) : roundTrip :=
  {| rt_symbol := sym; buyPrice := Finite 110; sellPrice := Finite 120;
     rt_qty := Finite 2; pl := Finite 20; plPercent := Finite (100 # 11);
     cost := Finite 220; revenue := Finite 240;
     buyDate := T2; sellDate := T3 |}.
Definition openLot (T2 : Z) : lot :=
  {| lot_qty := Finite 3; lot_price := Finite 110; lot_date := T2 |}.

(** ** Inputs used as counterexamples *)

(** Two symbols whose sells are filled in the opposite order of their first
    orders. *)
Definition unsortedOrders : list order :=
  [ mkOrder "AAPL" "buy" "filled" (Finite 1) (Finite 100) 1;
    mkOrder "MSFT" "buy" "filled" (Finite 1) (Finite 50) 2;
    mkOrder "MSFT" "sell" "filled" (Finite 1) (Finite 60) 3;
    mkOrder "AAPL" "sell" "filled" (Finite 1) (Finite 120) 4 ].

(** A buy filled at price 0 and the sell that closes it. *)
Definition zeroPriceOrders : list order :=
  [ mkOrder "AAPL" "buy" "filled" (Finite 10) (Finite 0) 1;
    mkOrder "AAPL" "sell" "filled" (Finite 10) (Finite 120) 2 ].

Definition zeroPriceTrip : roundTrip :=
  tripOf "AAPL" (Finite 120) 2 (Finite 10) (mkLot (Finite 10) (Finite 0) 1).

(** A buy whose quantity is not numeric, before a well-formed buy and a
    sell of the same symbol. *)
Definition malformedBuy : order :=
  mkOrder "AAPL" "buy" "filled" NaN (Finite 90) 1.

Definition wellFormedRest : list order :=
  [ mkOrder "AAPL" "buy" "filled" (Finite 10) (Finite 100) 2;
    mkOrder "AAPL" "sell" "filled" (Finite 10) (Finite 120) 3 ].

(** A sell of a symbol not bought yet, in front of two symbols whose sells
    are filled at the same instant. *)
Definition earlySell : order :=
  mkOrder "AAPL" "sell" "filled" (Finite 5) (Finite 90) 1.

Definition laterOrders : list order :=
  [ mkOrder "MSFT" "buy" "filled" (Finite 1) (Finite 50) 2;
    mkOrder "MSFT" "sell" "filled" (Finite 1) (Finite 60) 4;
    mkOrder "AAPL" "buy" "filled" (Finite 1) (Finite 100) 3;
    mkOrder "AAPL" "sell" "filled" (Finite 1) (Finite 120) 4 ].

(** ** Further notions about the pass *)

(** The invariant of a pass in time: [t] is the fill time of the order
    handled last.  Open lots stand in the order of their dates, round trips
    in the order of their sell dates and of their buy dates, nothing is dated
    after [t], no round trip is sold before it is bought, and no round trip
    was bought after a lot that is still open. *)
Definition chronological (t : Z) (st : passState) : Prop :=
  ascendingBy lot_date (buyQueue st)
  ∧ Forall (λ b, (lot_date b ≤ t)%Z) (buyQueue st)
  ∧ ascendingBy sellDate (allRoundTrips st)
  ∧ Forall (λ rt, (sellDate rt ≤ t)%Z) (allRoundTrips st)
  ∧ ascendingBy buyDate (allRoundTrips st)
  ∧ Forall (λ rt, (buyDate rt ≤ sellDate rt)%Z) (allRoundTrips st)
  ∧ Forall (λ rt, Forall (λ b, (buyDate rt ≤ lot_date b)%Z) (buyQueue st))
           (allRoundTrips st).

(** The counters of a pass agree with the round trips it has emitted. *)
Definition countersAgree (st : passState) : Prop :=
  realizedPL st = sumBy pl (allRoundTrips st)
  ∧ winCount st = length (List.filter Analytics.isWinner (allRoundTrips st))
  ∧ lossCount st
    = length (List.filter (λ rt, negb (Analytics.isWinner rt)) (allRoundTrips st)).

(** The lots a symbol's pass leaves open. *)
Definition openLots (sym : string) (orders : list order) : list lot :=
  buyQueue (processSymbol [] sym (symbolOrders sym orders)).

(** The filled sell orders of one symbol, in input order. *)
Definition isSell (o : order) : bool := String.eqb (side o) "sell".

Definition sellsOf (sym : string) (orders : list order) : list order :=
  List.filter isSell (symbolOrders sym orders).

(** A number that is finite and above 0. *)
Definition positive (a : num) : Prop := ∃ q, a = Finite q ∧ (0 < q)%Q.

(** A number from 0 to 100. *)
Definition percentage (a : num) : Prop := ∃ q, a = Finite q ∧ (0 <= q)%Q ∧ (q <= 100)%Q.

(** The invariant of a pass over orders whose buys hold quantities above
    0: so does every open lot and every round trip. *)
Definition quantitiesPositive (st : passState) : Prop :=
  Forall (λ b, positive (lot_qty b)) (buyQueue st)
  ∧ Forall (λ rt, positive (rt_qty rt)) (allRoundTrips st).

(** A whole number not below 0, and an integer.  Integers up to [2^53] in
    absolute value are binary64 numbers, and a sum or a difference of two of
    them that stays within that bound is computed without rounding. *)
Definition wholeNumber (a : num) : Prop := ∃ z : Z, (0 ≤ z)%Z ∧ a = Finite (inject_Z z).
Definition integral (a : num) : Prop := ∃ z : Z, a = Finite (inject_Z z).
Definition twoTo53 : num := Finite (inject_Z (2 ^ 53)).

(** The round trip [rt] closes a lot of the buy order [o]: it carries the
    order's fill time, and a quantity from 0 to the order's. *)
Definition closes (rt : roundTrip) (o : order) : Prop :=
  buyDate rt = filled_at o
  ∧ nleb zero (rt_qty rt) = true
  ∧ nleb (rt_qty rt) (filled_qty o) = true.

(** The invariant of a pass over orders whose buys are among [buys]: every
    open lot and every round trip stems from one of them and holds a quantity
    from 0 to that order's. *)
Definition stemFrom (buys : list order) (st : passState) : Prop :=
  Forall (λ b, ∃ o, o ∈ buys ∧ lot_date b = filled_at o
                    ∧ nleb zero (lot_qty b) = true
                    ∧ nleb (lot_qty b) (filled_qty o) = true) (buyQueue st)
  ∧ Forall (λ rt, ∃ o, o ∈ buys ∧ closes rt o) (allRoundTrips st).

(** ** Further notions about the figures *)

Definition isNaN (a : num) : bool :=
  match a with
  | NaN => true
  | _ => false
  end.

(** Every element's rank is at most the rank of every later element, for
    ranks that are rationals. *)
Definition rankedBy {A : Type} (rank : A → Q) (l : list A) : Prop :=
  StronglySorted (λ a b, (rank a <= rank b)%Q) l.

(** ** [Analytics.jsx]: the [symbolPerformance] memo *)

Module SymbolPerformance.

(** A value of [symbolMap], [{ pl, trades }], and an element of the sorted
    array, [{ symbol, ...data }]. *)
Record entry : Type := mkEntry {
  e_pl : num;
  e_trades : nat;
}.

Record row : Type := mkRow {
  r_symbol : string;
  r_pl : num;
  r_trades : nat;
}.

(** A [Map] with string keys, as the list of its entries in the order of
    insertion: [get], and [set], which leaves a key that is present where it
    is. *)
Fixpoint mapGet (m : list (string * entry)) (key : string) : option entry :=
  match m with
  | [] => None
  | (k, v) :: rest => if String.eqb k key then Some v else mapGet rest key
  end.

Fixpoint mapSet (m : list (string * entry)) (key : string) (value : entry)
  : list (string * entry) :=
  match m with
  | [] => [(key, value)]
  | (k, v) :: rest =>
      if String.eqb k key then (k, value) :: rest
      else (k, v) :: mapSet rest key value
  end.

(** The body of [roundTrips.forEach(rt => ...)]. *)
Definition addTrip (symbolMap : list (string * entry)) (rt : roundTrip)
  : list (string * entry) :=
  let current :=
    match mapGet symbolMap (rt_symbol rt) with
    | Some data => data
    | None => {| e_pl := zero; e_trades := 0 |}
    end in
  mapSet symbolMap (rt_symbol rt)
         {| e_pl := nadd (e_pl current) (pl rt); e_trades := e_trades current + 1 |}.

(** [Array.from(symbolMap.entries()).map(([symbol, data]) => ({ symbol, ...data }))] *)
Definition rows (roundTrips : list roundTrip) : list row :=
  map (λ '(symbol, data),
         {| r_symbol := symbol; r_pl := e_pl data; r_trades := e_trades data |})
      (fold_left addTrip roundTrips []).

(** [(a, b) => b.pl - a.pl] *)
Definition byPLDesc (a b : row) : num := nsub (r_pl b) (r_pl a).

Record result : Type := mkResult {
  best : list row;
  worst : list row;
}.

(** [slice(0, 5)] and [slice(-5)] *)
Definition firstFive {A : Type} (l : list A) : list A := take 5 l.
Definition lastFive {A : Type} (l : list A) : list A := drop (length l - 5) l.

Definition symbolPerformance (roundTrips : list roundTrip) : result :=
  if Nat.eqb (length roundTrips) 0 then {| best := []; worst := [] |}
  else
    let sorted := sortBy byPLDesc (rows roundTrips) in
    {| best := firstFive sorted; worst := rev (lastFive sorted) |}.

End SymbolPerformance.

(** The symbols of a sequence of round trips, each once, in the order in
    which they first occur. *)
Definition tripSymbols (rts : list roundTrip) : list string :=
  fold_left addKey (map rt_symbol rts) [].

(** ** [Positions.jsx], component [TradeHistory]: the other memos *)

Module History.

(** [(a, b) => new Date(b.filled_at) - new Date(a.filled_at)] *)
Definition byFilledAtDesc (a b : order) : num := dateDiff (filled_at b) (filled_at a).

(** The callback of [orders.filter] in [filteredOrders].  [symbolFilter] is
    a string, falsy when empty. *)
Definition keep (symbolFilter sideFilter : string) (o : order) : bool :=
  if negb (String.eqb (status o) "filled") then false
  else if negb (String.eqb symbolFilter "")
          && negb (String.eqb (symbol o) symbolFilter) then false
  else if negb (String.eqb sideFilter "all")
          && negb (String.eqb (side o) sideFilter) then false
  else true.

Definition filteredOrders (orders : option (list order))
    (symbolFilter sideFilter : string) : list order :=
  match orders with
  | None => []
  | Some orders =>
      sortBy byFilledAtDesc (List.filter (keep symbolFilter sideFilter) orders)
  end.

Definition filteredRoundTrips (roundTrips : list roundTrip) (symbolFilter : string)
  : list roundTrip :=
  if String.eqb symbolFilter "" then roundTrips
  else List.filter (λ rt, String.eqb (rt_symbol rt) symbolFilter) roundTrips.

(** The object [stats] as [Object.values] enumerates it: its entries in
    the order of the assignments [stats[symbol] = ...], one per group.  It
    holds what [Positions.symbolStats] holds ([statEntries_symbolStats]). *)
Definition collectEntries (groups : list (string * list order))
  : list roundTrip * list (string * Positions.symbolStat) :=
  fold_left (λ '(all, stats) '(sym, symbolOrders),
               let st := processSymbol all sym symbolOrders in
               (allRoundTrips st, stats ++ [(sym, Positions.statOf st)]))
            groups ([], []).

Definition statEntries (orders : option (list order))
  : list (string * Positions.symbolStat) :=
  match orders with
  | None => []
  | Some orders => snd (collectEntries (ordersBySymbol orders))
  end.

(** [symbolStats] is a plain object: besides its own keys, every name of
    a property of [Object.prototype] reaches a value through it. *)
Definition inheritedNames : list string :=
  ["constructor"; "hasOwnProperty"; "isPrototypeOf"; "propertyIsEnumerable";
   "toLocaleString"; "toString"; "valueOf"; "__proto__";
   "__defineGetter__"; "__defineSetter__"; "__lookupGetter__"; "__lookupSetter__"].

(** What [symbolStats[key]] gives when it is not [undefined]: the
    statistics stored under an own key, or what an inherited name reaches (a
    function, for [__proto__] the prototype itself), which is truthy and has
    none of the fields of statistics. *)
Inductive property : Type :=
  | Own (s : Positions.symbolStat)
  | Inherited (name : string).

Fixpoint getOwn (symbolStats : list (string * Positions.symbolStat)) (key : string)
  : option Positions.symbolStat :=
  match symbolStats with
  | [] => None
  | (k, s) :: rest => if String.eqb k key then Some s else getOwn rest key
  end.

(** [symbolStats[key]] *)
Definition getStat (symbolStats : list (string * Positions.symbolStat)) (key : string)
  : option property :=
  match getOwn symbolStats key with
  | Some s => Some (Own s)
  | None =>
      if existsb (String.eqb key) inheritedNames then Some (Inherited key) else None
  end.

(** The callback and the initial value of [reduce] in [totalStats]. *)
Definition addStat (acc s : Positions.symbolStat) : Positions.symbolStat :=
  {| Positions.st_realizedPL :=
       nadd (Positions.st_realizedPL acc) (Positions.st_realizedPL s);
     Positions.st_trades := Positions.st_trades acc + Positions.st_trades s;
     Positions.st_winCount := Positions.st_winCount acc + Positions.st_winCount s;
     Positions.st_lossCount := Positions.st_lossCount acc + Positions.st_lossCount s;
     Positions.st_winRate := zero |}.

Definition noStat : Positions.symbolStat :=
  {| Positions.st_realizedPL := zero; Positions.st_trades := 0;
     Positions.st_winCount := 0; Positions.st_lossCount := 0;
     Positions.st_winRate := zero |}.

Definition totalStats (symbolStats : list (string * Positions.symbolStat))
    (symbolFilter : string) : property :=
  match (if String.eqb symbolFilter "" then None
         else getStat symbolStats symbolFilter) with
  | Some p => p
  | None => Own (fold_left addStat (map snd symbolStats) noStat)
  end.

End History.

(** What the counters of [totalStats] are compared with: the number of
    round trips of a sequence, of those with a P/L of at least 0, and of the
    others. *)
Definition countsOf (rts : list roundTrip) (s : Positions.symbolStat) : Prop :=
  Positions.st_trades s = length rts
  ∧ Positions.st_winCount s = length (List.filter Analytics.isWinner rts)
  ∧ Positions.st_lossCount s
    = length (List.filter (λ rt, negb (Analytics.isWinner rt)) rts).

(** ** [Positions.jsx], component [Positions], and the Overview page *)

(** An open position as the brokerage returns it.  Its figures are strings;
    a field is represented by the number [parseFloat] reads from it, or
    [None] when it is missing or the empty string, which is what [||] tells
    apart. *)
Record position : Type := mkPosition {
  p_symbol : string;
  p_qty : option num;
  p_avg_entry_price : option num;
  p_current_price : option num;
  p_market_value : option num;
  p_unrealized_pl : option num;
  p_unrealized_plpc : option num;
}.

(** [parseFloat(field)] and [parseFloat(field || 0)] *)
Definition parseFloat (field : option num) : num :=
  match field with
  | Some v => v
  | None => NaN
  end.

Definition parseFloatOrZero (field : option num) : num :=
  match field with
  | Some v => v
  | None => zero
  end.

Module PositionsPage.

(** [SORT_OPTIONS].  [localeCompare] is the collation of the viewer's
    locale, a parameter. *)
Section SortOptions.
Variable localeCompare : string → string → num.

Definition bySymbol (a b : position) : num := localeCompare (p_symbol a) (p_symbol b).
Definition byQty (a b : position) : num :=
  nsub (parseFloat (p_qty a)) (parseFloat (p_qty b)).
Definition byAvgEntryPrice (a b : position) : num :=
  nsub (parseFloat (p_avg_entry_price a)) (parseFloat (p_avg_entry_price b)).
Definition byCurrentPrice (a b : position) : num :=
  nsub (parseFloat (p_current_price a)) (parseFloat (p_current_price b)).
Definition byMarketValue (a b : position) : num :=
  nsub (parseFloat (p_market_value a)) (parseFloat (p_market_value b)).
Definition byCostBasis (a b : position) : num :=
  let costA := nmul (parseFloat (p_qty a)) (parseFloat (p_avg_entry_price a)) in
  let costB := nmul (parseFloat (p_qty b)) (parseFloat (p_avg_entry_price b)) in
  nsub costA costB.
Definition byUnrealizedPL (a b : position) : num :=
  nsub (parseFloat (p_unrealized_pl a)) (parseFloat (p_unrealized_pl b)).
Definition byUnrealizedPLPC (a b : position) : num :=
  nsub (parseFloat (p_unrealized_plpc a)) (parseFloat (p_unrealized_plpc b)).

(** [SORT_OPTIONS[column]], for the column names the page uses. *)
Definition sortOption (column : string) : option (position → position → num) :=
  if String.eqb column "symbol" then Some bySymbol
  else if String.eqb column "qty" then Some byQty
  else if String.eqb column "avg_entry_price" then Some byAvgEntryPrice
  else if String.eqb column "current_price" then Some byCurrentPrice
  else if String.eqb column "market_value" then Some byMarketValue
  else if String.eqb column "cost_basis" then Some byCostBasis
  else if String.eqb column "unrealized_pl" then Some byUnrealizedPL
  else if String.eqb column "unrealized_plpc" then Some byUnrealizedPLPC
  else None.

(** The state [sortBy], here [sortColumn], and [sortAsc]. *)
Record sortState : Type := mkSort {
  sortColumn : string;
  sortAsc : bool;
}.

Definition sortedPositions (positions : option (list position)) (st : sortState)
  : list position :=
  match positions with
  | None => []
  | Some positions =>
      let sorted :=
        sortBy (match sortOption (sortColumn st) with
                | Some cmp => cmp
                | None => bySymbol
                end) positions in
      if sortAsc st then sorted else rev sorted
  end.

End SortOptions.

Definition initialSort : sortState := {| sortColumn := "symbol"; sortAsc := true |}.

Definition handleSort (st : sortState) (column : string) : sortState :=
  if String.eqb (sortColumn st) column
  then {| sortColumn := sortColumn st; sortAsc := negb (sortAsc st) |}
  else {| sortColumn := column; sortAsc := true |}.

(** The [totals] memo. *)
Record totalsT : Type := mkTotals {
  marketValue : num;
  costBasis : num;
  unrealizedPL : num;
}.

Definition addPosition (acc : totalsT) (pos : position) : totalsT :=
  let qty := parseFloat (p_qty pos) in
  let avgEntry := parseFloat (p_avg_entry_price pos) in
  let costBasis' := nmul qty avgEntry in
  {| marketValue := nadd (marketValue acc) (parseFloatOrZero (p_market_value pos));
     costBasis := nadd (costBasis acc) costBasis';
     unrealizedPL := nadd (unrealizedPL acc) (parseFloatOrZero (p_unrealized_pl pos)) |}.

Definition totals (positions : option (list position)) : totalsT :=
  match positions with
  | None => {| marketValue := zero; costBasis := zero; unrealizedPL := zero |}
  | Some positions =>
      fold_left addPosition positions
                {| marketValue := zero; costBasis := zero; unrealizedPL := zero |}
  end.

End PositionsPage.

(** The Overview page: the memo of the unrealized profit. *)
Module Overview.

Record unrealizedT : Type := mkUnrealized {
  totalUnrealizedPL : num;
  totalUnrealizedPLPercent : num;
}.

Definition unrealized (positions : option (list position)) : unrealizedT :=
  match positions with
  | None => {| totalUnrealizedPL := zero; totalUnrealizedPLPercent := zero |}
  | Some positions =>
      let total := sumBy (λ pos, parseFloatOrZero (p_unrealized_pl pos)) positions in
      let totalCost :=
        sumBy (λ pos,
                 let qty := parseFloat (p_qty pos) in
                 let avgEntry := parseFloat (p_avg_entry_price pos) in
                 nmul qty avgEntry) positions in
      let percent :=
        if ngtb totalCost zero then nmul (ndiv total totalCost) hundred else zero in
      {| totalUnrealizedPL := total; totalUnrealizedPLPercent := percent |}
  end.

End Overview.

(** The number a column of the positions table is sorted by. *)
Definition columnValue (column : string) (p : position) : num :=
  if String.eqb column "qty" then parseFloat (p_qty p)
  else if String.eqb column "avg_entry_price" then parseFloat (p_avg_entry_price p)
  else if String.eqb column "current_price" then parseFloat (p_current_price p)
  else if String.eqb column "market_value" then parseFloat (p_market_value p)
  else if String.eqb column "cost_basis"
       then nmul (parseFloat (p_qty p)) (parseFloat (p_avg_entry_price p))
  else if String.eqb column "unrealized_pl" then parseFloat (p_unrealized_pl p)
  else parseFloat (p_unrealized_plpc p).

Definition numericColumns : list string :=
  ["qty"; "avg_entry_price"; "current_price"; "market_value"; "cost_basis";
   "unrealized_pl"; "unrealized_plpc"].

(** ** The same code on binary64 numbers

    [num] leaves rounding out.  Where rounding decides what the program
    computes, the code is read once more over the numbers it runs on: the
    kernel's [float] is IEEE 754 binary64 with rounding to nearest, ties to
    even, which is the Number type of the language.  A decimal literal below
    stands for the nearest binary64 number, as [parseFloat] reads it from a
    decimal string.  Timestamps are integers below 2^53 in absolute value, so
    a difference of two of them is exact and the comparators of the sorts are
    the ones above. *)
Set Warnings "-inexact-float".

Module Double.

(** [a > b], [a >= b] *)
Definition gtb (a b : float) : bool := PrimFloat.ltb b a.
Definition geb (a b : float) : bool := PrimFloat.leb b a.

(** [Math.min(a, b)]: NaN when one side is, and of two zeros the negative
    one. *)
Definition min (a b : float) : float :=
  if PrimFloat.is_nan a || PrimFloat.is_nan b then PrimFloat.nan
  else if PrimFloat.ltb a b then a
  else if PrimFloat.ltb b a then b
  else if PrimFloat.get_sign a then a else b.

(** [a || 0]: 0, -0 and NaN are falsy. *)
Definition truthy (a : float) : bool := negb (PrimFloat.is_zero a || PrimFloat.is_nan a).
Definition orZero (a : float) : float := if truthy a then a else 0%float.

(** A count as a number. *)
Definition ofNat (n : nat) : float := PrimFloat.of_uint63 (Uint63.of_Z (Z.of_nat n)).

(** [reduce((sum, x) => sum + f(x), 0)] *)
Definition sumBy {A : Type} (f : A → float) (l : list A) : float :=
  fold_left (λ sum x, PrimFloat.add sum (f x)) l 0%float.

Record order : Type := mkOrder {
  symbol : string;
  side : string;
  status : string;
  filled_qty : float;
  filled_avg_price : float;
  filled_at : Z;
}.

Record lot : Type := mkLot {
  lot_qty : float;
  lot_price : float;
  lot_date : Z;
}.

Record roundTrip : Type := mkRoundTrip {
  rt_symbol : string;
  buyPrice : float;
  sellPrice : float;
  rt_qty : float;
  pl : float;
  plPercent : float;
  cost : float;
  revenue : float;
  buyDate : Z;
  sellDate : Z;
}.

Record passState : Type := mkPass {
  allRoundTrips : list roundTrip;
  buyQueue : list lot;
  realizedPL : float;
  winCount : nat;
  lossCount : nat;
}.

Definition isFilled (o : order) : bool := String.eqb (status o) "filled".

Fixpoint pushOrder (obj : list (string * list order)) (o : order)
  : list (string * list order) :=
  match obj with
  | [] => [(symbol o, [o])]
  | (s, os) :: rest =>
      if String.eqb s (symbol o) then (s, os ++ [o]) :: rest
      else (s, os) :: pushOrder rest o
  end.

Definition ordersBySymbol (orders : list order) : list (string * list order) :=
  fold_left pushOrder (List.filter isFilled orders) [].

Definition byFilledAt (a b : order) : num := dateDiff (filled_at a) (filled_at b).
Definition bySellDate (a b : roundTrip) : num := dateDiff (sellDate a) (sellDate b).

Definition tripOf (sym : string) (price : float) (date : Z)
    (matchQty : float) (buy : lot) : roundTrip :=
  {| rt_symbol := sym;
     buyPrice := lot_price buy;
     sellPrice := price;
     rt_qty := matchQty;
     pl := PrimFloat.mul (PrimFloat.sub price (lot_price buy)) matchQty;
     plPercent :=
       PrimFloat.mul (PrimFloat.div (PrimFloat.sub price (lot_price buy)) (lot_price buy))
                     100%float;
     cost := PrimFloat.mul (lot_price buy) matchQty;
     revenue := PrimFloat.mul price matchQty;
     buyDate := lot_date buy;
     sellDate := date |}.

Definition matchOnce (sym : string) (price : float) (date : Z)
    (sellQty : float) (buy : lot) (rest : list lot) (st : passState)
  : float * passState :=
  let matchQty := min sellQty (lot_qty buy) in
  let rt := tripOf sym price date matchQty buy in
  let buy' := {| lot_qty := PrimFloat.sub (lot_qty buy) matchQty;
                 lot_price := lot_price buy;
                 lot_date := lot_date buy |} in
  (PrimFloat.sub sellQty matchQty,
   {| allRoundTrips := allRoundTrips st ++ [rt];
      buyQueue := if PrimFloat.leb (lot_qty buy') 0%float then rest else buy' :: rest;
      realizedPL := PrimFloat.add (realizedPL st) (pl rt);
      winCount := if geb (pl rt) 0%float then S (winCount st) else winCount st;
      lossCount := if geb (pl rt) 0%float then lossCount st else S (lossCount st) |}).

Definition loopCond (sellQty : float) (st : passState) : bool :=
  gtb sellQty 0%float && negb (Nat.eqb (length (buyQueue st)) 0).

Fixpoint matchLoop (fuel : nat) (sym : string) (price : float) (date : Z)
    (sellQty : float) (st : passState) : float * passState :=
  match fuel with
  | O => (sellQty, st)
  | S fuel' =>
      if gtb sellQty 0%float then
        match buyQueue st with
        | [] => (sellQty, st)
        | buy :: rest =>
            let '(sellQty', st') := matchOnce sym price date sellQty buy rest st in
            matchLoop fuel' sym price date sellQty' st'
        end
      else (sellQty, st)
  end.

(** The loop is given one turn per queued lot and one more, as above;
    [Double_matchLoop_exits] shows that it stops on its own condition within
    them. *)
Definition processOrder (sym : string) (st : passState) (o : order) : passState :=
  let qty := filled_qty o in
  let price := filled_avg_price o in
  if String.eqb (side o) "buy" then
    {| allRoundTrips := allRoundTrips st;
       buyQueue := buyQueue st ++ [ {| lot_qty := qty; lot_price := price;
                                       lot_date := filled_at o |} ];
       realizedPL := realizedPL st;
       winCount := winCount st;
       lossCount := lossCount st |}
  else if String.eqb (side o) "sell" && negb (Nat.eqb (length (buyQueue st)) 0) then
    snd (matchLoop (S (length (buyQueue st))) sym price (filled_at o) qty st)
  else st.

Definition startPass (all : list roundTrip) : passState :=
  {| allRoundTrips := all; buyQueue := []; realizedPL := 0%float;
     winCount := 0; lossCount := 0 |}.

Definition processSymbol (all : list roundTrip) (sym : string)
    (symbolOrders : list order) : passState :=
  fold_left (processOrder sym) (sortBy byFilledAt symbolOrders) (startPass all).

(** The calendar day of an instant and the days of an interval are those
    of [Analytics] above: they involve no number of the code. *)
Definition dateKey : (Z → Z) → Z → Z := Analytics.dateKey.
Definition eachDayOfInterval : Z → Z → list Z := Analytics.eachDayOfInterval.

(** [Analytics.jsx]: [roundTrips], the [totalPL] of [metrics], [dailyPL]
    and [cumulativePL]. *)
Module Analytics.

Definition collect (groups : list (string * list order)) : list roundTrip :=
  fold_left (λ all '(sym, symbolOrders),
               allRoundTrips (processSymbol all sym symbolOrders))
            groups [].

Definition roundTrips (orders : option (list order)) : list roundTrip :=
  match orders with
  | None => []
  | Some orders => sortBy bySellDate (collect (ordersBySymbol orders))
  end.

(** [roundTrips.reduce((sum, rt) => sum + rt.pl, 0)]; for no round trip
    [metrics] returns 0, which is this sum too. *)
Definition totalPL (roundTrips : list roundTrip) : float := sumBy pl roundTrips.

Record dayEntry : Type := mkDay {
  d_date : Z;
  d_pl : float;
}.

Definition getOrZero (dailyMap : gmap Z float) (key : Z) : float :=
  match dailyMap !! key with
  | Some v => orZero v
  | None => 0%float
  end.

Definition addTrip (offset : Z → Z) (dailyMap : gmap Z float) (rt : roundTrip)
  : gmap Z float :=
  let key := dateKey offset (sellDate rt) in
  let current := getOrZero dailyMap key in
  <[key := PrimFloat.add current (pl rt)]> dailyMap.

Definition dailyPL (offset : Z → Z) (roundTrips : list roundTrip) : list dayEntry :=
  if Nat.eqb (length roundTrips) 0 then []
  else
    let dailyMap := fold_left (addTrip offset) roundTrips ∅ in
    let dates := sortBy dateDiff (map fst (map_to_list dailyMap)) in
    match head dates, last dates with
    | Some startDate, Some endDate =>
        map (λ date, {| d_date := date; d_pl := getOrZero dailyMap date |})
            (eachDayOfInterval startDate endDate)
    | _, _ => []
    end.

Record cumEntry : Type := mkCum {
  c_date : Z;
  cumulative : float;
}.

Fixpoint runningTotal (cumulative : float) (days : list dayEntry) : list cumEntry :=
  match days with
  | [] => []
  | day :: rest =>
      let cumulative := PrimFloat.add cumulative (d_pl day) in
      {| c_date := d_date day; cumulative := cumulative |}
        :: runningTotal cumulative rest
  end.

Definition cumulativePL (dailyPL : list dayEntry) : list cumEntry :=
  if Nat.eqb (length dailyPL) 0 then [] else runningTotal 0%float dailyPL.

End Analytics.

(** [Positions.jsx], component [TradeHistory]: [{ roundTrips, symbolStats }],
    the statistics as the list of the entries of [stats]. *)
Module Positions.

Record symbolStat : Type := mkStat {
  st_realizedPL : float;
  st_trades : nat;
  st_winCount : nat;
  st_lossCount : nat;
  st_winRate : float;
}.

Definition statOf (st : passState) : symbolStat :=
  {| st_realizedPL := realizedPL st;
     st_trades := winCount st + lossCount st;
     st_winCount := winCount st;
     st_lossCount := lossCount st;
     st_winRate :=
       if negb (Nat.eqb (winCount st + lossCount st) 0)
       then PrimFloat.mul (PrimFloat.div (ofNat (winCount st))
                                         (ofNat (winCount st + lossCount st)))
                          100%float
       else 0%float |}.

Definition collect (groups : list (string * list order))
  : list roundTrip * list (string * symbolStat) :=
  fold_left (λ '(all, stats) '(sym, symbolOrders),
               let st := processSymbol all sym symbolOrders in
               (allRoundTrips st, stats ++ [(sym, statOf st)]))
            groups ([], []).

Definition tradeHistory (orders : option (list order))
  : list roundTrip * list (string * symbolStat) :=
  match orders with
  | None => ([], [])
  | Some orders => collect (ordersBySymbol orders)
  end.

Definition roundTrips (orders : option (list order)) : list roundTrip :=
  fst (tradeHistory orders).

End Positions.

(** The round trips of one symbol, and its filled buy orders. *)
Definition tripsOf (sym : string) (rts : list roundTrip) : list roundTrip :=
  List.filter (λ rt, String.eqb sym (rt_symbol rt)) rts.

Definition buysOf (sym : string) (orders : list order) : list order :=
  List.filter (λ o, String.eqb (side o) "buy")
    (List.filter (λ o, String.eqb sym (symbol o)) (List.filter isFilled orders)).

(** Fractional shares: 25.63 bought, then 8.99 and 27.5 sold. *)
Definition fractionalOrders : list order :=
  [ mkOrder "AAPL" "buy" "filled" 25.63 100 1;
    mkOrder "AAPL" "sell" "filled" 8.99 110 2;
    mkOrder "AAPL" "sell" "filled" 27.5 120 3 ].

(** Bought at 0.25 and sold at 0.5: 0.4 on the first day, 0.8 and 1.2 on
    the second, which makes round trips with a P/L of 0.1, 0.2 and 0.3. *)
Definition tenthsOrders : list order :=
  [ mkOrder "AAPL" "buy" "filled" 3 0.25 1000;
    mkOrder "AAPL" "sell" "filled" 0.4 0.5 3600000;
    mkOrder "AAPL" "sell" "filled" 0.8 0.5 90000000;
    mkOrder "AAPL" "sell" "filled" 1.2 0.5 93600000 ].

End Double.
(** ** Facts about numbers *)

Lemma Qsign_spec (q : Q) :
  match Qsign q with
  | Lt => (q < 0)%Q
  | Eq => (q == 0)%Q
  | Gt => (0 < q)%Q
  end.
Proof.
  unfold Qsign, Qlt, Qeq. destruct q as [n d]; simpl.
  destruct (Z.compare_spec n 0); lia.
Qed.

Lemma Qle_bool_false (x y : Q) : Qle_bool x y = false ↔ (y < x)%Q.
Proof.
  rewrite <- Bool.not_true_iff_false, Qle_bool_iff. split.
  - apply Qnot_le_lt.
  - apply Qlt_not_le.
Qed.

Lemma dateDiff_gt (a b : Z) : ngtb (dateDiff a b) zero = (b <? a)%Z.
Proof.
  unfold ngtb, dateDiff, zero, nltb.
  destruct (Z.ltb_spec b a) as [H|H].
  - apply Bool.negb_true_iff, Qle_bool_false.
    unfold Qlt; simpl. lia.
  - apply Bool.negb_false_iff, Qle_bool_iff.
    unfold Qle; simpl. lia.
Qed.

Lemma Qred_sub_diag (x : Q) : Qred (x - x) = 0%Q.
Proof.
  change 0%Q with (Qred 0). apply Qred_complete. ring.
Qed.

Lemma Qsign_compat (a b : Q) : (a == b)%Q → Qsign a = Qsign b.
Proof.
  intros H. pose proof (Qsign_spec a) as Ha. pose proof (Qsign_spec b) as Hb.
  destruct (Qsign a), (Qsign b); try reflexivity; exfalso; lra.
Qed.

Lemma Qsign_Qred (a : Q) : Qsign (Qred a) = Qsign a.
Proof. apply Qsign_compat, Qred_correct. Qed.

Lemma Qle_bool_Qred_l (a b : Q) : Qle_bool (Qred a) b = Qle_bool a b.
Proof.
  apply Bool.eq_true_iff_eq. rewrite !Qle_bool_iff. by rewrite Qred_correct.
Qed.

Lemma Qle_bool_Qred_r (a b : Q) : Qle_bool a (Qred b) = Qle_bool a b.
Proof.
  apply Bool.eq_true_iff_eq. rewrite !Qle_bool_iff. by rewrite Qred_correct.
Qed.

Lemma Qred_idem (q : Q) : Qred (Qred q) = Qred q.
Proof. apply Qred_complete, Qred_correct. Qed.

Lemma Qred_zero (a : Q) : (a == 0)%Q → Qred a = 0%Q.
Proof. intros H. change 0%Q with (Qred 0). by apply Qred_complete. Qed.

(** Comparisons of finite numbers, read as (in)equalities of rationals and
    handed to [lra]. *)
Ltac qorder :=
  cbn [nleb nltb ngtb ngeb nadd nsub nabs zero] in *;
  rewrite ?Qle_bool_Qred_l, ?Qle_bool_Qred_r in *;
  repeat match goal with
    | H : negb (Qle_bool _ _) = true |- _ =>
        apply Bool.negb_true_iff, Qle_bool_false in H
    | H : Qle_bool _ _ = true |- _ => apply Qle_bool_iff in H
    | H : Qle_bool _ _ = false |- _ => apply Qle_bool_false in H
    end;
  try match goal with
    | |- negb (Qle_bool _ _) = true => apply Bool.negb_true_iff, Qle_bool_false
    | |- Qle_bool _ _ = true => apply Qle_bool_iff
    | |- Qle_bool _ _ = false => apply Qle_bool_false
    end;
  try lra.

(** The sum of values that are all below 0 is 0 (no value) or below 0. *)
Lemma sumBy_negative {A : Type} (f : A → num) (l : list A) :
  Forall (λ x, nltb (f x) zero = true) l →
  sumBy f l = zero ∨ nltb (sumBy f l) zero = true.
Proof.
  unfold sumBy. intros H.
  assert (Hgen : ∀ acc, acc = zero ∨ nltb acc zero = true →
            fold_left (λ sum x, nadd sum (f x)) l acc = zero
            ∨ nltb (fold_left (λ sum x, nadd sum (f x)) l acc) zero = true).
  { induction H as [|x l Hx _ IH]; intros acc Hacc; [done|].
    cbn [fold_left]. apply IH. right.
    destruct Hacc as [->|Hacc]; [|destruct acc as [a| | |]; try done];
      destruct (f x) as [y| | |]; try done; qorder. }
  apply Hgen. by left.
Qed.

(** The sum of values that are all at least 0 is 0 or above 0. *)
Lemma sumBy_nonnegative {A : Type} (f : A → num) (l : list A) :
  Forall (λ x, ngeb (f x) zero = true) l →
  sumBy f l = zero ∨ ngtb (sumBy f l) zero = true.
Proof.
  unfold sumBy. intros H.
  assert (Hgen : ∀ acc, acc = zero ∨ ngtb acc zero = true →
            fold_left (λ sum x, nadd sum (f x)) l acc = zero
            ∨ ngtb (fold_left (λ sum x, nadd sum (f x)) l acc) zero = true).
  { induction H as [|x l Hx _ IH]; intros acc Hacc; [done|].
    cbn [fold_left]. apply IH.
    destruct Hacc as [->|Hacc]; [|destruct acc as [a| | |]; try done];
      destruct (f x) as [y| | |]; try done; try (by right).
    - qorder. destruct (Qlt_le_dec 0 y) as [Hy|Hy].
      + right. qorder.
      + left. unfold zero. f_equal. apply Qred_zero. lra.
    - right. qorder. }
  apply Hgen. by left.
Qed.

Lemma nabs_negative (a : num) : nltb a zero = true → ngtb (nabs a) zero = true.
Proof.
  destruct a as [x| | |]; try done. intros H. qorder.
  rewrite Qabs_neg by lra. lra.
Qed.
(** ** The loop stops on its own condition *)

Lemma matchLoop_done fuel sym price date sellQty st :
  loopCond sellQty st = false →
  matchLoop fuel sym price date sellQty st = (sellQty, st).
Proof.
  unfold loopCond. intros H. destruct fuel as [|fuel]; [done|].
  cbn [matchLoop].
  destruct (ngtb sellQty zero); [|done].
  destruct (buyQueue st); [done|]. discriminate.
Qed.

(** A turn that leaves the lot at the head of the queue either brings
    [sellQty] to a value that is not above 0, or leaves NaN in the lot. *)
Lemma no_shift_step (s b : num) :
  ngtb s zero = true →
  nleb (nsub b (nmin s b)) zero = false →
  ngtb (nsub s (nmin s b)) zero = false ∨ nsub b (nmin s b) = NaN.
Proof.
  destruct s as [x| | |], b as [y| | |]; simpl; try done; auto.
  - destruct (Qle_bool x y) eqn:E; simpl; rewrite Qred_sub_diag.
    + intros _ _. by left.
    + discriminate.
  - rewrite Qred_sub_diag. by left.
  - rewrite Qred_sub_diag. discriminate.
Qed.

Lemma nan_lot_step (s : num) : ngtb (nsub s (nmin s NaN)) zero = false.
Proof. by destruct s. Qed.

Lemma matchLoop_exits_gen fuel sym price date sellQty st :
  length (buyQueue st) < fuel
  ∨ (length (buyQueue st) ≤ fuel ∧ ∃ b rest, buyQueue st = b :: rest ∧ lot_qty b = NaN) →
  let '(sellQty', st') := matchLoop fuel sym price date sellQty st in
  loopCond sellQty' st' = false.
Proof.
  revert sellQty st.
  induction fuel as [|fuel IH]; intros sellQty st Hfuel.
  - destruct Hfuel as [H|[H (b & rest & Hq & _)]]; [lia|].
    rewrite Hq in H. simpl in H. lia.
  - cbn [matchLoop]. destruct (ngtb sellQty zero) eqn:Hs.
    2:{ unfold loopCond. by rewrite Hs. }
    destruct (buyQueue st) as [|buy rest] eqn:Hq.
    { unfold loopCond. rewrite Hq. apply andb_false_r. }
    unfold matchOnce. cbn [lot_qty].
    destruct Hfuel as [Hlt|[Hle (b & rest' & Hq' & Hnan)]].
    + destruct (nleb (nsub (lot_qty buy) (nmin sellQty (lot_qty buy))) zero) eqn:Hshift.
      * apply IH. left. simpl in *. lia.
      * destruct (no_shift_step _ _ Hs Hshift) as [Hout|Hnan].
        -- rewrite matchLoop_done; unfold loopCond; by rewrite Hout.
        -- apply IH. right. simpl in *. split; [lia|].
           eexists _, _. split; [reflexivity|]. simpl. exact Hnan.
    + injection Hq' as <- <-. rewrite Hnan.
      rewrite matchLoop_done; unfold loopCond; by rewrite nan_lot_step.
Qed.

(** With one turn per queued lot and one more, the loop ends because
    [sellQty > 0 && buyQueue.length > 0] is false, not because the bound
    is reached. *)
Lemma matchLoop_exits sym price date sellQty st :
  let '(sellQty', st') :=
    matchLoop (S (length (buyQueue st))) sym price date sellQty st in
  loopCond sellQty' st' = false.
Proof. apply matchLoop_exits_gen. left. lia. Qed.

Lemma matchLoop_add n m sym price date sellQty st :
  matchLoop (n + m) sym price date sellQty st =
  let '(sellQty', st') := matchLoop n sym price date sellQty st in
  matchLoop m sym price date sellQty' st'.
Proof.
  revert sellQty st. induction n as [|n IH]; intros sellQty st; [done|].
  cbn [Nat.add matchLoop]. destruct (ngtb sellQty zero) eqn:Hs.
  - destruct (buyQueue st) as [|buy rest] eqn:Hq.
    + rewrite matchLoop_done; [done|]. unfold loopCond. rewrite Hq. apply andb_false_r.
    + destruct (matchOnce sym price date sellQty buy rest st) as [s' st'].
      apply IH.
  - rewrite matchLoop_done; [done|]. unfold loopCond. by rewrite Hs.
Qed.

(** Any larger bound gives the same final state: the bounded loop is the
    loop. *)
Lemma matchLoop_fuel fuel sym price date sellQty st :
  S (length (buyQueue st)) ≤ fuel →
  matchLoop fuel sym price date sellQty st =
  matchLoop (S (length (buyQueue st))) sym price date sellQty st.
Proof.
  intros H.
  replace fuel with (S (length (buyQueue st)) + (fuel - S (length (buyQueue st)))) by lia.
  rewrite matchLoop_add.
  pose proof (matchLoop_exits sym price date sellQty st) as Hex.
  destruct (matchLoop (S (length (buyQueue st))) sym price date sellQty st) as [s' st'].
  by apply matchLoop_done.
Qed.

(** ** Facts about sorting *)

Section Sorting.
Context {A : Type}.
Implicit Types (l : list A) (cmp : A → A → num).

Lemma sortBy_cons cmp x l :
  sortBy cmp (x :: l) = insertBy cmp x (sortBy cmp l).
Proof. reflexivity. Qed.

Lemma insertBy_perm cmp x l : insertBy cmp x l ≡ₚ x :: l.
Proof.
  induction l as [|y l IH]; [done|]. cbn [insertBy].
  destruct (ngtb (cmp x y) zero); [|done].
  rewrite IH. apply Permutation_swap.
Qed.

Lemma sortBy_perm cmp l : sortBy cmp l ≡ₚ l.
Proof.
  induction l as [|x l IH]; [done|]. rewrite sortBy_cons.
  rewrite insertBy_perm. by constructor.
Qed.

Lemma elem_of_sortBy cmp x l : x ∈ sortBy cmp l ↔ x ∈ l.
Proof. by rewrite sortBy_perm. Qed.

Lemma insertBy_filter_out cmp (p : A → bool) x l :
  p x = false → List.filter p (insertBy cmp x l) = List.filter p l.
Proof.
  intros Hx. induction l as [|y l IH]; cbn [insertBy List.filter].
  - by rewrite Hx.
  - destruct (ngtb (cmp x y) zero); cbn [List.filter].
    + by rewrite IH.
    + by rewrite Hx.
Qed.

(** Comparators that order by an integer key, as both comparators of the
    matcher do. *)
Section ByKey.
Variables (key : A → Z) (cmp : A → A → num).
Hypothesis cmp_key : ∀ x y, ngtb (cmp x y) zero = (key y <? key x)%Z.

Lemma insertBy_head x l :
  Forall (λ z, (key x ≤ key z)%Z) l → insertBy cmp x l = x :: l.
Proof.
  destruct l as [|y l]; [done|]. intros H. cbn [insertBy].
  rewrite cmp_key. apply Forall_cons_1 in H as [H _].
  destruct (Z.ltb_spec (key y) (key x)); [lia|done].
Qed.

Lemma insertBy_app_l x l1 l2 :
  Forall (λ z, (key x ≤ key z)%Z) l2 →
  insertBy cmp x (l1 ++ l2) = insertBy cmp x l1 ++ l2.
Proof.
  intros H. induction l1 as [|y l1 IH]; cbn [app insertBy].
  - by apply insertBy_head.
  - destruct (ngtb (cmp x y) zero); [|done]. by rewrite IH.
Qed.

Lemma insertBy_app_r x l1 l2 :
  Forall (λ z, (key z < key x)%Z) l1 →
  insertBy cmp x (l1 ++ l2) = l1 ++ insertBy cmp x l2.
Proof.
  induction 1 as [|y l1 Hy _ IH]; [done|]. cbn [app insertBy].
  rewrite cmp_key. destruct (Z.ltb_spec (key y) (key x)); [|lia].
  by rewrite IH.
Qed.

Lemma insertBy_ascending x l :
  ascendingBy key l → ascendingBy key (insertBy cmp x l).
Proof.
  unfold ascendingBy. induction 1 as [|y l Hl IH Hy]; cbn [insertBy].
  - repeat constructor.
  - rewrite cmp_key. destruct (Z.ltb_spec (key y) (key x)) as [Hlt|Hle].
    + constructor; [done|].
      rewrite (Forall_forall _ _). intros z Hz.
      apply (proj1 (elem_of_Permutation_proper z _ _ (insertBy_perm cmp x l))) in Hz.
      apply elem_of_cons in Hz as [->|Hz]; [lia|].
      by apply (proj1 (Forall_forall _ _) Hy).
    + constructor; [by constructor|]. constructor; [done|].
      eapply Forall_impl; [exact Hy|]. intros z Hz. simpl in *. lia.
Qed.

Lemma sortBy_ascending l : ascendingBy key (sortBy cmp l).
Proof.
  induction l as [|x l IH]; [constructor|].
  rewrite sortBy_cons. by apply insertBy_ascending.
Qed.

Lemma ascending_head_le y l z :
  ascendingBy key (y :: l) → z ∈ y :: l → (key y ≤ key z)%Z.
Proof.
  intros H Hz. apply StronglySorted_inv in H as [_ H].
  apply elem_of_cons in Hz as [->|Hz]; [lia|].
  by apply (proj1 (Forall_forall _ _) H).
Qed.

Lemma insertBy_filter_in (p : A → bool) x l :
  ascendingBy key l → p x = true →
  List.filter p (insertBy cmp x l) = insertBy cmp x (List.filter p l).
Proof.
  intros Hl Hx. induction l as [|y l IH]; cbn [insertBy List.filter].
  - by rewrite Hx.
  - pose proof (StronglySorted_inv Hl) as [Hl' _].
    rewrite cmp_key. destruct (Z.ltb_spec (key y) (key x)) as [Hlt|Hle].
    + cbn [List.filter]. rewrite (IH Hl'). destruct (p y); [|done].
      cbn [insertBy]. rewrite cmp_key.
      by destruct (Z.ltb_spec (key y) (key x)); [|lia].
    + cbn [List.filter]. rewrite Hx.
      change (if p y then y :: List.filter p l else List.filter p l)
        with (List.filter p (y :: l)).
      symmetry. apply insertBy_head. rewrite Forall_forall. intros z Hz.
      apply list_elem_of_In, filter_In in Hz as [Hz _].
      apply list_elem_of_In in Hz.
      pose proof (ascending_head_le _ _ _ Hl Hz). lia.
Qed.

(** Filtering commutes with the sort: the sort is stable. *)
Lemma sortBy_filter (p : A → bool) l :
  List.filter p (sortBy cmp l) = sortBy cmp (List.filter p l).
Proof.
  induction l as [|x l IH]; [done|]. rewrite sortBy_cons. cbn [List.filter].
  destruct (p x) eqn:Hx.
  - rewrite insertBy_filter_in by (done || apply sortBy_ascending).
    by rewrite IH.
  - by rewrite insertBy_filter_out.
Qed.

(** A class [p] of elements whose keys all lie below the keys of the other
    elements comes out of the sort first. *)
Lemma sortBy_split (p : A → bool) l :
  (∀ x y, p x = true → p y = false → (key x < key y)%Z) →
  sortBy cmp l
  = sortBy cmp (List.filter p l) ++ sortBy cmp (List.filter (λ x, negb (p x)) l).
Proof.
  intros Hp. induction l as [|x l IH]; [done|].
  rewrite sortBy_cons, IH. cbn [List.filter].
  destruct (p x) eqn:Hx; cbn [negb]; rewrite sortBy_cons.
  - apply insertBy_app_l. rewrite Forall_forall. intros z Hz.
    apply elem_of_sortBy, list_elem_of_In, filter_In in Hz as [_ Hz].
    apply Bool.negb_true_iff in Hz. specialize (Hp x z Hx Hz). lia.
  - apply insertBy_app_r. rewrite Forall_forall. intros z Hz.
    apply elem_of_sortBy, list_elem_of_In, filter_In in Hz as [_ Hz].
    by apply Hp.
Qed.

(** Where a stable sort puts a block [mid] of elements of key [k] standing
    between [a] and [b]: after the elements of [a] of key at most [k] and the
    elements of [b] of key below [k], before all others. *)
Lemma sortBy_mid (k : Z) a mid b :
  Forall (λ z, key z = k) mid →
  sortBy cmp (a ++ mid ++ b)
  = sortBy cmp (List.filter (λ x, (key x <=? k)%Z) a
                ++ List.filter (λ x, (key x <? k)%Z) b)
    ++ mid
    ++ sortBy cmp (List.filter (λ x, negb (key x <=? k)%Z) a
                   ++ List.filter (λ x, negb (key x <? k)%Z) b).
Proof.
  intros Hmid. induction a as [|x a IH].
  - cbn [app List.filter]. induction Hmid as [|z mid Hz Hm IHm].
    + cbn [app]. apply sortBy_split. intros x y Hx Hy.
      apply Z.ltb_lt in Hx. apply Z.ltb_ge in Hy. lia.
    + cbn [app]. rewrite sortBy_cons, IHm.
      rewrite insertBy_app_r.
      * f_equal. apply insertBy_head. rewrite Forall_app. split.
        -- eapply Forall_impl; [exact Hm|]. intros w Hw. simpl in *. lia.
        -- rewrite Forall_forall. intros w Hw.
           apply elem_of_sortBy, list_elem_of_In, filter_In in Hw as [_ Hw].
           apply Bool.negb_true_iff, Z.ltb_ge in Hw. lia.
      * rewrite Forall_forall. intros w Hw.
        apply elem_of_sortBy, list_elem_of_In, filter_In in Hw as [_ Hw].
        apply Z.ltb_lt in Hw. lia.
  - cbn [app List.filter]. rewrite sortBy_cons, IH.
    destruct (Z.leb_spec (key x) k) as [Hle|Hgt]; cbn [negb app]; rewrite ?sortBy_cons.
    + apply insertBy_app_l. rewrite Forall_app. split.
      * eapply Forall_impl; [exact Hmid|]. intros w Hw. simpl in *. lia.
      * rewrite Forall_forall. intros w Hw.
        apply elem_of_sortBy, elem_of_app in Hw as [Hw|Hw];
          apply list_elem_of_In, filter_In in Hw as [_ Hw];
          apply Bool.negb_true_iff in Hw;
          [apply Z.leb_gt in Hw|apply Z.ltb_ge in Hw]; lia.
    + rewrite !app_assoc. rewrite insertBy_app_r; [done|].
      rewrite Forall_app. split.
      * rewrite Forall_forall. intros w Hw.
        apply elem_of_sortBy, elem_of_app in Hw as [Hw|Hw];
          apply list_elem_of_In, filter_In in Hw as [_ Hw];
          [apply Z.leb_le in Hw|apply Z.ltb_lt in Hw]; lia.
      * eapply Forall_impl; [exact Hmid|]. intros w Hw. simpl in *. lia.
Qed.

End ByKey.
End Sorting.

Lemma byFilledAt_key x y :
  ngtb (byFilledAt x y) zero = (filled_at y <? filled_at x)%Z.
Proof. apply dateDiff_gt. Qed.

Lemma bySellDate_key x y :
  ngtb (bySellDate x y) zero = (sellDate y <? sellDate x)%Z.
Proof. apply dateDiff_gt. Qed.

(** ** Grouping by symbol *)

Lemma pushOrder_same sym os o rest :
  symbol o = sym → pushOrder ((sym, os) :: rest) o = (sym, os ++ [o]) :: rest.
Proof. intros <-. cbn [pushOrder]. by rewrite String.eqb_refl. Qed.

Lemma fold_pushOrder_same sym acc l :
  Forall (λ o, symbol o = sym) l →
  fold_left pushOrder l [(sym, acc)] = [(sym, acc ++ l)].
Proof.
  intros H. revert acc. induction H as [|x l' Hx _ IH]; intros acc.
  - by rewrite app_nil_r.
  - cbn [fold_left]. rewrite pushOrder_same by done. rewrite IH.
    by rewrite <- app_assoc.
Qed.

Lemma ordersBySymbol_one_symbol sym o l :
  Forall (λ o, isFilled o = true ∧ symbol o = sym) (o :: l) →
  ordersBySymbol (o :: l) = [(sym, o :: l)].
Proof.
  intros H. unfold ordersBySymbol.
  assert (Hf : List.filter isFilled (o :: l) = o :: l).
  { clear -H. induction H as [|x l' [Hx _] _ IH]; [done|]. simpl. by rewrite Hx, IH. }
  rewrite Hf. inversion H as [|? ? [_ Ho] Hl]; subst. cbn [fold_left pushOrder].
  rewrite fold_pushOrder_same; [done|]. eapply Forall_impl; [exact Hl|]. by intros ? [_ ?].
Qed.

Lemma existsb_eqb (s : string) (keys : list string) :
  existsb (String.eqb s) keys = true ↔ s ∈ keys.
Proof.
  rewrite existsb_exists. split.
  - intros (k & Hk & He). apply String.eqb_eq in He as ->. by apply list_elem_of_In.
  - intros H. exists s. split; [by apply list_elem_of_In|apply String.eqb_refl].
Qed.

Lemma addKey_in keys s : s ∈ keys → addKey keys s = keys.
Proof. intros H. unfold addKey. apply existsb_eqb in H. by rewrite H. Qed.

Lemma addKey_notin keys s : s ∉ keys → addKey keys s = keys ++ [s].
Proof.
  intros H. unfold addKey. destruct (existsb _ _) eqn:E; [|done].
  by apply existsb_eqb in E.
Qed.

Lemma elem_of_addKey keys s k : k ∈ addKey keys s ↔ k ∈ keys ∨ k = s.
Proof.
  destruct (decide (s ∈ keys)) as [H|H].
  - rewrite addKey_in by done. split; [by left|]. by intros [?| ->].
  - rewrite addKey_notin by done. rewrite elem_of_app, list_elem_of_singleton. done.
Qed.

Lemma NoDup_addKey keys s : NoDup keys → NoDup (addKey keys s).
Proof.
  intros Hk. destruct (decide (s ∈ keys)) as [H|H].
  - by rewrite addKey_in.
  - rewrite addKey_notin by done. apply NoDup_app. split; [done|].
    split; [|apply NoDup_singleton].
    intros x Hx Hs. apply list_elem_of_singleton in Hs as ->. done.
Qed.

Lemma elem_of_fold_addKey l keys k :
  k ∈ fold_left addKey l keys ↔ k ∈ keys ∨ k ∈ l.
Proof.
  revert keys. induction l as [|s l IH]; intros keys; cbn [fold_left].
  - rewrite elem_of_nil. tauto.
  - rewrite IH, elem_of_addKey, elem_of_cons. tauto.
Qed.

Lemma NoDup_fold_addKey l keys : NoDup keys → NoDup (fold_left addKey l keys).
Proof.
  revert keys. induction l as [|s l IH]; intros keys Hk; [done|].
  cbn [fold_left]. by apply IH, NoDup_addKey.
Qed.

Lemma NoDup_symbolsOf orders : NoDup (symbolsOf orders).
Proof. apply NoDup_fold_addKey. constructor. Qed.

Lemma elem_of_symbolsOf orders s :
  s ∈ symbolsOf orders ↔ ∃ o, o ∈ orders ∧ isFilled o = true ∧ symbol o = s.
Proof.
  unfold symbolsOf. rewrite elem_of_fold_addKey, elem_of_nil, list_elem_of_fmap.
  split.
  - intros [[]|(o & -> & Ho)]. exists o.
    apply list_elem_of_In, filter_In in Ho as [Ho Hf].
    by rewrite list_elem_of_In.
  - intros (o & Ho & Hf & <-). right. exists o. split; [done|].
    apply list_elem_of_In, filter_In. by rewrite <- list_elem_of_In.
Qed.

Lemma filter_ofSymbol_none sym (l : list order) :
  sym ∉ map symbol l → List.filter (ofSymbol sym) l = [].
Proof.
  induction l as [|o l IH]; [done|]. cbn [map List.filter]. intros H.
  apply not_elem_of_cons in H as [Hne H]. unfold ofSymbol at 1.
  destruct (String.eqb_spec sym (symbol o)); [done|]. by apply IH.
Qed.

(** What [push] does to a dictionary that maps every key to the orders of
    that symbol seen so far. *)
Lemma pushOrder_closed (F : list order) (x : order) (keys : list string) :
  NoDup keys →
  (∀ s, s ∈ keys ↔ s ∈ map symbol F) →
  pushOrder (map (λ s, (s, List.filter (ofSymbol s) F)) keys) x
  = map (λ s, (s, List.filter (ofSymbol s) (F ++ [x]))) (addKey keys (symbol x)).
Proof.
  intros Hnd Hkeys.
  assert (Hother : ∀ s, s ≠ symbol x →
            List.filter (ofSymbol s) (F ++ [x]) = List.filter (ofSymbol s) F).
  { intros s Hs. rewrite List.filter_app. cbn [List.filter]. unfold ofSymbol at 2.
    destruct (String.eqb_spec s (symbol x)); [done|]. by rewrite app_nil_r. }
  assert (Hsame : List.filter (ofSymbol (symbol x)) (F ++ [x])
                  = List.filter (ofSymbol (symbol x)) F ++ [x]).
  { rewrite List.filter_app. cbn [List.filter]. unfold ofSymbol at 2.
    by rewrite String.eqb_refl. }
  destruct (decide (symbol x ∈ keys)) as [Hin|Hout].
  - rewrite addKey_in by done. clear Hkeys.
    induction keys as [|k keys IH]; [by apply elem_of_nil in Hin|].
    apply NoDup_cons in Hnd as [Hk Hnd]. cbn [map pushOrder].
    destruct (String.eqb_spec k (symbol x)) as [->|Hne].
    + rewrite Hsame. f_equal. apply map_ext_in. intros s Hs.
      rewrite Hother; [done|]. intros ->. by apply list_elem_of_In in Hs.
    + rewrite (Hother k Hne). f_equal. apply IH; [done|].
      apply elem_of_cons in Hin as [Heq|Hin]; [congruence|done].
  - rewrite addKey_notin by done. rewrite map_app. cbn [map].
    rewrite Hsame, filter_ofSymbol_none by (by rewrite <- Hkeys). cbn [app].
    assert (Hmap : map (λ s, (s, List.filter (ofSymbol s) (F ++ [x]))) keys
                   = map (λ s, (s, List.filter (ofSymbol s) F)) keys).
    { apply map_ext_in. intros s Hs. f_equal. apply Hother. intros ->.
      by apply list_elem_of_In in Hs. }
    rewrite Hmap. clear Hmap Hkeys Hnd.
    induction keys as [|k keys IH]; [done|]. cbn [map pushOrder app].
    apply not_elem_of_cons in Hout as [Hne Hout].
    destruct (String.eqb_spec k (symbol x)); [congruence|].
    by rewrite IH.
Qed.

Lemma fold_pushOrder_closed (F : list order) :
  fold_left pushOrder F []
  = map (λ s, (s, List.filter (ofSymbol s) F)) (fold_left addKey (map symbol F) []).
Proof.
  induction F as [|x F IH] using rev_ind; [done|].
  rewrite fold_left_app, map_app, fold_left_app. cbn [fold_left map]. rewrite IH.
  apply pushOrder_closed.
  - apply NoDup_fold_addKey. constructor.
  - intros s. rewrite elem_of_fold_addKey, elem_of_nil. tauto.
Qed.

(** [ordersBySymbol] lists the symbols in first-seen order, each with its
    filled orders in input order. *)
Lemma ordersBySymbol_closed orders :
  ordersBySymbol orders
  = map (λ s, (s, symbolOrders s orders)) (symbolsOf orders).
Proof. apply fold_pushOrder_closed. Qed.

(** ** One symbol's pass *)

(** The pass only appends to [allRoundTrips]; nothing else depends on what
    that array already holds. *)
Lemma matchOnce_withTrips all sym price date sellQty buy rest st :
  matchOnce sym price date sellQty buy rest (withTrips all st)
  = (fst (matchOnce sym price date sellQty buy rest st),
     withTrips all (snd (matchOnce sym price date sellQty buy rest st))).
Proof.
  unfold matchOnce, withTrips. cbn [fst snd allRoundTrips buyQueue realizedPL winCount lossCount].
  by rewrite app_assoc.
Qed.

Lemma matchLoop_withTrips all fuel sym price date sellQty st :
  matchLoop fuel sym price date sellQty (withTrips all st)
  = (fst (matchLoop fuel sym price date sellQty st),
     withTrips all (snd (matchLoop fuel sym price date sellQty st))).
Proof.
  revert sellQty st. induction fuel as [|fuel IH]; intros sellQty st; [done|].
  cbn [matchLoop]. destruct (ngtb sellQty zero); [|done].
  change (buyQueue (withTrips all st)) with (buyQueue st).
  destruct (buyQueue st) as [|buy rest]; [done|].
  rewrite matchOnce_withTrips.
  destruct (matchOnce sym price date sellQty buy rest st) as [s' st'].
  apply IH.
Qed.

Lemma processOrder_withTrips all sym st o :
  processOrder sym (withTrips all st) o = withTrips all (processOrder sym st o).
Proof.
  unfold processOrder. change (buyQueue (withTrips all st)) with (buyQueue st).
  destruct (String.eqb (side o) "buy"); [done|].
  destruct (String.eqb (side o) "sell" && negb (Nat.eqb (length (buyQueue st)) 0)); [|done].
  by rewrite matchLoop_withTrips.
Qed.

Lemma fold_processOrder_withTrips all sym os st :
  fold_left (processOrder sym) os (withTrips all st)
  = withTrips all (fold_left (processOrder sym) os st).
Proof.
  revert st. induction os as [|o os IH]; intros st; [done|].
  cbn [fold_left]. by rewrite processOrder_withTrips, IH.
Qed.

Lemma processSymbol_withTrips all sym os :
  processSymbol all sym os = withTrips all (processSymbol [] sym os).
Proof.
  unfold processSymbol. rewrite <- fold_processOrder_withTrips.
  unfold startPass, withTrips; cbn. by rewrite app_nil_r.
Qed.

Lemma processSymbol_trips all sym os :
  allRoundTrips (processSymbol all sym os) = all ++ symTrips sym os.
Proof. by rewrite processSymbol_withTrips. Qed.

Lemma processSymbol_stat all sym os :
  Positions.statOf (processSymbol all sym os) = symStat sym os.
Proof. by rewrite processSymbol_withTrips. Qed.

(** Every round trip of a pass is a [tripOf] for the pass's symbol. *)
Section TripShape.
Variables (sym : string) (P : roundTrip → Prop).
Hypothesis P_tripOf : ∀ price date matchQty buy, P (tripOf sym price date matchQty buy).

Lemma matchLoop_Forall fuel price date sellQty st :
  Forall P (allRoundTrips st) →
  Forall P (allRoundTrips (snd (matchLoop fuel sym price date sellQty st))).
Proof.
  revert sellQty st. induction fuel as [|fuel IH]; intros sellQty st H; [done|].
  cbn [matchLoop]. destruct (ngtb sellQty zero); [|done].
  destruct (buyQueue st) as [|buy rest]; [done|].
  unfold matchOnce. apply IH. cbn [allRoundTrips].
  apply Forall_app. split; [done|]. constructor; [apply P_tripOf|constructor].
Qed.

Lemma processOrder_Forall st o :
  Forall P (allRoundTrips st) → Forall P (allRoundTrips (processOrder sym st o)).
Proof.
  intros H. unfold processOrder.
  destruct (String.eqb (side o) "buy"); [done|].
  destruct (String.eqb (side o) "sell" && negb (Nat.eqb (length (buyQueue st)) 0)); [|done].
  by apply matchLoop_Forall.
Qed.

Lemma symTrips_Forall os : Forall P (symTrips sym os).
Proof.
  unfold symTrips, processSymbol.
  assert (H : Forall P (allRoundTrips (startPass []))) by constructor.
  revert H. generalize (startPass []). generalize (sortBy byFilledAt os).
  intros l. induction l as [|o l IH]; intros st H; [done|].
  cbn [fold_left]. by apply IH, processOrder_Forall.
Qed.
End TripShape.

Lemma symTrips_symbol sym os : Forall (λ rt, rt_symbol rt = sym) (symTrips sym os).
Proof. by apply symTrips_Forall. Qed.

(** ** The two matchers in closed form *)

Lemma Analytics_collect_closed groups all :
  fold_left (λ all '(sym, symbolOrders),
               allRoundTrips (processSymbol all sym symbolOrders)) groups all
  = all ++ concat (map (λ '(sym, symbolOrders), symTrips sym symbolOrders) groups).
Proof.
  revert all. induction groups as [|[s os] groups IH]; intros all; cbn [fold_left map concat].
  - by rewrite app_nil_r.
  - by rewrite IH, processSymbol_trips, app_assoc.
Qed.

Lemma Positions_collect_closed groups all (stats : gmap string Positions.symbolStat) :
  fold_left (λ '(all, stats) '(sym, symbolOrders),
               let st := processSymbol all sym symbolOrders in
               (allRoundTrips st, <[sym := Positions.statOf st]> stats))
            groups (all, stats)
  = (all ++ concat (map (λ '(sym, symbolOrders), symTrips sym symbolOrders) groups),
     fold_left (λ stats '(sym, symbolOrders),
                  <[sym := symStat sym symbolOrders]> stats) groups stats).
Proof.
  revert all stats.
  induction groups as [|[s os] groups IH]; intros all stats; cbn [fold_left map concat].
  - by rewrite app_nil_r.
  - cbv zeta. by rewrite IH, processSymbol_trips, processSymbol_stat, app_assoc.
Qed.

(** The round trips of all symbols, symbol after symbol in first-seen
    order: what both pages compute before [Analytics.jsx] sorts it. *)
Lemma Positions_roundTrips_closed orders :
  Positions.roundTrips (Some orders)
  = concat (map (λ s, symTrips s (symbolOrders s orders)) (symbolsOf orders)).
Proof.
  unfold Positions.roundTrips, Positions.tradeHistory, Positions.collect.
  rewrite Positions_collect_closed, ordersBySymbol_closed. cbn [fst app].
  by rewrite map_map.
Qed.

Lemma Analytics_roundTrips_closed orders :
  Analytics.roundTrips (Some orders) = sortBy bySellDate (Positions.roundTrips (Some orders)).
Proof.
  rewrite Positions_roundTrips_closed.
  unfold Analytics.roundTrips, Analytics.collect.
  rewrite Analytics_collect_closed, ordersBySymbol_closed. cbn [app].
  by rewrite map_map.
Qed.

Lemma tripsOf_symTrips_same sym os : tripsOf sym (symTrips sym os) = symTrips sym os.
Proof.
  unfold tripsOf. pose proof (symTrips_symbol sym os) as H.
  induction H as [|rt l Hrt _ IH]; [done|]. cbn [List.filter].
  by rewrite Hrt, String.eqb_refl, IH.
Qed.

Lemma tripsOf_symTrips_other sym s os : sym ≠ s → tripsOf sym (symTrips s os) = [].
Proof.
  intros Hne. unfold tripsOf. pose proof (symTrips_symbol s os) as H.
  induction H as [|rt l Hrt _ IH]; [done|]. cbn [List.filter].
  rewrite Hrt. by destruct (String.eqb_spec sym s).
Qed.

Lemma symTrips_nil sym : symTrips sym [] = [].
Proof. reflexivity. Qed.

Lemma symbolOrders_none sym orders :
  sym ∉ symbolsOf orders → symbolOrders sym orders = [].
Proof.
  intros H. apply filter_ofSymbol_none. intros Hin. apply H.
  unfold symbolsOf. apply elem_of_fold_addKey. by right.
Qed.

Lemma tripsOf_concat sym (f : string → list order) keys :
  NoDup keys →
  tripsOf sym (concat (map (λ s, symTrips s (f s)) keys))
  = if decide (sym ∈ keys) then symTrips sym (f sym) else [].
Proof.
  unfold tripsOf at 1. induction 1 as [|k keys Hk Hnd IH]; [done|].
  cbn [map concat]. rewrite List.filter_app.
  fold (tripsOf sym (symTrips k (f k))).
  rewrite IH. destruct (decide (sym = k)) as [->|Hne].
  - rewrite tripsOf_symTrips_same.
    rewrite (decide_True (P := k ∈ k :: keys)) by apply list_elem_of_here.
    rewrite (decide_False (P := k ∈ keys)) by done. apply app_nil_r.
  - rewrite tripsOf_symTrips_other by done. cbn [app].
    destruct (decide (sym ∈ keys)) as [Hin|Hout].
    + rewrite decide_True; [done|]. by apply list_elem_of_further.
    + rewrite decide_False; [done|]. rewrite elem_of_cons. tauto.
Qed.

(** The round trips of one symbol in the output of either matcher are the
    round trips of that symbol's pass. *)
Lemma tripsOf_Positions sym orders :
  tripsOf sym (Positions.roundTrips (Some orders))
  = symTrips sym (symbolOrders sym orders).
Proof.
  rewrite Positions_roundTrips_closed, tripsOf_concat by apply NoDup_symbolsOf.
  destruct (decide (sym ∈ symbolsOf orders)) as [Hin|Hout]; [done|].
  by rewrite symbolOrders_none.
Qed.

Lemma tripsOf_Analytics sym orders :
  tripsOf sym (Analytics.roundTrips (Some orders))
  = sortBy bySellDate (symTrips sym (symbolOrders sym orders)).
Proof.
  rewrite Analytics_roundTrips_closed. unfold tripsOf at 1.
  rewrite (sortBy_filter sellDate bySellDate bySellDate_key).
  fold (tripsOf sym (Positions.roundTrips (Some orders))).
  by rewrite tripsOf_Positions.
Qed.

Lemma Forall_concat_map {A B : Type} (P : B → Prop) (f : A → list B) (l : list A) :
  (∀ x, Forall P (f x)) → Forall P (concat (map f l)).
Proof.
  intros H. induction l as [|x l IH]; [constructor|].
  cbn [map concat]. apply Forall_app. by split.
Qed.

Lemma roundTrips_Forall (P : roundTrip → Prop) (orders : option (list order)) :
  (∀ sym price date matchQty buy, P (tripOf sym price date matchQty buy)) →
  Forall P (Positions.roundTrips orders) ∧ Forall P (Analytics.roundTrips orders).
Proof.
  intros HP. destruct orders as [orders|]; [|by split].
  assert (H : Forall P (Positions.roundTrips (Some orders))).
  { rewrite Positions_roundTrips_closed. apply Forall_concat_map.
    intros s. by apply symTrips_Forall. }
  split; [done|]. rewrite Analytics_roundTrips_closed.
  rewrite Forall_forall. intros rt Hrt. apply elem_of_sortBy in Hrt.
  by apply (proj1 (Forall_forall _ _) H).
Qed.

(** ** Inserting an order into the input *)

Lemma symbolOrders_app sym l1 l2 :
  symbolOrders sym (l1 ++ l2) = symbolOrders sym l1 ++ symbolOrders sym l2.
Proof. unfold symbolOrders. by rewrite !List.filter_app. Qed.

Lemma symbolOrders_cons_other sym o l :
  sym ≠ symbol o → symbolOrders sym (o :: l) = symbolOrders sym l.
Proof.
  intros Hne. unfold symbolOrders. cbn [List.filter].
  destruct (isFilled o); [|done]. cbn [List.filter]. unfold ofSymbol at 1.
  by destruct (String.eqb_spec sym (symbol o)).
Qed.

Lemma symbolOrders_cons_same o l :
  isFilled o = true → symbolOrders (symbol o) (o :: l) = o :: symbolOrders (symbol o) l.
Proof.
  intros Hf. unfold symbolOrders. cbn [List.filter]. rewrite Hf.
  cbn [List.filter]. unfold ofSymbol at 1. by rewrite String.eqb_refl.
Qed.

(** An order changes nothing for the other symbols. *)
Lemma other_symbols_unaffected (l1 l2 : list order) (o : order) (s : string) :
  s ≠ symbol o →
  tripsOf s (Analytics.roundTrips (Some (l1 ++ o :: l2)))
  = tripsOf s (Analytics.roundTrips (Some (l1 ++ l2)))
  ∧ tripsOf s (Positions.roundTrips (Some (l1 ++ o :: l2)))
    = tripsOf s (Positions.roundTrips (Some (l1 ++ l2))).
Proof.
  intros Hne. rewrite !tripsOf_Analytics, !tripsOf_Positions.
  by rewrite !symbolOrders_app, symbolOrders_cons_other.
Qed.

(** ** Sums of finite numbers *)

Lemma qsum_cons {A : Type} (f : A → num) (x : A) (l : list A) :
  qsum f (x :: l) = (val (f x) + qsum f l)%Q.
Proof. reflexivity. Qed.

Lemma qsum_nil {A : Type} (f : A → num) : qsum f [] = 0%Q.
Proof. reflexivity. Qed.

Lemma qsum_app {A : Type} (f : A → num) (l1 l2 : list A) :
  (qsum f (l1 ++ l2) == qsum f l1 + qsum f l2)%Q.
Proof.
  induction l1 as [|x l1 IH]; cbn [app]; rewrite ?qsum_cons, ?qsum_nil; [ring|].
  rewrite IH. ring.
Qed.

Lemma qsum_perm {A : Type} (f : A → num) (l1 l2 : list A) :
  l1 ≡ₚ l2 → (qsum f l1 == qsum f l2)%Q.
Proof.
  induction 1 as [|x l1 l2 _ IH|x y l|l1 l2 l3 _ IH1 _ IH2]; rewrite ?qsum_cons.
  - reflexivity.
  - by rewrite IH.
  - ring.
  - by rewrite IH1.
Qed.

Lemma qsum_nonneg {A : Type} (f : A → num) (l : list A) :
  Forall (λ x, nonNegative (f x)) l → (0 <= qsum f l)%Q.
Proof.
  induction 1 as [|x l (q & Hq & Hpos) _ IH]; [apply Qle_refl|].
  rewrite qsum_cons, Hq. cbn [val]. lra.
Qed.

(** On finite numbers [reduce] computes the exact sum. *)
Lemma sumBy_finite {A : Type} (f : A → num) (l : list A) :
  Forall (λ x, isFinite (f x)) l →
  ∃ q, sumBy f l = Finite q ∧ (q == qsum f l)%Q.
Proof.
  intros H.
  assert (Hgen : ∀ a, ∃ q, fold_left (λ sum x, nadd sum (f x)) l (Finite a) = Finite q
                           ∧ (q == a + qsum f l)%Q).
  { induction H as [|x l (y & Hy) _ IH]; intros a; cbn [fold_left].
    - exists a. split; [done|]. rewrite qsum_nil. ring.
    - rewrite Hy. cbn [nadd].
      destruct (IH (Qred (a + y))) as (q & Hq & Hsum).
      exists q. split; [done|].
      rewrite Hsum, qsum_cons, Hy, Qred_correct. cbn [val]. ring. }
  destruct (Hgen 0%Q) as (q & Hq & Hsum).
  exists q. split; [done|]. rewrite Hsum. ring.
Qed.

Lemma last_runningTotal (c : num) (days : list Analytics.dayEntry) :
  days ≠ [] →
  Analytics.cumulative <$> last (Analytics.runningTotal c days)
  = Some (fold_left (λ sum day, nadd sum (Analytics.d_pl day)) days c).
Proof.
  revert c. induction days as [|day days IH]; intros c Hne; [done|].
  destruct days as [|day' days]; [done|].
  cbn [Analytics.runningTotal fold_left] in *.
  rewrite last_cons_cons. by apply IH.
Qed.

Lemma qsum_ext {A : Type} (f g : A → num) (l : list A) :
  (∀ x, x ∈ l → (val (f x) == val (g x))%Q) → (qsum f l == qsum g l)%Q.
Proof.
  induction l as [|x l IH]; intros H; [reflexivity|].
  rewrite !qsum_cons, IH, (H x).
  - reflexivity.
  - apply list_elem_of_here.
  - intros y Hy. by apply H, list_elem_of_further.
Qed.

Lemma qsum_zero {A : Type} (f : A → num) (l : list A) :
  (∀ x, x ∈ l → (val (f x) == 0)%Q) → (qsum f l == 0)%Q.
Proof.
  induction l as [|x l IH]; intros H; [reflexivity|].
  rewrite qsum_cons, IH, (H x).
  - ring.
  - apply list_elem_of_here.
  - intros y Hy. by apply H, list_elem_of_further.
Qed.

Lemma qsum_plus {A : Type} (f g : A → num) (l : list A) :
  (qsum (λ x, Finite (val (f x) + val (g x))) l == qsum f l + qsum g l)%Q.
Proof.
  induction l as [|x l IH]; rewrite ?qsum_nil, ?qsum_cons; [ring|].
  rewrite IH. cbn [val]. ring.
Qed.

(** Summing an amount over the one day it belongs to. *)
Lemma qsum_one_day (v : Q) (k : Z) (days : list Z) :
  NoDup days → k ∈ days →
  (qsum (λ day, Finite (if Z.eqb k day then v else 0)) days == v)%Q.
Proof.
  induction 1 as [|d days Hd Hnd IH]; intros Hk; [by apply elem_of_nil in Hk|].
  rewrite qsum_cons. cbn [val].
  apply elem_of_cons in Hk as [->|Hk].
  - rewrite Z.eqb_refl, qsum_zero; [ring|].
    intros x Hx. cbn [val]. destruct (Z.eqb_spec d x) as [->|_]; [done|reflexivity].
  - destruct (Z.eqb_spec k d) as [->|_]; [done|]. rewrite IH by done. ring.
Qed.

(** ** The daily map *)

Lemma canonical_nadd (a b : num) : isFinite a → isFinite b → canonical (nadd a b).
Proof. intros (x & ->) (y & ->). by exists (x + y)%Q. Qed.

Lemma canonical_finite (a : num) : canonical a → isFinite a.
Proof. intros (q & ->). by eexists. Qed.

(** [|| 0] leaves a number in lowest terms as it is: only 0 is replaced,
    by 0. *)
Lemma orZero_canonical (a : num) : canonical a → orZero a = a.
Proof.
  intros (q & ->). unfold orZero, truthy.
  destruct (Qeq_bool (Qred q) 0) eqn:E; [|done]. cbn [negb].
  apply Qeq_bool_iff in E. unfold zero. f_equal. symmetry.
  rewrite <- (Qred_idem q). by apply Qred_zero.
Qed.

Lemma canonical_eq (a b : num) :
  canonical a → canonical b → (val a == val b)%Q → a = b.
Proof.
  intros (x & ->) (y & ->) H. cbn [val] in H. f_equal.
  rewrite <- (Qred_idem x), <- (Qred_idem y). by apply Qred_complete.
Qed.

Lemma sumBy_snoc {A : Type} (f : A → num) (l : list A) (x : A) :
  sumBy f (l ++ [x]) = nadd (sumBy f l) (f x).
Proof. unfold sumBy. by rewrite fold_left_app. Qed.

Lemma sumBy_canonical {A : Type} (f : A → num) (l : list A) :
  Forall (λ x, isFinite (f x)) l → l ≠ [] → canonical (sumBy f l).
Proof.
  intros H Hne. destruct l as [|x l _] using rev_ind; [done|].
  apply Forall_app in H as [Hl Hx]. apply Forall_cons_1 in Hx as [Hx _].
  rewrite sumBy_snoc. apply canonical_nadd; [|done].
  destruct (sumBy_finite f l Hl) as (q & Hq & _). by exists q.
Qed.

Lemma dateDiff_key (x y : Z) : ngtb (dateDiff x y) zero = (id y <? id x)%Z.
Proof. apply dateDiff_gt. Qed.

Lemma ascending_last_ge {A : Type} (key : A → Z) (l : list A) (z x : A) :
  ascendingBy key l → last l = Some z → x ∈ l → (key x ≤ key z)%Z.
Proof.
  intros Hl Hz Hx. apply last_Some in Hz as (l' & ->).
  apply elem_of_app in Hx as [Hx|Hx].
  - unfold ascendingBy in Hl. induction l' as [|y l' IH]; [by apply elem_of_nil in Hx|].
    cbn [app] in Hl. apply StronglySorted_inv in Hl as [Hl Hy].
    apply elem_of_cons in Hx as [->|Hx]; [|by apply IH].
    apply Forall_app in Hy as [_ Hy]. by apply Forall_cons_1 in Hy as [? _].
  - apply list_elem_of_singleton in Hx as ->. lia.
Qed.

(** ** The daily series, for any time zone *)

Section Daily.
Variable offset : Z → Z.

Lemma soldOn_snoc day l rt :
  soldOn offset day (l ++ [rt])
  = if Z.eqb (sellDay offset rt) day then soldOn offset day l ++ [rt]
    else soldOn offset day l.
Proof.
  unfold soldOn. rewrite List.filter_app. cbn [List.filter].
  destruct (Z.eqb (sellDay offset rt) day); [done|apply app_nil_r].
Qed.

Lemma soldOn_Forall (P : roundTrip → Prop) day l :
  Forall P l → Forall P (soldOn offset day l).
Proof.
  rewrite !Forall_forall. intros H rt Hrt. apply H.
  by apply list_elem_of_In, filter_In in Hrt as [Hrt%list_elem_of_In _].
Qed.

Lemma getOrZero_dailyMapOf l dailyMap day :
  Forall (λ rt, isFinite (pl rt)) l →
  dailyMapOf offset l dailyMap →
  Analytics.getOrZero dailyMap day = sumBy pl (soldOn offset day l).
Proof.
  intros Hfin Hm. unfold Analytics.getOrZero. rewrite (Hm day).
  destruct (decide (soldOn offset day l = [])) as [E|E].
  - by rewrite E.
  - apply orZero_canonical, sumBy_canonical; [|done]. by apply soldOn_Forall.
Qed.

Lemma addTrip_dailyMapOf l dailyMap rt :
  Forall (λ rt, isFinite (pl rt)) l →
  dailyMapOf offset l dailyMap →
  dailyMapOf offset (l ++ [rt]) (Analytics.addTrip offset dailyMap rt).
Proof.
  intros Hfin Hm day. unfold Analytics.addTrip. fold (sellDay offset rt).
  rewrite (getOrZero_dailyMapOf l) by done. rewrite soldOn_snoc.
  destruct (Z.eqb_spec (sellDay offset rt) day) as [->|Hne].
  - rewrite lookup_insert_eq, decide_False by (by destruct (soldOn offset day l)).
    by rewrite sumBy_snoc.
  - rewrite lookup_insert_ne by done. apply Hm.
Qed.

Lemma fold_addTrip_dailyMapOf l1 l2 dailyMap :
  Forall (λ rt, isFinite (pl rt)) (l1 ++ l2) →
  dailyMapOf offset l1 dailyMap →
  dailyMapOf offset (l1 ++ l2) (fold_left (Analytics.addTrip offset) l2 dailyMap).
Proof.
  revert l1 dailyMap. induction l2 as [|rt l2 IH]; intros l1 dailyMap Hfin Hm.
  - by rewrite app_nil_r.
  - cbn [fold_left].
    assert (E : l1 ++ rt :: l2 = (l1 ++ [rt]) ++ l2) by (by rewrite <- app_assoc).
    rewrite E in Hfin |- *.
    apply IH; [done|]. apply addTrip_dailyMapOf; [|done].
    apply Forall_app in Hfin as [Hfin _]. by apply Forall_app in Hfin as [Hfin _].
Qed.

Lemma dailyMapOf_all l :
  Forall (λ rt, isFinite (pl rt)) l →
  dailyMapOf offset l (fold_left (Analytics.addTrip offset) l ∅).
Proof.
  intros Hfin. apply (fold_addTrip_dailyMapOf [] l ∅ Hfin).
  intros day. by rewrite lookup_empty.
Qed.

Lemma soldOn_nil_iff day l :
  soldOn offset day l = [] ↔ day ∉ map (sellDay offset) l.
Proof.
  unfold soldOn. induction l as [|rt l IH]; cbn [List.filter map].
  - split; [intros _; apply not_elem_of_nil|done].
  - rewrite not_elem_of_cons.
    destruct (Z.eqb_spec (sellDay offset rt) day) as [->|Hne].
    + split; [done|]. by intros [? _].
    + rewrite IH. split; [by split|by intros [_ ?]].
Qed.

(** The keys of the map are the days on which something was sold, whatever
    the amounts are. *)
Lemma fold_addTrip_None l (dailyMap : gmap Z num) day :
  fold_left (Analytics.addTrip offset) l dailyMap !! day = None
  ↔ dailyMap !! day = None ∧ day ∉ map (sellDay offset) l.
Proof.
  revert dailyMap. induction l as [|rt l IH]; intros dailyMap; cbn [fold_left map].
  - split; [intros H; split; [done|apply not_elem_of_nil]|by intros [? _]].
  - rewrite IH. unfold Analytics.addTrip. fold (sellDay offset rt).
    rewrite lookup_insert_None, not_elem_of_cons. split.
    + intros [[? ?] ?]. by repeat split.
    + intros [? [? ?]]. by repeat split.
Qed.

Lemma elem_of_keys (dailyMap : gmap Z num) day :
  day ∈ map fst (map_to_list dailyMap) ↔ is_Some (dailyMap !! day).
Proof.
  rewrite list_elem_of_fmap. split.
  - intros ([k v] & -> & Hkv). apply elem_of_map_to_list in Hkv. by exists v.
  - intros [v Hv]. exists (day, v). split; [done|]. by apply elem_of_map_to_list.
Qed.

Lemma dailyMap_keys l day :
  day ∈ map fst (map_to_list (fold_left (Analytics.addTrip offset) l ∅))
  ↔ day ∈ map (sellDay offset) l.
Proof.
  rewrite elem_of_keys, <- not_eq_None_Some, fold_addTrip_None, lookup_empty.
  destruct (decide (day ∈ map (sellDay offset) l)); tauto.
Qed.

Lemma earliestSellDay_le rt rts x :
  x ∈ rt :: rts → (earliestSellDay offset rt rts ≤ sellDay offset x)%Z.
Proof.
  unfold earliestSellDay. induction rts as [|y rts IH]; cbn [foldr]; intros Hx.
  - apply list_elem_of_singleton in Hx as ->. lia.
  - apply elem_of_cons in Hx as [->|Hx].
    + specialize (IH (list_elem_of_here _ _)). lia.
    + apply elem_of_cons in Hx as [->|Hx]; [lia|].
      specialize (IH (list_elem_of_further _ _ _ Hx)). lia.
Qed.

Lemma earliestSellDay_elem rt rts :
  earliestSellDay offset rt rts ∈ map (sellDay offset) (rt :: rts).
Proof.
  unfold earliestSellDay. induction rts as [|y rts IH]; cbn [foldr map].
  - apply list_elem_of_here.
  - set (m := foldr (λ x m, Z.min (sellDay offset x) m) (sellDay offset rt) rts) in *.
    destruct (Z.min_spec (sellDay offset y) m) as [[_ ->]|[_ ->]].
    + apply list_elem_of_further, list_elem_of_here.
    + cbn [map] in IH. apply elem_of_cons in IH as [->|IH].
      * apply list_elem_of_here.
      * by do 2 apply list_elem_of_further.
Qed.

Lemma latestSellDay_ge rt rts x :
  x ∈ rt :: rts → (sellDay offset x ≤ latestSellDay offset rt rts)%Z.
Proof.
  unfold latestSellDay. induction rts as [|y rts IH]; cbn [foldr]; intros Hx.
  - apply list_elem_of_singleton in Hx as ->. lia.
  - apply elem_of_cons in Hx as [->|Hx].
    + specialize (IH (list_elem_of_here _ _)). lia.
    + apply elem_of_cons in Hx as [->|Hx]; [lia|].
      specialize (IH (list_elem_of_further _ _ _ Hx)). lia.
Qed.

Lemma latestSellDay_elem rt rts :
  latestSellDay offset rt rts ∈ map (sellDay offset) (rt :: rts).
Proof.
  unfold latestSellDay. induction rts as [|y rts IH]; cbn [foldr map].
  - apply list_elem_of_here.
  - set (m := foldr (λ x m, Z.max (sellDay offset x) m) (sellDay offset rt) rts) in *.
    destruct (Z.max_spec (sellDay offset y) m) as [[_ ->]|[_ ->]].
    + cbn [map] in IH. apply elem_of_cons in IH as [->|IH].
      * apply list_elem_of_here.
      * by do 2 apply list_elem_of_further.
    + apply list_elem_of_further, list_elem_of_here.
Qed.

(** The sorted keys start at the earliest day and end at the latest. *)
Lemma sorted_days_ends rt rts (keys : list Z) :
  (∀ day, day ∈ keys ↔ day ∈ map (sellDay offset) (rt :: rts)) →
  head (sortBy dateDiff keys) = Some (earliestSellDay offset rt rts)
  ∧ last (sortBy dateDiff keys) = Some (latestSellDay offset rt rts).
Proof.
  intros Hkeys.
  pose proof (sortBy_ascending id dateDiff dateDiff_key keys) as Hasc.
  assert (Hmem : ∀ day, day ∈ sortBy dateDiff keys
                        ↔ day ∈ map (sellDay offset) (rt :: rts)).
  { intros day. by rewrite elem_of_sortBy. }
  assert (Hbounds : ∀ day, day ∈ sortBy dateDiff keys →
            (earliestSellDay offset rt rts ≤ day ≤ latestSellDay offset rt rts)%Z).
  { intros day Hday. apply Hmem, list_elem_of_fmap in Hday as (x & -> & Hx).
    split; [by apply earliestSellDay_le|by apply latestSellDay_ge]. }
  pose proof (proj2 (Hmem _) (earliestSellDay_elem rt rts)) as Hmin.
  pose proof (proj2 (Hmem _) (latestSellDay_elem rt rts)) as Hmax.
  split.
  - destruct (sortBy dateDiff keys) as [|d l] eqn:E; [by apply elem_of_nil in Hmin|].
    cbn [head]. f_equal.
    pose proof (ascending_head_le id d l _ Hasc Hmin) as H1.
    pose proof (Hbounds d (list_elem_of_here _ _)) as H2. unfold id in *. lia.
  - destruct (last (sortBy dateDiff keys)) as [d|] eqn:E.
    + f_equal.
      pose proof (ascending_last_ge id _ d _ Hasc E Hmax) as H1.
      assert (Hd : d ∈ sortBy dateDiff keys) by (by apply last_Some_elem_of).
      pose proof (Hbounds d Hd) as H2. unfold id in *. lia.
    + apply last_None in E. rewrite E in Hmin. by apply elem_of_nil in Hmin.
Qed.

(** [dailyPL] has one entry per day from the earliest to the latest day,
    each with what the map holds for the day. *)
Lemma dailyPL_days (rt : roundTrip) (rts : list roundTrip) :
  Analytics.dailyPL offset (rt :: rts)
  = map (λ day, {| Analytics.d_date := day;
                   Analytics.d_pl :=
                     Analytics.getOrZero
                       (fold_left (Analytics.addTrip offset) (rt :: rts) ∅) day |})
        (seqZ (earliestSellDay offset rt rts)
              (latestSellDay offset rt rts - earliestSellDay offset rt rts + 1)).
Proof.
  unfold Analytics.dailyPL. cbn [length Nat.eqb].
  set (dailyMap := fold_left (Analytics.addTrip offset) (rt :: rts) ∅).
  destruct (sorted_days_ends rt rts (map fst (map_to_list dailyMap))) as [Hhead Hlast].
  { intros day. apply dailyMap_keys. }
  by rewrite Hhead, Hlast.
Qed.

(** With finite amounts, each day holds the sum over the round trips sold
    that day. *)
Lemma dailyPL_closed (rt : roundTrip) (rts : list roundTrip) :
  Forall (λ rt, isFinite (pl rt)) (rt :: rts) →
  Analytics.dailyPL offset (rt :: rts)
  = map (λ day, {| Analytics.d_date := day;
                   Analytics.d_pl := sumBy pl (soldOn offset day (rt :: rts)) |})
        (seqZ (earliestSellDay offset rt rts)
              (latestSellDay offset rt rts - earliestSellDay offset rt rts + 1)).
Proof.
  intros Hfin. rewrite dailyPL_days. apply map_ext. intros day. f_equal.
  apply getOrZero_dailyMapOf; [done|]. by apply dailyMapOf_all.
Qed.

(** Summing day by day over days that cover every sale gives the sum over
    all round trips. *)
Lemma qsum_by_day (l : list roundTrip) (days : list Z) :
  NoDup days → Forall (λ rt, sellDay offset rt ∈ days) l →
  (qsum (λ day, Finite (qsum pl (soldOn offset day l))) days == qsum pl l)%Q.
Proof.
  intros Hnd. induction 1 as [|rt l Hrt _ IH].
  - apply qsum_zero. intros day _. reflexivity.
  - rewrite qsum_cons, <- IH, <- (qsum_one_day (val (pl rt)) (sellDay offset rt) days Hnd Hrt).
    rewrite <- qsum_plus. apply qsum_ext. intros day _. cbn [val].
    unfold soldOn at 1. cbn [List.filter].
    destruct (Z.eqb (sellDay offset rt) day); rewrite ?qsum_cons; fold (soldOn offset day l); ring.
Qed.

End Daily.

(** ** The worked example: two buys and one sell *)

Section Example.
Variables (sym : string) (T1 T2 T3 : Z).

Lemma example_sorted orders :
  (T1 < T2)%Z → (T2 < T3)%Z → orders ≡ₚ [buy1 sym T1; buy2 sym T2; sell3 sym T3] →
  sortBy byFilledAt orders = [buy1 sym T1; buy2 sym T2; sell3 sym T3].
Proof.
  intros H12 H23 Hp. symmetry in Hp. apply permutations_Permutation in Hp.
  cbv [permutations interleave buy1 buy2 sell3 fmap list_fmap mbind list_bind app] in Hp.
  repeat (apply elem_of_cons in Hp as [->|Hp]); try by apply elem_of_nil in Hp.
  all: unfold byFilledAt;
    repeat first
      [ progress cbn [sortBy foldr insertBy filled_at]
      | rewrite dateDiff_gt
      | match goal with
        | |- context [(?a <? ?b)%Z] => destruct (Z.ltb_spec a b); try lia
        end ];
    reflexivity.
Qed.

Lemma example_pass orders :
  (T1 < T2)%Z → (T2 < T3)%Z → orders ≡ₚ [buy1 sym T1; buy2 sym T2; sell3 sym T3] →
  ordersBySymbol orders = [(sym, orders)]
  ∧ processSymbol [] sym orders =
      {| allRoundTrips := [trip1 sym T1 T3; trip2 sym T2 T3]; buyQueue := [openLot T2];
         realizedPL := Finite 220; winCount := 2; lossCount := 0 |}.
Proof.
  intros H12 H23 Hp. split.
  - destruct orders as [|o l].
    { apply Permutation_nil_l in Hp. discriminate. }
    apply ordersBySymbol_one_symbol. rewrite Hp.
    repeat constructor; apply String.eqb_refl.
  - unfold processSymbol. rewrite example_sorted by done. vm_compute. reflexivity.
Qed.
End Example.

(** C1: for two buys (10 at 100, 5 at 110) and a sell (12 at 120) of one
    symbol, filled in that order in time and given in any order, both pages'
    matchers return exactly the round trips (10, 100, 120, P/L 200) and
    (2, 110, 120, P/L 20), in that order, and the symbol's queue is left
    with one open lot of 3 at 110. *)
Theorem C1_two_buys_one_sell (sym : string) (T1 T2 T3 : Z) (orders : list order) :
  (T1 < T2)%Z → (T2 < T3)%Z →
  orders ≡ₚ [buy1 sym T1; buy2 sym T2; sell3 sym T3] →
  Analytics.roundTrips (Some orders) = [trip1 sym T1 T3; trip2 sym T2 T3]
  ∧ Positions.roundTrips (Some orders) = [trip1 sym T1 T3; trip2 sym T2 T3]
  ∧ map (λ rt, (rt_qty rt, buyPrice rt, sellPrice rt, pl rt))
        (Analytics.roundTrips (Some orders))
    = [(Finite 10, Finite 100, Finite 120, Finite 200);
       (Finite 2, Finite 110, Finite 120, Finite 20)]
  ∧ ∃ symbolOrders,
      ordersBySymbol orders = [(sym, symbolOrders)]
      ∧ buyQueue (processSymbol [] sym symbolOrders)
        = [ {| lot_qty := Finite 3; lot_price := Finite 110; lot_date := T2 |} ].
Proof.
  intros H12 H23 Hp.
  destruct (example_pass sym T1 T2 T3 orders H12 H23 Hp) as [Hg Hpass].
  assert (Ha : Analytics.roundTrips (Some orders) = [trip1 sym T1 T3; trip2 sym T2 T3]).
  { unfold Analytics.roundTrips, Analytics.collect. rewrite Hg. cbn [fold_left].
    rewrite Hpass. cbn [allRoundTrips sortBy foldr insertBy].
    unfold bySellDate. cbn [sellDate trip1 trip2]. rewrite dateDiff_gt.
    by rewrite Z.ltb_irrefl. }
  split; [exact Ha|]. split; [|split].
  - unfold Positions.roundTrips, Positions.tradeHistory, Positions.collect.
    rewrite Hg. cbn [fold_left]. by rewrite Hpass.
  - by rewrite Ha.
  - exists orders. split; [exact Hg|]. by rewrite Hpass.
Qed.

Lemma C1_two_buys_one_sell_witness :
  Analytics.roundTrips (Some [sell3 "AAPL" 3; buy1 "AAPL" 1; buy2 "AAPL" 2])
  = [trip1 "AAPL" 1 3; trip2 "AAPL" 2 3].
Proof.
  refine (proj1 (C1_two_buys_one_sell "AAPL" 1 2 3 _ _ _ _)); [lia|lia|].
  apply Permutation_cons_append.
Defined.
(** ** C2: matched quantity against bought quantity *)

Lemma ngtb_zero_cases (s : num) :
  ngtb s zero = true → s = PosInf ∨ ∃ x, s = Finite x ∧ (0 < x)%Q.
Proof.
  destruct s as [x| | |]; try done; [|by left].
  cbn. intros H. apply Bool.negb_true_iff, Qle_bool_false in H. right. by exists x.
Qed.

(** What one turn matches against a lot of quantity [b]. *)
Lemma nmin_against_lot (s : num) (b : Q) :
  ngtb s zero = true → (0 <= b)%Q →
  ∃ m, nmin s (Finite b) = Finite m ∧ (0 <= m)%Q ∧ (m <= b)%Q.
Proof.
  intros Hs Hb. destruct (ngtb_zero_cases s Hs) as [->|(x & -> & Hx)].
  - exists b. repeat split; [done|lra].
  - cbn. destruct (Qle_bool x b) eqn:E.
    + apply Qle_bool_iff in E. exists x. repeat split; lra.
    + exists b. repeat split; lra.
Qed.

Lemma matchOnce_accounted bought sym price date sellQty buy rest st :
  quantitiesAccounted bought st →
  buyQueue st = buy :: rest →
  ngtb sellQty zero = true →
  quantitiesAccounted bought (snd (matchOnce sym price date sellQty buy rest st)).
Proof.
  intros (Hq & Ht & Hsum) Hst Hs. rewrite Hst in Hq, Hsum.
  apply Forall_cons_1 in Hq as [(b & Hb & Hbpos) Hrest].
  destruct (nmin_against_lot sellQty b Hs Hbpos) as (m & Hm & Hmpos & Hmb).
  unfold matchOnce, quantitiesAccounted.
  cbn [snd buyQueue allRoundTrips]. rewrite Hb, Hm. cbn [nsub lot_qty nleb zero].
  rewrite qsum_cons, Hb in Hsum. cbn [val] in Hsum.
  assert (Htrips : Forall (λ rt, nonNegative (rt_qty rt))
                     (allRoundTrips st ++ [tripOf sym price date (Finite m) buy])).
  { apply Forall_app. split; [done|]. constructor; [|constructor]. by exists m. }
  rewrite Qle_bool_Qred_l, qsum_app, qsum_cons, qsum_nil. cbn [tripOf rt_qty val].
  destruct (Qle_bool (b - m) 0) eqn:E.
  - apply Qle_bool_iff in E. repeat split; [done..|]. lra.
  - apply Qle_bool_false in E. repeat split; [|done|].
    + constructor; [|done]. exists (Qred (b - m)). split; [done|].
      rewrite Qred_correct. lra.
    + rewrite qsum_cons. cbn [lot_qty val]. rewrite Qred_correct. lra.
Qed.

Lemma matchLoop_accounted bought fuel sym price date sellQty st :
  quantitiesAccounted bought st →
  quantitiesAccounted bought (snd (matchLoop fuel sym price date sellQty st)).
Proof.
  revert sellQty st. induction fuel as [|fuel IH]; intros sellQty st H; [done|].
  cbn [matchLoop]. destruct (ngtb sellQty zero) eqn:Hs; [|done].
  destruct (buyQueue st) as [|buy rest] eqn:Hq; [done|].
  pose proof (matchOnce_accounted bought sym price date sellQty buy rest st H Hq Hs) as H'.
  destruct (matchOnce sym price date sellQty buy rest st) as [s' st'].
  by apply IH.
Qed.

Lemma processOrder_accounted bought sym st o :
  quantitiesAccounted bought st →
  (isBuy o = true → nonNegative (filled_qty o)) →
  quantitiesAccounted
    (bought + qsum filled_qty (List.filter isBuy [o])) (processOrder sym st o).
Proof.
  intros H Hbuy. unfold processOrder. cbn [List.filter]. unfold isBuy in *.
  destruct (String.eqb (side o) "buy").
  - destruct H as (Hq & Ht & Hsum). destruct (Hbuy eq_refl) as (q & Hqo & Hpos).
    unfold quantitiesAccounted. cbn [buyQueue allRoundTrips].
    repeat split; [|done|].
    + apply Forall_app. split; [done|]. constructor; [|constructor]. by exists q.
    + rewrite qsum_app, !qsum_cons, !qsum_nil. cbn [lot_qty]. rewrite <- Hsum. ring.
  - assert (H' : quantitiesAccounted (bought + qsum filled_qty []) st).
    { destruct H as (Hq & Ht & Hsum). repeat split; [done..|].
      rewrite qsum_nil, Hsum. ring. }
    destruct (String.eqb (side o) "sell" && negb (Nat.eqb (length (buyQueue st)) 0));
      [|done].
    by apply matchLoop_accounted.
Qed.

Lemma fold_processOrder_accounted bought sym os st :
  quantitiesAccounted bought st →
  Forall (λ o, nonNegative (filled_qty o)) (List.filter isBuy os) →
  quantitiesAccounted
    (bought + qsum filled_qty (List.filter isBuy os))
    (fold_left (processOrder sym) os st).
Proof.
  revert bought st. induction os as [|o os IH]; intros bought st H Hbuys.
  - cbn [fold_left List.filter]. destruct H as (Hq & Ht & Hsum).
    repeat split; [done..|]. rewrite qsum_nil, Hsum. ring.
  - cbn [fold_left].
    assert (Ho : isBuy o = true → nonNegative (filled_qty o)).
    { intros E. cbn [List.filter] in Hbuys. rewrite E in Hbuys.
      by apply Forall_cons_1 in Hbuys as [? _]. }
    assert (Hos : Forall (λ o, nonNegative (filled_qty o)) (List.filter isBuy os)).
    { cbn [List.filter] in Hbuys. destruct (isBuy o); [|done].
      by apply Forall_cons_1 in Hbuys as [_ ?]. }
    pose proof (IH _ _ (processOrder_accounted bought sym st o H Ho) Hos)
      as (Hq & Ht & Hsum).
    repeat split; [done..|]. rewrite Hsum.
    change (o :: os) with ([o] ++ os). rewrite List.filter_app, qsum_app. ring.
Qed.

(** One symbol's pass matches at most what the symbol's buys bought. *)
Lemma symTrips_at_most_bought sym os :
  Forall (λ o, nonNegative (filled_qty o)) (List.filter isBuy os) →
  Forall (λ rt, nonNegative (rt_qty rt)) (symTrips sym os)
  ∧ (qsum rt_qty (symTrips sym os) <= qsum filled_qty (List.filter isBuy os))%Q.
Proof.
  intros Hbuys.
  assert (Hperm : List.filter isBuy (sortBy byFilledAt os) ≡ₚ List.filter isBuy os).
  { rewrite (sortBy_filter filled_at byFilledAt byFilledAt_key). apply sortBy_perm. }
  assert (Hstart : quantitiesAccounted 0 (startPass [])).
  { repeat split; try constructor. }
  pose proof (fold_processOrder_accounted 0 sym (sortBy byFilledAt os) (startPass [])
                Hstart) as H.
  destruct H as (Hq & Ht & Hsum).
  { rewrite Forall_forall. intros o Ho. rewrite Hperm in Ho.
    by apply (proj1 (Forall_forall _ _) Hbuys). }
  split; [exact Ht|]. unfold symTrips, processSymbol.
  pose proof (qsum_nonneg lot_qty _ Hq) as Hopen.
  rewrite (qsum_perm filled_qty _ _ Hperm) in Hsum. lra.
Qed.

(** A quantity from 0 to that of a buy order whose quantity is a number
    not below 0 is such a number itself. *)
Lemma between_zero_and_bought (q b : num) :
  nonNegative b → nleb zero q = true → nleb q b = true →
  ∃ x y, q = Finite x ∧ b = Finite y ∧ (0 <= x)%Q ∧ (x <= y)%Q.
Proof.
  intros (y & -> & Hy) H0 Hq. destruct q as [x| | |]; try done.
  exists x, y. repeat split; [|by apply Qle_bool_iff in Hq].
  by apply Qle_bool_iff in H0.
Qed.

Lemma matchOnce_stemFrom buys sym price date sellQty buy rest st :
  Forall (λ o, nonNegative (filled_qty o)) buys →
  stemFrom buys st →
  buyQueue st = buy :: rest →
  ngtb sellQty zero = true →
  stemFrom buys (snd (matchOnce sym price date sellQty buy rest st)).
Proof.
  intros Hbuys (Hq & Ht) Hst Hs. rewrite Hst in Hq.
  apply Forall_cons_1 in Hq as [(o & Ho & Hdate & H0 & Hle) Hrest].
  rewrite Forall_forall in Hbuys.
  destruct (between_zero_and_bought _ _ (Hbuys o Ho) H0 Hle) as (b & y & Hb & Hy & Hb0 & Hby).
  destruct (nmin_against_lot sellQty b Hs Hb0) as (m & Hm & Hm0 & Hmb).
  unfold matchOnce, stemFrom. cbn [snd buyQueue allRoundTrips].
  rewrite Hb, Hm. cbn [nsub lot_qty nleb zero]. rewrite Qle_bool_Qred_l. split.
  - destruct (Qle_bool (b - m) 0) eqn:E; [done|]. apply Qle_bool_false in E.
    constructor; [|done]. exists o. cbn [lot_date lot_qty].
    rewrite Hy. cbn [nleb zero]. rewrite Qle_bool_Qred_l, Qle_bool_Qred_r.
    repeat split; [done..| |]; apply Qle_bool_iff; lra.
  - apply Forall_app. split; [done|]. constructor; [|constructor].
    exists o. split; [done|]. unfold closes. cbn [tripOf buyDate rt_qty].
    rewrite Hy. cbn [nleb zero]. repeat split; [done..| |]; apply Qle_bool_iff; lra.
Qed.

Lemma matchLoop_stemFrom buys fuel sym price date sellQty st :
  Forall (λ o, nonNegative (filled_qty o)) buys →
  stemFrom buys st →
  stemFrom buys (snd (matchLoop fuel sym price date sellQty st)).
Proof.
  intros Hbuys. revert sellQty st.
  induction fuel as [|fuel IH]; intros sellQty st H; [done|].
  cbn [matchLoop]. destruct (ngtb sellQty zero) eqn:Hs; [|done].
  destruct (buyQueue st) as [|buy rest] eqn:Hq; [done|].
  pose proof (matchOnce_stemFrom buys sym price date sellQty buy rest st Hbuys H Hq Hs)
    as H'.
  destruct (matchOnce sym price date sellQty buy rest st) as [s' st'].
  by apply IH.
Qed.

Lemma processOrder_stemFrom buys sym st o :
  Forall (λ o, nonNegative (filled_qty o)) buys →
  stemFrom buys st →
  (isBuy o = true → o ∈ buys) →
  stemFrom buys (processOrder sym st o).
Proof.
  intros Hbuys H Ho. unfold processOrder. unfold isBuy in Ho.
  destruct (String.eqb (side o) "buy").
  - destruct H as (Hq & Ht). split; [|done]. cbn [buyQueue].
    apply Forall_app. split; [done|]. constructor; [|constructor].
    exists o. cbn [lot_date lot_qty].
    rewrite Forall_forall in Hbuys. destruct (Hbuys o (Ho eq_refl)) as (q & -> & Hq0).
    cbn [nleb zero]. repeat split; [by apply Ho|..]; apply Qle_bool_iff; lra.
  - destruct (String.eqb (side o) "sell" && negb (Nat.eqb (length (buyQueue st)) 0));
      [|done].
    by apply matchLoop_stemFrom.
Qed.

Lemma fold_processOrder_stemFrom buys sym os : ∀ st,
  Forall (λ o, nonNegative (filled_qty o)) buys →
  stemFrom buys st →
  Forall (λ o, isBuy o = true → o ∈ buys) os →
  stemFrom buys (fold_left (processOrder sym) os st).
Proof.
  induction os as [|o os IH]; intros st Hbuys H Hos; [done|].
  apply Forall_cons_1 in Hos as [Ho Hos]. cbn [fold_left].
  apply IH; [done| |done]. by apply processOrder_stemFrom.
Qed.

(** Every round trip of a symbol's pass closes a lot of one of its buy
    orders. *)
Lemma symTrips_close_buys sym os :
  Forall (λ o, nonNegative (filled_qty o)) (List.filter isBuy os) →
  Forall (λ rt, ∃ o, o ∈ List.filter isBuy os ∧ closes rt o) (symTrips sym os).
Proof.
  intros Hbuys. unfold symTrips, processSymbol.
  apply fold_processOrder_stemFrom; [done|by split|].
  rewrite Forall_forall. intros o Ho Hb. apply elem_of_sortBy in Ho.
  apply list_elem_of_In, filter_In. split; [by apply list_elem_of_In|done].
Qed.

(** C2: for every symbol whose filled buy orders hold quantities that are
    numbers not below 0, every round trip of the symbol closes a lot of one of
    those orders: it carries the order's fill time and a quantity from 0 to
    the order's.  When in addition the quantities of the symbol's
    filled orders are whole numbers and those of its buys sum to at most 2^53,
    so that no subtraction or addition of quantities rounds, the matched
    quantities of the symbol's round trips sum to at most the sum of the
    quantities of its filled buy orders. *)
Theorem C2_matched_against_bought (orders : list order) (sym : string) :
  Forall (λ o, nonNegative (filled_qty o)) (buysOf sym orders) →
  (Forall (λ rt, ∃ o, o ∈ buysOf sym orders ∧ closes rt o)
          (tripsOf sym (Analytics.roundTrips (Some orders)))
   ∧ Forall (λ rt, ∃ o, o ∈ buysOf sym orders ∧ closes rt o)
            (tripsOf sym (Positions.roundTrips (Some orders))))
  ∧ (Forall (λ o, wholeNumber (filled_qty o)) (symbolOrders sym orders) →
     nleb (sumBy filled_qty (buysOf sym orders)) twoTo53 = true →
     nleb (sumBy rt_qty (tripsOf sym (Analytics.roundTrips (Some orders))))
          (sumBy filled_qty (buysOf sym orders)) = true
     ∧ nleb (sumBy rt_qty (tripsOf sym (Positions.roundTrips (Some orders))))
            (sumBy filled_qty (buysOf sym orders)) = true).
Proof.
  intros Hbuys. split.
  - pose proof (symTrips_close_buys sym (symbolOrders sym orders) Hbuys) as H.
    rewrite tripsOf_Analytics, tripsOf_Positions. split; [|exact H].
    rewrite Forall_forall in H. rewrite Forall_forall. intros rt Hrt.
    apply H. by apply elem_of_sortBy in Hrt.
  - intros _ _.
    destruct (symTrips_at_most_bought sym (symbolOrders sym orders) Hbuys) as [Hfin Hle].
    destruct (sumBy_finite filled_qty (buysOf sym orders)) as (b & Hb & Hbsum).
    { eapply Forall_impl; [exact Hbuys|]. intros o (q & Hq & _). by exists q. }
    assert (Hgen : ∀ rts, rts ≡ₚ symTrips sym (symbolOrders sym orders) →
              nleb (sumBy rt_qty rts) (sumBy filled_qty (buysOf sym orders)) = true).
    { intros rts Hperm.
      destruct (sumBy_finite rt_qty rts) as (t & Ht & Htsum).
      { rewrite Forall_forall. intros rt Hrt. rewrite Hperm in Hrt.
        destruct (proj1 (Forall_forall _ _) Hfin rt Hrt) as (q & Hq & _). by exists q. }
      rewrite Ht, Hb. cbn [nleb]. apply Qle_bool_iff.
      rewrite Htsum, Hbsum, (qsum_perm rt_qty _ _ Hperm). exact Hle. }
    split; apply Hgen.
    + rewrite tripsOf_Analytics. apply sortBy_perm.
    + by rewrite tripsOf_Positions.
Qed.

Lemma C2_matched_against_bought_witness :
  nleb (sumBy rt_qty
          (tripsOf "AAPL"
             (Analytics.roundTrips
                (Some [sell3 "AAPL" 3; buy1 "AAPL" 1; buy2 "AAPL" 2]))))
       (sumBy filled_qty
          (buysOf "AAPL" [sell3 "AAPL" 3; buy1 "AAPL" 1; buy2 "AAPL" 2]))
  = true.
Proof.
  refine (proj1 (proj2 (C2_matched_against_bought
                          [sell3 "AAPL" 3; buy1 "AAPL" 1; buy2 "AAPL" 2] "AAPL" _) _ _)).
  - repeat constructor.
    + exists 10%Q. split; [reflexivity|]. unfold Qle; simpl; lia.
    + exists 5%Q. split; [reflexivity|]. unfold Qle; simpl; lia.
  - repeat constructor.
    + exists 12%Z. split; [lia|reflexivity].
    + exists 10%Z. split; [lia|reflexivity].
    + exists 5%Z. split; [lia|reflexivity].
  - reflexivity.
Defined.

(** On fractional shares the sum can exceed what was bought: with 25.63
    bought and 8.99 and then 27.5 sold, the code matches 8.99 and
    16.640000000000001 (what 25.63 - 8.99 gives in binary64), which add up to
    25.630000000000003, more than 25.63. *)
Lemma C2_rounding_exceeds_bought :
  map Double.rt_qty (Double.Analytics.roundTrips (Some Double.fractionalOrders))
  = [8.99%float; 16.640000000000001%float]
  ∧ Double.sumBy Double.rt_qty
      (Double.tripsOf "AAPL" (Double.Analytics.roundTrips (Some Double.fractionalOrders)))
    = 25.630000000000003%float
  ∧ Double.sumBy Double.rt_qty
      (Double.tripsOf "AAPL" (Double.Positions.roundTrips (Some Double.fractionalOrders)))
    = 25.630000000000003%float
  ∧ Double.sumBy Double.filled_qty (Double.buysOf "AAPL" Double.fractionalOrders)
    = 25.63%float
  ∧ PrimFloat.leb 25.630000000000003%float 25.63%float = false.
Proof. vm_compute. repeat split; reflexivity. Qed.
(** ** C3: a sell that finds no open lot *)

Lemma symbolOrders_insert (l1 l2 : list order) (o : order) :
  isFilled o = true →
  symbolOrders (symbol o) (l1 ++ o :: l2)
  = symbolOrders (symbol o) l1 ++ [o] ++ symbolOrders (symbol o) l2.
Proof. intros Hf. by rewrite symbolOrders_app, symbolOrders_cons_same. Qed.

Lemma symbolOrders_insert_other (l1 l2 : list order) (o : order) (s : string) :
  s ≠ symbol o → symbolOrders s (l1 ++ o :: l2) = symbolOrders s (l1 ++ l2).
Proof. intros Hne. by rewrite !symbolOrders_app, symbolOrders_cons_other. Qed.

(** The pass reaches [o] after [handledBefore] and goes on with
    [handledAfter]; without [o] it handles the same orders in the same
    order. *)
Lemma pass_order_with (l1 l2 : list order) (o : order) :
  isFilled o = true →
  sortBy byFilledAt (symbolOrders (symbol o) (l1 ++ o :: l2))
  = handledBefore l1 o l2 ++ [o] ++ handledAfter l1 o l2.
Proof.
  intros Hf. rewrite symbolOrders_insert by done.
  apply (sortBy_mid filled_at byFilledAt byFilledAt_key (filled_at o)).
  by repeat constructor.
Qed.

Lemma pass_order_without (l1 l2 : list order) (o : order) :
  sortBy byFilledAt (symbolOrders (symbol o) (l1 ++ l2))
  = handledBefore l1 o l2 ++ handledAfter l1 o l2.
Proof.
  rewrite symbolOrders_app.
  apply (sortBy_mid filled_at byFilledAt byFilledAt_key (filled_at o) _ [] _).
  constructor.
Qed.

Lemma sell_on_empty_queue sym st o :
  side o = "sell" → buyQueue st = [] → processOrder sym st o = st.
Proof. intros Hside Hq. unfold processOrder. by rewrite Hside, Hq. Qed.

(** The symbol's pass ends in the same state with and without the sell. *)
Lemma processSymbol_without_sell (l1 l2 : list order) (o : order) :
  isFilled o = true → side o = "sell" → queueFoundBy l1 o l2 = [] →
  processSymbol [] (symbol o) (symbolOrders (symbol o) (l1 ++ o :: l2))
  = processSymbol [] (symbol o) (symbolOrders (symbol o) (l1 ++ l2)).
Proof.
  intros Hf Hside Hq. unfold processSymbol.
  rewrite pass_order_with, pass_order_without by done.
  rewrite !fold_left_app. cbn [fold_left]. f_equal.
  by apply sell_on_empty_queue.
Qed.

Lemma symTrips_without_sell (l1 l2 : list order) (o : order) (s : string) :
  isFilled o = true → side o = "sell" → queueFoundBy l1 o l2 = [] →
  symTrips s (symbolOrders s (l1 ++ o :: l2)) = symTrips s (symbolOrders s (l1 ++ l2))
  ∧ symStat s (symbolOrders s (l1 ++ o :: l2)) = symStat s (symbolOrders s (l1 ++ l2)).
Proof.
  intros Hf Hside Hq. destruct (decide (s = symbol o)) as [->|Hne].
  - unfold symTrips, symStat. by rewrite processSymbol_without_sell.
  - by rewrite symbolOrders_insert_other.
Qed.

Lemma symbolsOf_insert_seen (l1 l2 : list order) (o : order) :
  symbol o ∈ symbolsOf l1 → symbolsOf (l1 ++ o :: l2) = symbolsOf (l1 ++ l2).
Proof.
  intros Hin. unfold symbolsOf in *.
  rewrite !List.filter_app, !map_app, !fold_left_app. cbn [List.filter].
  destruct (isFilled o); [|done]. cbn [map fold_left]. by rewrite addKey_in.
Qed.

Lemma elem_of_symbolsOf_insert (l1 l2 : list order) (o : order) (s : string) :
  s ∈ symbolsOf (l1 ++ l2) → s ∈ symbolsOf (l1 ++ o :: l2).
Proof.
  rewrite !elem_of_symbolsOf. intros (x & Hx & Hfx & Hsx). exists x.
  split; [|done]. rewrite !elem_of_app, elem_of_cons in *. tauto.
Qed.

(** The statistics in closed form: one entry per symbol with a filled
    order. *)
Lemma fold_insert_stat (f : string → list order) (keys : list string)
    (stats : gmap string Positions.symbolStat) (s : string) :
  fold_left (λ stats '(sym, symbolOrders), <[sym := symStat sym symbolOrders]> stats)
            (map (λ s, (s, f s)) keys) stats !! s
  = if decide (s ∈ keys) then Some (symStat s (f s)) else stats !! s.
Proof.
  revert stats. induction keys as [|k keys IH]; intros stats; [done|].
  cbn [map fold_left]. rewrite IH.
  destruct (decide (s ∈ keys)) as [Hin|Hout].
  - rewrite decide_True; [done|]. by apply list_elem_of_further.
  - destruct (decide (s = k)) as [->|Hne].
    + rewrite decide_True by apply list_elem_of_here. by rewrite lookup_insert_eq.
    + rewrite decide_False by (rewrite elem_of_cons; tauto).
      by rewrite lookup_insert_ne.
Qed.

Lemma symbolStats_closed (orders : list order) (s : string) :
  Positions.symbolStats (Some orders) !! s
  = if decide (s ∈ symbolsOf orders) then Some (symStat s (symbolOrders s orders))
    else None.
Proof.
  unfold Positions.symbolStats, Positions.tradeHistory, Positions.collect.
  rewrite Positions_collect_closed, ordersBySymbol_closed. cbn [snd].
  rewrite fold_insert_stat. by destruct (decide (s ∈ symbolsOf orders)).
Qed.

Lemma concat_map_perm {A B : Type} (f : A → list B) (k1 k2 : list A) :
  k1 ≡ₚ k2 → concat (map f k1) ≡ₚ concat (map f k2).
Proof.
  induction 1 as [|x k1 k2 _ IH|x y k|k1 k2 k3 _ IH1 _ IH2]; cbn [map concat].
  - done.
  - by rewrite IH.
  - rewrite !app_assoc. by rewrite (Permutation_app_comm (f y) (f x)).
  - by rewrite IH1.
Qed.

(** Without the sell the output holds the same round trips, in some
    order. *)
Lemma roundTrips_without_sell_perm (l1 l2 : list order) (o : order) :
  isFilled o = true → side o = "sell" → queueFoundBy l1 o l2 = [] →
  Positions.roundTrips (Some (l1 ++ o :: l2)) ≡ₚ Positions.roundTrips (Some (l1 ++ l2)).
Proof.
  intros Hf Hside Hq. rewrite !Positions_roundTrips_closed.
  assert (Hmap : map (λ s, symTrips s (symbolOrders s (l1 ++ o :: l2)))
                     (symbolsOf (l1 ++ o :: l2))
                 = map (λ s, symTrips s (symbolOrders s (l1 ++ l2)))
                       (symbolsOf (l1 ++ o :: l2))).
  { apply map_ext. intros s. by apply symTrips_without_sell. }
  rewrite Hmap. clear Hmap.
  assert (Hmem : ∀ s, s ∈ symbolsOf (l1 ++ o :: l2)
                      ↔ s = symbol o ∨ s ∈ symbolsOf (l1 ++ l2)).
  { intros s. rewrite !elem_of_symbolsOf. split.
    - intros (x & Hx & Hfx & Hsx).
      rewrite elem_of_app, elem_of_cons in Hx. destruct Hx as [Hx|[->|Hx]].
      + right. exists x. rewrite elem_of_app. tauto.
      + by left.
      + right. exists x. rewrite elem_of_app. tauto.
    - intros [->|(x & Hx & Hfx & Hsx)].
      + exists o. rewrite elem_of_app, elem_of_cons. tauto.
      + exists x. rewrite elem_of_app, elem_of_cons.
        rewrite elem_of_app in Hx. tauto. }
  destruct (decide (symbol o ∈ symbolsOf (l1 ++ l2))) as [Hin|Hout].
  - apply concat_map_perm, NoDup_Permutation; [apply NoDup_symbolsOf..|].
    intros s. rewrite Hmem. split; [by intros [->|?]|by right].
  - transitivity (concat (map (λ s, symTrips s (symbolOrders s (l1 ++ l2)))
                              (symbol o :: symbolsOf (l1 ++ l2)))).
    + apply concat_map_perm, NoDup_Permutation.
      * apply NoDup_symbolsOf.
      * apply NoDup_cons. split; [done|apply NoDup_symbolsOf].
      * intros s. by rewrite Hmem, elem_of_cons.
    + cbn [map concat]. by rewrite symbolOrders_none.
Qed.

(** C3, as the code has it: a filled sell that finds its symbol's queue
    empty leaves the pass as it is (no round trip, no realized P/L, no win or
    loss counted); every symbol's round trips and statistics are those of
    the input without the sell, and the output holds the same round trips.
    The whole output is that of the input without the sell when an earlier
    filled order of the input already has the sell's symbol; otherwise the
    order of the symbols can differ, and when the sell is the only filled
    order of its symbol the statistics keep an entry for it, without any
    trade. *)
Theorem C3_sell_on_empty_queue (l1 l2 : list order) (o : order) :
  isFilled o = true → side o = "sell" → queueFoundBy l1 o l2 = [] →
  sortBy byFilledAt (symbolOrders (symbol o) (l1 ++ o :: l2))
  = handledBefore l1 o l2 ++ [o] ++ handledAfter l1 o l2
  ∧ (∀ sym st, buyQueue st = [] → processOrder sym st o = st)
  ∧ (∀ s, tripsOf s (Analytics.roundTrips (Some (l1 ++ o :: l2)))
          = tripsOf s (Analytics.roundTrips (Some (l1 ++ l2)))
          ∧ tripsOf s (Positions.roundTrips (Some (l1 ++ o :: l2)))
            = tripsOf s (Positions.roundTrips (Some (l1 ++ l2))))
  ∧ Analytics.roundTrips (Some (l1 ++ o :: l2))
    ≡ₚ Analytics.roundTrips (Some (l1 ++ l2))
  ∧ Positions.roundTrips (Some (l1 ++ o :: l2))
    ≡ₚ Positions.roundTrips (Some (l1 ++ l2))
  ∧ (∀ s, s ∈ symbolsOf (l1 ++ l2) →
          Positions.symbolStats (Some (l1 ++ o :: l2)) !! s
          = Positions.symbolStats (Some (l1 ++ l2)) !! s)
  ∧ (symbol o ∉ symbolsOf (l1 ++ l2) →
       Positions.symbolStats (Some (l1 ++ o :: l2)) !! symbol o
       = Some (Positions.statOf (startPass []))
       ∧ Positions.symbolStats (Some (l1 ++ l2)) !! symbol o = None)
  ∧ (symbol o ∈ symbolsOf l1 →
       Analytics.roundTrips (Some (l1 ++ o :: l2))
       = Analytics.roundTrips (Some (l1 ++ l2))
       ∧ Positions.tradeHistory (Some (l1 ++ o :: l2))
         = Positions.tradeHistory (Some (l1 ++ l2))).
Proof.
  intros Hf Hside Hq.
  pose proof (λ s, symTrips_without_sell l1 l2 o s Hf Hside Hq) as Hsame.
  split; [by apply pass_order_with|].
  split; [intros sym st Hst; by apply sell_on_empty_queue|].
  pose proof (roundTrips_without_sell_perm l1 l2 o Hf Hside Hq) as Hperm.
  split; [|split; [|split; [|split; [|split]]]].
  - intros s. rewrite !tripsOf_Analytics, !tripsOf_Positions.
    by rewrite (proj1 (Hsame s)).
  - rewrite !Analytics_roundTrips_closed, !sortBy_perm. exact Hperm.
  - exact Hperm.
  - intros s Hs. rewrite !symbolStats_closed.
    rewrite decide_True by (by apply elem_of_symbolsOf_insert).
    rewrite decide_True by done. by rewrite (proj2 (Hsame s)).
  - intros Hout. rewrite !symbolStats_closed.
    rewrite (decide_False (P := symbol o ∈ symbolsOf (l1 ++ l2))) by done.
    rewrite decide_True.
    2:{ apply elem_of_symbolsOf. exists o. split; [|done].
        rewrite elem_of_app, elem_of_cons. tauto. }
    split; [|done]. rewrite (proj2 (Hsame (symbol o))).
    by rewrite symbolOrders_none.
  - intros Hseen.
    assert (Hpos : Positions.roundTrips (Some (l1 ++ o :: l2))
                   = Positions.roundTrips (Some (l1 ++ l2))).
    { rewrite !Positions_roundTrips_closed, symbolsOf_insert_seen by done.
      f_equal. apply map_ext. intros s. apply Hsame. }
    split.
    + by rewrite !Analytics_roundTrips_closed, Hpos.
    + rewrite (surjective_pairing (Positions.tradeHistory (Some (l1 ++ o :: l2)))).
      rewrite (surjective_pairing (Positions.tradeHistory (Some (l1 ++ l2)))).
      f_equal; [exact Hpos|].
      apply map_eq. intros s.
      change (Positions.symbolStats (Some (l1 ++ o :: l2)) !! s
              = Positions.symbolStats (Some (l1 ++ l2)) !! s).
      rewrite !symbolStats_closed, symbolsOf_insert_seen by done.
      by rewrite (proj2 (Hsame s)).
Qed.

Lemma C3_sell_on_empty_queue_witness :
  Analytics.roundTrips (Some (wellFormedRest ++ earlySell :: laterOrders))
  = Analytics.roundTrips (Some (wellFormedRest ++ laterOrders)).
Proof.
  refine (proj1 (proj2 (proj2 (proj2 (proj2 (proj2 (proj2 (proj2
    (C3_sell_on_empty_queue wellFormedRest laterOrders earlySell _ _ _))))))) _)).
  - reflexivity.
  - reflexivity.
  - vm_compute. reflexivity.
  - unfold symbolsOf. vm_compute. apply list_elem_of_here.
Defined.

(** A sell that finds its queue empty and is the first order of its symbol:
    with it the round trips of its symbol come first, without it they come
    last, in both matchers. *)
Lemma C3_order_of_symbols_differs :
  isFilled earlySell = true
  ∧ side earlySell = "sell"
  ∧ queueFoundBy [] earlySell laterOrders = []
  ∧ map rt_symbol (Analytics.roundTrips (Some ([] ++ earlySell :: laterOrders)))
    = ["AAPL"; "MSFT"]
  ∧ map rt_symbol (Analytics.roundTrips (Some ([] ++ laterOrders)))
    = ["MSFT"; "AAPL"]
  ∧ Analytics.roundTrips (Some ([] ++ earlySell :: laterOrders))
    ≠ Analytics.roundTrips (Some ([] ++ laterOrders))
  ∧ Positions.roundTrips (Some ([] ++ earlySell :: laterOrders))
    ≠ Positions.roundTrips (Some ([] ++ laterOrders)).
Proof.
  repeat split; try (vm_compute; reflexivity); vm_compute; discriminate.
Qed.

(** ** C4: ordering of the output *)

(** C4, as the code has it: the Analytics matcher returns the round trips
    sorted ascending by [sellDate]; the Trade History matcher returns the
    same round trips unsorted, symbol after symbol in the order in which the
    symbols first occur among the filled orders. *)
Theorem C4_sorted_by_sell_date (orders : list order) :
  ascendingBy sellDate (Analytics.roundTrips (Some orders))
  ∧ Analytics.roundTrips (Some orders) ≡ₚ Positions.roundTrips (Some orders)
  ∧ Positions.roundTrips (Some orders)
    = concat (map (λ s, symTrips s (symbolOrders s orders)) (symbolsOf orders)).
Proof.
  split; [|split].
  - rewrite Analytics_roundTrips_closed.
    apply (sortBy_ascending sellDate bySellDate bySellDate_key).
  - rewrite Analytics_roundTrips_closed. apply sortBy_perm.
  - apply Positions_roundTrips_closed.
Qed.

(** The Trade History matcher's output need not be sorted by [sellDate]:
    here the round trip sold at 4 comes before the one sold at 3. *)
Lemma C4_positions_not_sorted :
  map sellDate (Positions.roundTrips (Some unsortedOrders)) = [4; 3]%Z
  ∧ ¬ ascendingBy sellDate (Positions.roundTrips (Some unsortedOrders)).
Proof.
  assert (Hd : map sellDate (Positions.roundTrips (Some unsortedOrders)) = [4; 3]%Z)
    by (vm_compute; reflexivity).
  split; [exact Hd|]. intros H.
  destruct (Positions.roundTrips (Some unsortedOrders)) as [|a [|b [|c l]]];
    try discriminate.
  injection Hd as Ha Hb.
  apply StronglySorted_inv in H as [_ H].
  apply Forall_cons_1 in H as [H _]. lia.
Qed.

(** ** C5: the daily series *)

(** C5: for a non-empty sequence of round trips, [dailyPL] has exactly one
    entry for every day from the earliest to the latest sell day, in
    ascending order, and a day without a sale has the value 0; the round
    trips' [pl] being finite numbers, the value of every day is the sum of
    [pl] over the round trips sold that day. *)
Theorem C5_daily_series (offset : Z → Z) (rt : roundTrip) (rts : list roundTrip) :
  map Analytics.d_date (Analytics.dailyPL offset (rt :: rts))
  = seqZ (earliestSellDay offset rt rts)
         (latestSellDay offset rt rts - earliestSellDay offset rt rts + 1)
  ∧ (∀ entry, entry ∈ Analytics.dailyPL offset (rt :: rts) →
       soldOn offset (Analytics.d_date entry) (rt :: rts) = [] →
       Analytics.d_pl entry = zero)
  ∧ (Forall (λ rt, isFinite (pl rt)) (rt :: rts) →
     ∀ entry, entry ∈ Analytics.dailyPL offset (rt :: rts) →
       Analytics.d_pl entry
       = sumBy pl (soldOn offset (Analytics.d_date entry) (rt :: rts))).
Proof.
  split; [|split].
  - rewrite dailyPL_days, map_map. cbn [Analytics.d_date]. apply map_id.
  - intros entry Hentry Hnone. rewrite dailyPL_days in Hentry.
    apply list_elem_of_fmap in Hentry as (day & -> & _).
    cbn [Analytics.d_date Analytics.d_pl] in *.
    apply soldOn_nil_iff in Hnone. unfold Analytics.getOrZero.
    by rewrite (proj2 (fold_addTrip_None offset _ ∅ day) (conj (lookup_empty day) Hnone)).
  - intros Hfin entry Hentry. rewrite dailyPL_closed in Hentry by done.
    by apply list_elem_of_fmap in Hentry as (day & -> & _).
Qed.

(** Round trips sold on day 1 and on day 3 only: three entries, the one of
    day 2 with the value 0. *)
Lemma C5_daily_series_witness :
  Forall (λ entry,
            Analytics.d_pl entry
            = sumBy pl (soldOn utc (Analytics.d_date entry)
                          [trip1 "AAPL" 0 86400000; trip2 "AAPL" 0 259200000]))
         (Analytics.dailyPL utc [trip1 "AAPL" 0 86400000; trip2 "AAPL" 0 259200000]).
Proof.
  apply Forall_forall.
  refine (proj2 (proj2 (C5_daily_series utc (trip1 "AAPL" 0 86400000)
                          [trip2 "AAPL" 0 259200000])) _).
  repeat constructor; by eexists.
Defined.

Example dailyPL_fills_the_gap :
  Analytics.dailyPL utc [trip1 "AAPL" 0 86400000; trip2 "AAPL" 0 259200000]
  = [ {| Analytics.d_date := 1; Analytics.d_pl := Finite 200 |};
      {| Analytics.d_date := 2; Analytics.d_pl := Finite 0 |};
      {| Analytics.d_date := 3; Analytics.d_pl := Finite 20 |} ].
Proof. vm_compute. reflexivity. Qed.

(** ** C6 and C7: the aggregate metrics *)

Lemma filter_Forall_true {A : Type} (p : A → bool) (l : list A) :
  Forall (λ x, p x = true) (List.filter p l).
Proof.
  rewrite Forall_forall. intros x Hx.
  by apply list_elem_of_In, filter_In in Hx as [_ Hx].
Qed.

(** The sum over the losers is 0 only when there is none; otherwise its
    absolute value is above 0. *)
Lemma losers_sum (roundTrips : list roundTrip) :
  let losses := sumBy pl (List.filter Analytics.isLoser roundTrips) in
  losses = zero ∨ (losses ≠ zero ∧ ngtb (nabs losses) zero = true).
Proof.
  cbv zeta.
  destruct (sumBy_negative pl (List.filter Analytics.isLoser roundTrips)) as [H|H].
  - apply filter_Forall_true.
  - by left.
  - right. split; [|by apply nabs_negative]. intros E. by rewrite E in H.
Qed.

(** C6: [profitFactor] is the sum of [pl] over the winners divided by the
    absolute value of the sum over the losers; when the losers' sum is 0 it
    is [Infinity] if the winners' sum is above 0 and 0 if that sum is 0 too;
    the winners' sum is always one or the other. *)
Theorem C6_profit_factor (roundTrips : list roundTrip) :
  let wins := sumBy pl (List.filter Analytics.isWinner roundTrips) in
  let losses := sumBy pl (List.filter Analytics.isLoser roundTrips) in
  (losses ≠ zero →
     Analytics.profitFactor (Analytics.metrics roundTrips) = ndiv wins (nabs losses))
  ∧ (losses = zero → ngtb wins zero = true →
     Analytics.profitFactor (Analytics.metrics roundTrips) = PosInf)
  ∧ (losses = zero → wins = zero →
     Analytics.profitFactor (Analytics.metrics roundTrips) = zero)
  ∧ (wins = zero ∨ ngtb wins zero = true).
Proof.
  cbv zeta.
  assert (Hw : sumBy pl (List.filter Analytics.isWinner roundTrips) = zero
               ∨ ngtb (sumBy pl (List.filter Analytics.isWinner roundTrips)) zero = true)
    by apply sumBy_nonnegative, filter_Forall_true.
  destruct roundTrips as [|rt rts].
  { repeat split; done. }
  unfold Analytics.metrics. cbn [length Nat.eqb Analytics.profitFactor].
  set (wins := sumBy pl (List.filter Analytics.isWinner (rt :: rts))) in *.
  set (losses := sumBy pl (List.filter Analytics.isLoser (rt :: rts))).
  destruct (losers_sum (rt :: rts)) as [Hl|[Hl Habs]]; fold losses in Hl.
  - repeat split; try done.
    + intros _ Hpos. rewrite Hl. change (ngtb (nabs zero) zero) with false.
      cbv iota. by rewrite Hpos.
    + intros _ Hz. rewrite Hl, Hz. reflexivity.
  - fold losses in Habs. repeat split; try done.
    intros _. by rewrite Habs.
Qed.

(** Winners summing to 50 and no loser: the profit factor is [Infinity]. *)
Lemma C6_profit_factor_witness :
  Analytics.profitFactor
    (Analytics.metrics [trip1 "AAPL" 1 3; trip2 "AAPL" 2 3])
  = PosInf.
Proof.
  apply (proj1 (proj2 (C6_profit_factor [trip1 "AAPL" 1 3; trip2 "AAPL" 2 3])));
    reflexivity.
Defined.

(** C7: on the empty sequence [metrics] returns the defaults: no trade,
    every rate, sum and mean 0, no largest win and no largest loss. *)
Theorem C7_metrics_of_nothing :
  Analytics.metrics []
  = {| Analytics.totalTrades := 0;
       Analytics.winners := 0;
       Analytics.losers := 0;
       Analytics.winRate := zero;
       Analytics.totalPL := zero;
       Analytics.avgWin := zero;
       Analytics.avgLoss := zero;
       Analytics.avgWinPercent := zero;
       Analytics.avgLossPercent := zero;
       Analytics.profitFactor := zero;
       Analytics.largestWin := None;
       Analytics.largestLoss := None;
       Analytics.expectancy := zero |}
  ∧ Analytics.metrics (Analytics.roundTrips None) = Analytics.metrics []
  ∧ Analytics.metrics (Analytics.roundTrips (Some [])) = Analytics.metrics [].
Proof. repeat split. Qed.

(** ** C8 and C9: zero prices and malformed fields *)

Lemma percent_over_zero (price : num) (p : Q) :
  (p == 0)%Q →
  nmul (ndiv (nsub price (Finite p)) (Finite p)) hundred = percentOverZero price.
Proof.
  intros Hp. assert (Hs : Qsign p = Eq) by (by rewrite (Qsign_compat p 0 Hp)).
  destruct price as [s| | |]; cbn [nsub ndiv percentOverZero]; rewrite ?Hs; try done.
  rewrite Qsign_Qred, (Qsign_compat (s - p) s) by lra.
  by destruct (Qsign s).
Qed.

(** C8, as the code has it: against a buy lot whose price is 0,
    [plPercent] is no sentinel: it is [Infinity], [-Infinity] or NaN as the
    sell price is above 0, below 0, or 0 or NaN; it is never a finite
    number. *)
Theorem C8_percent_over_zero_price
    (orders : option (list order)) (rt : roundTrip) (p : Q) :
  rt ∈ Analytics.roundTrips orders ∨ rt ∈ Positions.roundTrips orders →
  buyPrice rt = Finite p → (p == 0)%Q →
  plPercent rt = percentOverZero (sellPrice rt)
  ∧ ∀ q, plPercent rt ≠ Finite q.
Proof.
  intros Hin Hbuy Hp.
  assert (Hshape : plPercent rt
            = nmul (ndiv (nsub (sellPrice rt) (buyPrice rt)) (buyPrice rt)) hundred).
  { pose proof (roundTrips_Forall
      (λ rt, plPercent rt
             = nmul (ndiv (nsub (sellPrice rt) (buyPrice rt)) (buyPrice rt)) hundred)
      orders (λ _ _ _ _ _, eq_refl)) as [HP HA].
    destruct Hin as [Hin|Hin];
      [apply (proj1 (Forall_forall _ _) HA)|apply (proj1 (Forall_forall _ _) HP)];
      done. }
  rewrite Hshape, Hbuy, percent_over_zero by done. split; [done|].
  intros q. destruct (sellPrice rt) as [s| | |]; cbn; try done.
  by destruct (Qsign s).
Qed.

Lemma C8_percent_over_zero_price_witness :
  plPercent zeroPriceTrip = PosInf ∧ ∀ q, plPercent zeroPriceTrip ≠ Finite q.
Proof.
  refine (C8_percent_over_zero_price (Some zeroPriceOrders) zeroPriceTrip 0 _ _ _).
  - left. vm_compute. apply list_elem_of_here.
  - reflexivity.
  - reflexivity.
Defined.

(** A buy at price 0 closed at 120: the percentage is [Infinity]. *)
Lemma C8_percent_is_infinite :
  map (λ rt, (buyPrice rt, sellPrice rt, plPercent rt))
      (Analytics.roundTrips (Some zeroPriceOrders))
  = [(Finite 0, Finite 120, PosInf)]
  ∧ map (λ rt, (buyPrice rt, sellPrice rt, plPercent rt))
        (Positions.roundTrips (Some zeroPriceOrders))
    = [(Finite 0, Finite 120, PosInf)].
Proof. split; vm_compute; reflexivity. Qed.

(** A sell that meets a lot without quantity at the head of the queue. *)
Lemma sell_against_nan_lot sym st sell price date rest :
  side sell = "sell" →
  buyQueue st = mkLot NaN price date :: rest →
  ngtb (filled_qty sell) zero = true →
  allRoundTrips (processOrder sym st sell)
  = allRoundTrips st
    ++ [tripOf sym (filled_avg_price sell) (filled_at sell) NaN (mkLot NaN price date)]
  ∧ buyQueue (processOrder sym st sell) = buyQueue st.
Proof.
  intros Hside Hq Hpos. unfold processOrder. rewrite Hside, Hq.
  cbn [String.eqb Ascii.eqb Bool.eqb andb length Nat.eqb negb matchLoop].
  rewrite Hpos, Hq. unfold matchOnce. cbn [lot_qty lot_price lot_date].
  replace (nmin (filled_qty sell) NaN) with NaN by (by destruct (filled_qty sell)).
  replace (nsub (filled_qty sell) NaN) with NaN by (by destruct (filled_qty sell)).
  change (nleb (nsub NaN NaN) zero) with false. cbv iota.
  change (ngtb NaN zero) with false. cbv iota. cbn [snd allRoundTrips buyQueue].
  done.
Qed.

Lemma sell_without_quantity sym st o :
  side o = "sell" → filled_qty o = NaN → processOrder sym st o = st.
Proof.
  intros Hside Hqty. unfold processOrder. rewrite Hside, Hqty.
  cbn [String.eqb Ascii.eqb Bool.eqb andb].
  destruct (negb (Nat.eqb (length (buyQueue st)) 0)); reflexivity.
Qed.

(** C9, as the code has it: an order whose quantity or price is missing or
    not numeric is not skipped and nothing is counted.  The field is read as
    NaN and the order goes through the pass like any other: a buy opens its
    lot; a later sell that finds a lot without quantity at the head of the
    queue yields one round trip whose quantity is NaN and leaves the queue
    as it was; a sell without quantity matches nothing; the round trips of
    every other symbol are those of the input without the order. *)
Theorem C9_malformed_order_is_processed (l1 l2 : list order) (o : order) :
  filled_qty o = NaN ∨ filled_avg_price o = NaN →
  (∀ sym st, side o = "buy" →
     buyQueue (processOrder sym st o)
     = buyQueue st ++ [mkLot (filled_qty o) (filled_avg_price o) (filled_at o)]
     ∧ allRoundTrips (processOrder sym st o) = allRoundTrips st)
  ∧ (∀ sym st sell rest,
       filled_qty o = NaN → side sell = "sell" →
       ngtb (filled_qty sell) zero = true →
       buyQueue st = mkLot (filled_qty o) (filled_avg_price o) (filled_at o) :: rest →
       allRoundTrips (processOrder sym st sell)
       = allRoundTrips st
         ++ [tripOf sym (filled_avg_price sell) (filled_at sell) NaN
               (mkLot NaN (filled_avg_price o) (filled_at o))]
       ∧ buyQueue (processOrder sym st sell) = buyQueue st)
  ∧ (∀ sym st, filled_qty o = NaN → side o = "sell" → processOrder sym st o = st)
  ∧ (∀ s, s ≠ symbol o →
       tripsOf s (Analytics.roundTrips (Some (l1 ++ o :: l2)))
       = tripsOf s (Analytics.roundTrips (Some (l1 ++ l2)))
       ∧ tripsOf s (Positions.roundTrips (Some (l1 ++ o :: l2)))
         = tripsOf s (Positions.roundTrips (Some (l1 ++ l2)))).
Proof.
  intros _. split; [|split; [|split]].
  - intros sym st Hside. unfold processOrder. by rewrite Hside.
  - intros sym st sell rest Hnan Hside Hpos Hq. rewrite Hnan in Hq.
    by apply (sell_against_nan_lot sym st sell _ _ rest).
  - intros sym st Hnan Hside. by apply sell_without_quantity.
  - intros s Hs. by apply other_symbols_unaffected.
Qed.

Lemma C9_malformed_order_is_processed_witness :
  buyQueue (processOrder "AAPL" (startPass []) malformedBuy)
  = [mkLot NaN (Finite 90) 1].
Proof.
  refine (proj1 (proj1 (C9_malformed_order_is_processed [] wellFormedRest
                          malformedBuy (or_introl eq_refl)) "AAPL" (startPass []) _)).
  reflexivity.
Defined.

(** With a buy whose quantity is not numeric in front, the matcher does not
    return the round trip of the well-formed orders: the malformed buy is
    matched, and the round trip has no quantity. *)
Lemma C9_malformed_order_not_skipped :
  map (λ rt, (rt_qty rt, buyPrice rt, sellPrice rt))
      (Analytics.roundTrips (Some wellFormedRest))
  = [(Finite 10, Finite 100, Finite 120)]
  ∧ map (λ rt, (rt_qty rt, buyPrice rt, sellPrice rt))
        (Analytics.roundTrips (Some (malformedBuy :: wellFormedRest)))
    = [(NaN, Finite 90, Finite 120)]
  ∧ Analytics.roundTrips (Some (malformedBuy :: wellFormedRest))
    ≠ Analytics.roundTrips (Some wellFormedRest)
  ∧ Positions.roundTrips (Some (malformedBuy :: wellFormedRest))
    ≠ Positions.roundTrips (Some wellFormedRest).
Proof.
  repeat split; try (vm_compute; reflexivity); vm_compute; discriminate.
Qed.

(** ** C10: the cumulative series *)

(** C10: for a non-empty sequence of round trips with finite [pl], the
    last entry of [cumulativePL] over [dailyPL] holds the sum of [pl] over
    all round trips, which is the [totalPL] of [metrics], in two cases: when
    the round trips stand in the order of their sale with no two sold on the
    same day, so that both sums add the same numbers in the same order; and
    when every [pl] is an integer and their absolute values sum to at most
    2^53, so that no addition rounds. *)
Theorem C10_cumulative_against_total
    (offset : Z → Z) (rt : roundTrip) (rts : list roundTrip) :
  Forall (λ rt, isFinite (pl rt)) (rt :: rts) →
  StronglySorted (λ a b, (sellDay offset a < sellDay offset b)%Z) (rt :: rts)
  ∨ (Forall (λ rt, integral (pl rt)) (rt :: rts)
     ∧ nleb (sumBy (λ rt, nabs (pl rt)) (rt :: rts)) twoTo53 = true) →
  Analytics.cumulative
    <$> last (Analytics.cumulativePL (Analytics.dailyPL offset (rt :: rts)))
  = Some (Analytics.totalPL (Analytics.metrics (rt :: rts)))
  ∧ Analytics.totalPL (Analytics.metrics (rt :: rts)) = sumBy pl (rt :: rts).
Proof.
  intros Hfin _. split; [|done].
  change (Analytics.totalPL (Analytics.metrics (rt :: rts))) with (sumBy pl (rt :: rts)).
  rewrite dailyPL_closed by done.
  set (first := earliestSellDay offset rt rts). set (final := latestSellDay offset rt rts).
  assert (Hrange : ∀ x, x ∈ rt :: rts → (first ≤ sellDay offset x ≤ final)%Z).
  { intros x Hx. split; [by apply earliestSellDay_le|by apply latestSellDay_ge]. }
  assert (Hne : seqZ first (final - first + 1) ≠ []).
  { pose proof (Hrange rt (list_elem_of_here _ _)).
    rewrite seqZ_cons by lia. done. }
  assert (Hlen : Nat.eqb (length (seqZ first (final - first + 1))) 0 = false).
  { by destruct (seqZ first (final - first + 1)). }
  unfold Analytics.cumulativePL. rewrite length_map, Hlen.
  rewrite last_runningTotal by (by destruct (seqZ first (final - first + 1))).
  f_equal.
  set (daySum := λ day, sumBy pl (soldOn offset day (rt :: rts))).
  assert (Hfold : fold_left (λ sum day, nadd sum (Analytics.d_pl day))
                    (map (λ day, {| Analytics.d_date := day;
                                    Analytics.d_pl := daySum day |})
                         (seqZ first (final - first + 1))) zero
                  = sumBy daySum (seqZ first (final - first + 1))).
  { unfold sumBy. generalize zero. generalize (seqZ first (final - first + 1)).
    intros l. induction l as [|x l IH]; intros c; [done|]. cbn [map fold_left]. apply IH. }
  etrans; [exact Hfold|]. clear Hfold.
  assert (Hday : ∀ day, ∃ q, daySum day = Finite q
                             ∧ (q == qsum pl (soldOn offset day (rt :: rts)))%Q).
  { intros day. apply sumBy_finite. by apply soldOn_Forall. }
  assert (HdayFin : Forall (λ day, isFinite (daySum day)) (seqZ first (final - first + 1))).
  { rewrite Forall_forall. intros day _. destruct (Hday day) as (q & Hq & _). by exists q. }
  apply canonical_eq.
  - by apply sumBy_canonical.
  - by apply sumBy_canonical.
  - destruct (sumBy_finite daySum _ HdayFin) as (q & -> & Hq).
    destruct (sumBy_finite pl _ Hfin) as (t & -> & Ht). cbn [val].
    rewrite Hq, Ht.
    rewrite <- (qsum_by_day offset (rt :: rts) (seqZ first (final - first + 1))).
    + apply qsum_ext. intros day _. destruct (Hday day) as (x & -> & Hx). by cbn [val].
    + apply NoDup_seqZ.
    + rewrite Forall_forall. intros x Hx. apply elem_of_seqZ.
      pose proof (Hrange x Hx). lia.
Qed.

Lemma C10_cumulative_against_total_witness :
  Analytics.cumulative
    <$> last (Analytics.cumulativePL
                (Analytics.dailyPL utc [trip1 "AAPL" 0 86400000; trip2 "AAPL" 0 259200000]))
  = Some (Finite 220).
Proof.
  refine (proj1 (C10_cumulative_against_total utc (trip1 "AAPL" 0 86400000)
                   [trip2 "AAPL" 0 259200000] _ _)).
  - repeat constructor; by eexists.
  - left. repeat constructor.
Defined.

(** With two sales on one day the two sums group the same numbers in
    different ways, and differ: for round trips with a P/L of 0.1 on the first
    day and of 0.2 and 0.3 on the second, the cumulative series ends at
    0.1 + (0.2 + 0.3), which is 0.6 in binary64, and [totalPL] is
    (0.1 + 0.2) + 0.3, which is 0.6000000000000001. *)
Lemma C10_regrouping_rounds :
  map Double.pl (Double.Analytics.roundTrips (Some Double.tenthsOrders))
  = [0.1%float; 0.2%float; 0.3%float]
  ∧ Double.Analytics.cumulative
      <$> last (Double.Analytics.cumulativePL
                  (Double.Analytics.dailyPL utc
                     (Double.Analytics.roundTrips (Some Double.tenthsOrders))))
    = Some 0.6%float
  ∧ Double.Analytics.totalPL (Double.Analytics.roundTrips (Some Double.tenthsOrders))
    = 0.6000000000000001%float
  ∧ PrimFloat.eqb 0.6%float 0.6000000000000001%float = false.
Proof. vm_compute. repeat split; reflexivity. Qed.
(** ** The loop, the order of the round trips and the counters *)

Lemma matchLoop_trips_bound fuel sym price date sellQty st :
  length (allRoundTrips (snd (matchLoop fuel sym price date sellQty st)))
  ≤ length (allRoundTrips st) + fuel.
Proof.
  revert sellQty st. induction fuel as [|fuel IH]; intros sellQty st.
  - cbn [matchLoop snd]. lia.
  - cbn [matchLoop]. destruct (ngtb sellQty zero); [|cbn [snd]; lia].
    destruct (buyQueue st) as [|buy rest]; [cbn [snd]; lia|].
    unfold matchOnce. etrans; [apply IH|]. cbn [allRoundTrips].
    rewrite length_app. cbn [length]. lia.
Qed.

(** X1: the [while] loop of a sell always ends: with any bound of at least
    one turn per open lot and one more it gives the same result, stops
    because its own condition is false, and has added at most one round trip
    per open lot and one more. *)
Theorem X1_loop_ends fuel sym price date sellQty st :
  S (length (buyQueue st)) ≤ fuel →
  matchLoop fuel sym price date sellQty st
  = matchLoop (S (length (buyQueue st))) sym price date sellQty st
  ∧ loopCond (fst (matchLoop fuel sym price date sellQty st))
             (snd (matchLoop fuel sym price date sellQty st)) = false
  ∧ length (allRoundTrips (snd (matchLoop fuel sym price date sellQty st)))
    ≤ length (allRoundTrips st) + S (length (buyQueue st)).
Proof.
  intros Hfuel. rewrite (matchLoop_fuel fuel) by done. split; [done|]. split.
  - pose proof (matchLoop_exits sym price date sellQty st) as H.
    by destruct (matchLoop (S (length (buyQueue st))) sym price date sellQty st).
  - apply matchLoop_trips_bound.
Qed.

Lemma X1_loop_ends_witness :
  loopCond
    (fst (matchLoop 5 "AAPL" (Finite 120) 3 (Finite 12)
            {| allRoundTrips := []; buyQueue := [openLot 2];
               realizedPL := zero; winCount := 0; lossCount := 0 |}))
    (snd (matchLoop 5 "AAPL" (Finite 120) 3 (Finite 12)
            {| allRoundTrips := []; buyQueue := [openLot 2];
               realizedPL := zero; winCount := 0; lossCount := 0 |}))
  = false.
Proof.
  refine (proj1 (proj2 (X1_loop_ends 5 "AAPL" (Finite 120) 3 (Finite 12)
    {| allRoundTrips := []; buyQueue := [openLot 2];
       realizedPL := zero; winCount := 0; lossCount := 0 |} _))).
  cbn [length buyQueue]. lia.
Defined.

Lemma ascendingBy_snoc {A : Type} (key : A → Z) (l : list A) (x : A) :
  ascendingBy key l → Forall (λ a, (key a ≤ key x)%Z) l →
  ascendingBy key (l ++ [x]).
Proof.
  unfold ascendingBy. induction 1 as [|a l Hl IH Ha]; intros Hx; cbn [app].
  - repeat constructor.
  - apply Forall_cons_1 in Hx as [Hax Hx]. constructor; [by apply IH|].
    apply Forall_app. split; [done|]. by constructor.
Qed.

Lemma chronological_mono t t' st :
  chronological t st → (t ≤ t')%Z → chronological t' st.
Proof.
  intros (H1 & H2 & H3 & H4 & H5 & H6 & H7) Hle. repeat split; try done.
  - eapply Forall_impl; [exact H2|]. cbn. intros; lia.
  - eapply Forall_impl; [exact H4|]. cbn. intros; lia.
Qed.

Lemma matchOnce_chronological sym price date sellQty buy rest st :
  chronological date st →
  buyQueue st = buy :: rest →
  chronological date (snd (matchOnce sym price date sellQty buy rest st)).
Proof.
  intros (H1 & H2 & H3 & H4 & H5 & H6 & H7) Hq. rewrite Hq in H1, H2, H7.
  apply StronglySorted_inv in H1 as [Hrest Hhead].
  apply Forall_cons_1 in H2 as [Hbuy Hrest_le].
  unfold matchOnce, chronological. cbn [snd allRoundTrips buyQueue].
  set (buy' := {| lot_qty := _ |}).
  set (rt := tripOf sym price date _ buy).
  assert (Hqueue : ∀ P : lot → Prop, P buy → (P buy → P buy') → Forall P rest →
            Forall P (if nleb (lot_qty buy') zero then rest else buy' :: rest)).
  { intros P Pb Pb' Pr. destruct (nleb (lot_qty buy') zero); [done|].
    constructor; [by apply Pb'|done]. }
  repeat split.
  - destruct (nleb (lot_qty buy') zero); [done|]. by constructor.
  - by apply Hqueue.
  - apply ascendingBy_snoc; [done|]. exact H4.
  - apply Forall_app. split; [done|]. constructor; [|constructor]. cbn. lia.
  - apply ascendingBy_snoc; [done|].
    eapply Forall_impl; [exact H7|]. cbn. intros x Hx.
    by apply Forall_cons_1 in Hx as [? _].
  - apply Forall_app. split; [done|]. by constructor; [|constructor].
  - apply Forall_app. split.
    + eapply Forall_impl; [exact H7|]. cbn. intros x Hx.
      apply Forall_cons_1 in Hx as [Hxb Hxr]. by apply Hqueue.
    + constructor; [|constructor]. apply Hqueue; [cbn; lia|done|exact Hhead].
Qed.

Lemma matchLoop_chronological fuel sym price date sellQty st :
  chronological date st →
  chronological date (snd (matchLoop fuel sym price date sellQty st)).
Proof.
  revert sellQty st. induction fuel as [|fuel IH]; intros sellQty st H; [done|].
  cbn [matchLoop]. destruct (ngtb sellQty zero); [|done].
  destruct (buyQueue st) as [|buy rest] eqn:Hq; [done|].
  pose proof (matchOnce_chronological sym price date sellQty buy rest st H Hq) as H'.
  destruct (matchOnce sym price date sellQty buy rest st) as [s' st'].
  by apply IH.
Qed.

Lemma processOrder_chronological t sym st o :
  chronological t st → (t ≤ filled_at o)%Z →
  chronological (filled_at o) (processOrder sym st o).
Proof.
  intros H Hle. apply (chronological_mono _ _ _ H) in Hle as H'. clear H.
  unfold processOrder. destruct (String.eqb (side o) "buy").
  - destruct H' as (H1 & H2 & H3 & H4 & H5 & H6 & H7).
    unfold chronological. cbn [allRoundTrips buyQueue].
    repeat split; try done.
    + by apply ascendingBy_snoc.
    + apply Forall_app. split; [done|]. constructor; [|constructor]. cbn. lia.
    + rewrite Forall_forall in H4, H6, H7. rewrite Forall_forall. intros rt Hrt.
      apply Forall_app. split; [by apply H7|]. constructor; [|constructor].
      cbn. specialize (H4 rt Hrt). specialize (H6 rt Hrt). cbn in *. lia.
  - destruct (String.eqb (side o) "sell" && negb (Nat.eqb (length (buyQueue st)) 0));
      [|done].
    by apply matchLoop_chronological.
Qed.

Lemma fold_processOrder_chronological sym os : ∀ t st,
  chronological t st →
  ascendingBy filled_at os → Forall (λ o, (t ≤ filled_at o)%Z) os →
  ∃ t', chronological t' (fold_left (processOrder sym) os st).
Proof.
  induction os as [|o os IH]; intros t st H Hsorted Hlater; [by exists t|].
  cbn [fold_left]. apply StronglySorted_inv in Hsorted as [Hos Ho].
  apply Forall_cons_1 in Hlater as [Hto _].
  apply (IH (filled_at o)); [by apply (processOrder_chronological t)|done|done].
Qed.

(** The round trips of one symbol's pass stand in the order of their sell
    dates and of their buy dates, and none is sold before it was bought. *)
Lemma symTrips_chronological sym os :
  ascendingBy sellDate (symTrips sym os)
  ∧ ascendingBy buyDate (symTrips sym os)
  ∧ Forall (λ rt, (buyDate rt ≤ sellDate rt)%Z) (symTrips sym os).
Proof.
  unfold symTrips, processSymbol.
  pose proof (sortBy_ascending filled_at byFilledAt byFilledAt_key os) as Hsorted.
  assert (Hstart : ∀ t, chronological t (startPass [])).
  { intros t. repeat split; constructor. }
  destruct (sortBy byFilledAt os) as [|o l] eqn:E; [repeat split; constructor|].
  destruct (fold_processOrder_chronological sym (o :: l) (filled_at o) (startPass []))
    as (t' & H1 & H2 & H3 & H4 & H5 & H6 & H7); [done|done| |done].
  apply StronglySorted_inv in Hsorted as [_ Hl]. constructor; [lia|exact Hl].
Qed.

Section SortedInput.
Context {A : Type}.
Variables (key : A → Z) (cmp : A → A → num).
Hypothesis cmp_key : ∀ x y, ngtb (cmp x y) zero = (key y <? key x)%Z.

(** Sorting leaves a sequence that is in order as it is. *)
Lemma sortBy_ascending_id (l : list A) : ascendingBy key l → sortBy cmp l = l.
Proof.
  induction 1 as [|x l Hl IH Hx]; [done|].
  rewrite sortBy_cons, IH. by apply (insertBy_head key).
Qed.

End SortedInput.

(** X2: on both pages no round trip is sold before it was bought: its buy
    date is at most its sell date. *)
Theorem X2_bought_before_sold (orders : option (list order)) :
  Forall (λ rt, (buyDate rt ≤ sellDate rt)%Z) (Positions.roundTrips orders)
  ∧ Forall (λ rt, (buyDate rt ≤ sellDate rt)%Z) (Analytics.roundTrips orders).
Proof.
  destruct orders as [orders|]; [|by split].
  assert (H : Forall (λ rt, (buyDate rt ≤ sellDate rt)%Z)
                (Positions.roundTrips (Some orders))).
  { rewrite Positions_roundTrips_closed. apply Forall_concat_map.
    intros s. apply symTrips_chronological. }
  split; [done|]. rewrite Analytics_roundTrips_closed.
  rewrite Forall_forall in H. rewrite Forall_forall. intros rt Hrt.
  apply H. by apply elem_of_sortBy in Hrt.
Qed.

(** X3: the round trips of one symbol are the same sequence on both pages,
    and they stand in the order of their sell dates and, first in first out,
    in the order of their buy dates. *)
Theorem X3_symbol_trips_in_time_order (orders : list order) (sym : string) :
  tripsOf sym (Analytics.roundTrips (Some orders))
  = tripsOf sym (Positions.roundTrips (Some orders))
  ∧ ascendingBy sellDate (tripsOf sym (Positions.roundTrips (Some orders)))
  ∧ ascendingBy buyDate (tripsOf sym (Positions.roundTrips (Some orders))).
Proof.
  rewrite tripsOf_Analytics, tripsOf_Positions.
  destruct (symTrips_chronological sym (symbolOrders sym orders)) as (Hs & Hb & _).
  split; [|done]. apply (sortBy_ascending_id sellDate); [apply bySellDate_key|done].
Qed.

(** ** The statistics of a symbol against its round trips *)

Lemma rate_percentage (w n : nat) :
  w ≤ n → n ≠ 0 →
  ∃ q, nmul (ndiv (ofNat w) (ofNat n)) hundred = Finite q
       ∧ (q == 100 * inject_Z (Z.of_nat w) / inject_Z (Z.of_nat n))%Q
       ∧ (0 <= q)%Q ∧ (q <= 100)%Q.
Proof.
  intros Hle Hn. unfold ofNat, ndiv, hundred.
  assert (HN : (0 < inject_Z (Z.of_nat n))%Q) by (unfold Qlt; simpl; lia).
  assert (HW : (0 <= inject_Z (Z.of_nat w))%Q) by (unfold Qle; simpl; lia).
  assert (HWN : (inject_Z (Z.of_nat w) <= inject_Z (Z.of_nat n))%Q)
    by (unfold Qle; simpl; lia).
  assert (Hs : Qsign (inject_Z (Z.of_nat n)) = Gt).
  { unfold Qsign. simpl. apply Z.compare_gt_iff. lia. }
  rewrite Hs. cbn [nmul]. eexists. split; [reflexivity|].
  set (W := inject_Z (Z.of_nat w)) in *. set (N := inject_Z (Z.of_nat n)) in *.
  assert (H0 : (0 <= W / N)%Q).
  { apply Qle_shift_div_l; [done|]. lra. }
  assert (H1 : (W / N <= 1)%Q).
  { apply Qle_shift_div_r; [done|]. lra. }
  rewrite !Qred_correct. repeat split; [|lra..].
  field. lra.
Qed.

Lemma filter_snoc {A : Type} (p : A → bool) (l : list A) (x : A) :
  List.filter p (l ++ [x]) = List.filter p l ++ (if p x then [x] else []).
Proof. rewrite List.filter_app. cbn [List.filter]. by destruct (p x). Qed.

Lemma matchOnce_counters sym price date sellQty buy rest st :
  countersAgree st →
  countersAgree (snd (matchOnce sym price date sellQty buy rest st)).
Proof.
  intros (Hpl & Hw & Hl). unfold matchOnce, countersAgree.
  cbn [snd allRoundTrips realizedPL winCount lossCount].
  set (rt := tripOf sym price date _ buy).
  rewrite sumBy_snoc, !filter_snoc, !length_app, Hpl, Hw, Hl.
  change (Analytics.isWinner rt) with (ngeb (pl rt) zero).
  destruct (ngeb (pl rt) zero); cbn [negb length]; repeat split; lia.
Qed.

Lemma matchLoop_counters fuel sym price date sellQty st :
  countersAgree st →
  countersAgree (snd (matchLoop fuel sym price date sellQty st)).
Proof.
  revert sellQty st. induction fuel as [|fuel IH]; intros sellQty st H; [done|].
  cbn [matchLoop]. destruct (ngtb sellQty zero); [|done].
  destruct (buyQueue st) as [|buy rest]; [done|].
  pose proof (matchOnce_counters sym price date sellQty buy rest st H) as H'.
  destruct (matchOnce sym price date sellQty buy rest st) as [s' st'].
  by apply IH.
Qed.

Lemma processOrder_counters sym st o :
  countersAgree st → countersAgree (processOrder sym st o).
Proof.
  intros H. unfold processOrder. destruct (String.eqb (side o) "buy"); [done|].
  destruct (String.eqb (side o) "sell" && negb (Nat.eqb (length (buyQueue st)) 0));
    [|done].
  by apply matchLoop_counters.
Qed.

Lemma processSymbol_counters sym os : countersAgree (processSymbol [] sym os).
Proof.
  unfold processSymbol.
  assert (H : countersAgree (startPass [])) by done.
  revert H. generalize (startPass []). generalize (sortBy byFilledAt os).
  intros l. induction l as [|o l IH]; intros st H; [done|].
  cbn [fold_left]. by apply IH, processOrder_counters.
Qed.

Lemma filter_length_le {A : Type} (p : A → bool) (l : list A) :
  length (List.filter p l) ≤ length l.
Proof.
  induction l as [|x l IH]; [done|]. cbn [List.filter].
  destruct (p x); cbn [length]; lia.
Qed.

Lemma filter_length_split {A : Type} (p : A → bool) (l : list A) :
  length (List.filter p l) + length (List.filter (λ x, negb (p x)) l) = length l.
Proof.
  induction l as [|x l IH]; [done|]. cbn [List.filter].
  destruct (p x); cbn [negb length]; lia.
Qed.

(** X4: the statistics the Trade History page keeps for a symbol agree with
    the symbol's round trips: [trades] is their number, [winCount] the number
    of those with a P/L of at least 0, [lossCount] the number of the others,
    [realizedPL] the sum of their P/L and [winRate] a number from 0 to 100; a
    symbol without statistics has no round trip. *)
Theorem X4_statistics_agree_with_trips (orders : list order) (sym : string) :
  match Positions.symbolStats (Some orders) !! sym with
  | Some stat =>
      let trips := tripsOf sym (Positions.roundTrips (Some orders)) in
      Positions.st_trades stat = length trips
      ∧ Positions.st_winCount stat = length (List.filter Analytics.isWinner trips)
      ∧ Positions.st_lossCount stat
        = length (List.filter (λ rt, negb (Analytics.isWinner rt)) trips)
      ∧ Positions.st_realizedPL stat = sumBy pl trips
      ∧ percentage (Positions.st_winRate stat)
  | None => tripsOf sym (Positions.roundTrips (Some orders)) = []
  end.
Proof.
  rewrite symbolStats_closed, tripsOf_Positions.
  destruct (decide (sym ∈ symbolsOf orders)) as [Hin|Hout];
    [|by rewrite symbolOrders_none].
  cbn zeta. unfold symStat, symTrips.
  destruct (processSymbol_counters sym (symbolOrders sym orders)) as (Hpl & Hw & Hl).
  set (st := processSymbol [] sym (symbolOrders sym orders)) in *.
  unfold Positions.statOf.
  cbn [Positions.st_trades Positions.st_winCount Positions.st_lossCount
       Positions.st_realizedPL Positions.st_winRate].
  pose proof (filter_length_split Analytics.isWinner (allRoundTrips st)) as Hsplit.
  repeat split; [lia|done|done|done|].
  destruct (Nat.eqb_spec (winCount st + lossCount st) 0) as [E|E]; cbn [negb].
  - exists 0%Q. repeat split; [lra|]. unfold Qle; simpl; lia.
  - destruct (rate_percentage (winCount st) (winCount st + lossCount st))
      as (q & Hq & _ & H0 & H1); [lia|done|]. by exists q.
Qed.

(** ** Quantities *)

Lemma nmin_positive (s : num) (b : Q) :
  ngtb s zero = true → (0 < b)%Q →
  ∃ m, nmin s (Finite b) = Finite m ∧ (0 < m)%Q ∧ (m <= b)%Q.
Proof.
  intros Hs Hb. destruct (ngtb_zero_cases s Hs) as [->|(x & -> & Hx)].
  - exists b. repeat split; [done|lra].
  - cbn. destruct (Qle_bool x b) eqn:E.
    + apply Qle_bool_iff in E. exists x. repeat split; lra.
    + exists b. repeat split; lra.
Qed.

Lemma matchOnce_positive sym price date sellQty buy rest st :
  quantitiesPositive st →
  buyQueue st = buy :: rest →
  ngtb sellQty zero = true →
  quantitiesPositive (snd (matchOnce sym price date sellQty buy rest st)).
Proof.
  intros (Hq & Ht) Hst Hs. rewrite Hst in Hq.
  apply Forall_cons_1 in Hq as [(b & Hb & Hbpos) Hrest].
  destruct (nmin_positive sellQty b Hs Hbpos) as (m & Hm & Hmpos & Hmb).
  unfold matchOnce, quantitiesPositive.
  cbn [snd buyQueue allRoundTrips]. rewrite Hb, Hm. cbn [nsub lot_qty nleb zero].
  rewrite Qle_bool_Qred_l. split.
  - destruct (Qle_bool (b - m) 0) eqn:E; [done|].
    apply Qle_bool_false in E. constructor; [|done].
    exists (Qred (b - m)). split; [done|]. rewrite Qred_correct. lra.
  - apply Forall_app. split; [done|]. constructor; [|constructor]. by exists m.
Qed.

Lemma matchLoop_positive fuel sym price date sellQty st :
  quantitiesPositive st →
  quantitiesPositive (snd (matchLoop fuel sym price date sellQty st)).
Proof.
  revert sellQty st. induction fuel as [|fuel IH]; intros sellQty st H; [done|].
  cbn [matchLoop]. destruct (ngtb sellQty zero) eqn:Hs; [|done].
  destruct (buyQueue st) as [|buy rest] eqn:Hq; [done|].
  pose proof (matchOnce_positive sym price date sellQty buy rest st H Hq Hs) as H'.
  destruct (matchOnce sym price date sellQty buy rest st) as [s' st'].
  by apply IH.
Qed.

Lemma processOrder_positive sym st o :
  quantitiesPositive st →
  (isBuy o = true → positive (filled_qty o)) →
  quantitiesPositive (processOrder sym st o).
Proof.
  intros H Hbuy. unfold processOrder. unfold isBuy in *.
  destruct (String.eqb (side o) "buy").
  - destruct H as (Hq & Ht). split; [|done]. cbn [buyQueue].
    apply Forall_app. split; [done|]. constructor; [|constructor]. by apply Hbuy.
  - destruct (String.eqb (side o) "sell" && negb (Nat.eqb (length (buyQueue st)) 0));
      [|done].
    by apply matchLoop_positive.
Qed.

Lemma fold_processOrder_positive sym os st :
  quantitiesPositive st →
  Forall (λ o, isBuy o = true → positive (filled_qty o)) os →
  quantitiesPositive (fold_left (processOrder sym) os st).
Proof.
  revert st. induction os as [|o os IH]; intros st H Hbuys; [done|].
  apply Forall_cons_1 in Hbuys as [Ho Hos]. cbn [fold_left].
  apply IH; [by apply processOrder_positive|done].
Qed.

(** Quantities above 0 bought, quantities above 0 matched. *)
Lemma symTrips_positive sym os :
  Forall (λ o, positive (filled_qty o)) (List.filter isBuy os) →
  Forall (λ rt, positive (rt_qty rt)) (symTrips sym os).
Proof.
  intros Hbuys. unfold symTrips, processSymbol.
  apply fold_processOrder_positive; [by split|].
  rewrite Forall_forall in Hbuys. rewrite Forall_forall. intros o Ho Hb.
  apply Hbuys, list_elem_of_In, filter_In. split; [|done].
  by apply elem_of_sortBy, list_elem_of_In in Ho.
Qed.

(** X5: when the filled buy orders of a symbol hold quantities above 0,
    every round trip of the symbol, on either page, matches a quantity above
    0. *)
Theorem X5_matched_quantities_positive (orders : list order) (sym : string) :
  Forall (λ o, positive (filled_qty o)) (buysOf sym orders) →
  Forall (λ rt, positive (rt_qty rt)) (tripsOf sym (Positions.roundTrips (Some orders)))
  ∧ Forall (λ rt, positive (rt_qty rt)) (tripsOf sym (Analytics.roundTrips (Some orders))).
Proof.
  intros Hbuys. rewrite tripsOf_Analytics, tripsOf_Positions.
  pose proof (symTrips_positive sym (symbolOrders sym orders) Hbuys) as H.
  split; [done|]. rewrite Forall_forall in H. rewrite Forall_forall.
  intros rt Hrt. apply H. by apply elem_of_sortBy in Hrt.
Qed.

Lemma X5_matched_quantities_positive_witness :
  Forall (λ rt, positive (rt_qty rt))
    (tripsOf "AAPL"
       (Positions.roundTrips (Some [sell3 "AAPL" 3; buy1 "AAPL" 1; buy2 "AAPL" 2]))).
Proof.
  refine (proj1 (X5_matched_quantities_positive
                   [sell3 "AAPL" 3; buy1 "AAPL" 1; buy2 "AAPL" 2] "AAPL" _)).
  repeat constructor.
  - exists 10%Q. split; [reflexivity|]. unfold Qlt; simpl; lia.
  - exists 5%Q. split; [reflexivity|]. unfold Qlt; simpl; lia.
Defined.

Lemma sumBy_canonical_all {A : Type} (f : A → num) (l : list A) :
  Forall (λ x, isFinite (f x)) l → canonical (sumBy f l).
Proof.
  intros H. destruct l as [|x l]; [by exists 0%Q|]. by apply sumBy_canonical.
Qed.

Lemma nonNegative_finite (a : num) : nonNegative a → isFinite a.
Proof. intros (q & -> & _). by eexists. Qed.

Lemma wholeNumber_nonNegative (a : num) : wholeNumber a → nonNegative a.
Proof.
  intros (z & Hz & ->). exists (inject_Z z). split; [done|].
  unfold Qle; simpl; lia.
Qed.

Lemma whole_buys (sym : string) (orders : list order) :
  Forall (λ o, wholeNumber (filled_qty o)) (symbolOrders sym orders) →
  Forall (λ o, nonNegative (filled_qty o)) (buysOf sym orders).
Proof.
  intros H. rewrite Forall_forall in H. rewrite Forall_forall. intros o Ho.
  apply wholeNumber_nonNegative, H.
  apply list_elem_of_In, filter_In in Ho as [Ho _]. by apply list_elem_of_In.
Qed.

(** X6: no bought quantity is lost: when the quantities of a symbol's
    filled orders are whole numbers and its buy quantities sum to at most
    2^53, so that no subtraction or addition of quantities rounds, what the
    symbol's round trips matched and what its lots still hold open at the end
    of the pass add up to what its buys bought. *)
Theorem X6_matched_and_open_make_bought (orders : list order) (sym : string) :
  Forall (λ o, wholeNumber (filled_qty o)) (symbolOrders sym orders) →
  nleb (sumBy filled_qty (buysOf sym orders)) twoTo53 = true →
  nadd (sumBy rt_qty (tripsOf sym (Positions.roundTrips (Some orders))))
       (sumBy lot_qty (openLots sym orders))
  = sumBy filled_qty (buysOf sym orders).
Proof.
  intros Hwhole _. pose proof (whole_buys sym orders Hwhole) as Hbuys. clear Hwhole.
  rewrite tripsOf_Positions. unfold openLots, symTrips, processSymbol.
  set (os := symbolOrders sym orders) in *.
  assert (Hperm : List.filter isBuy (sortBy byFilledAt os) ≡ₚ List.filter isBuy os).
  { rewrite (sortBy_filter filled_at byFilledAt byFilledAt_key). apply sortBy_perm. }
  assert (Hstart : quantitiesAccounted 0 (startPass [])).
  { repeat split; try constructor. }
  destruct (fold_processOrder_accounted 0 sym (sortBy byFilledAt os) (startPass [])
              Hstart) as (Hq & Ht & Hsum).
  { rewrite Forall_forall. intros o Ho. rewrite Hperm in Ho.
    by apply (proj1 (Forall_forall _ _) Hbuys). }
  set (st := fold_left (processOrder sym) (sortBy byFilledAt os) (startPass [])) in *.
  rewrite (qsum_perm filled_qty _ _ Hperm) in Hsum. fold (buysOf sym orders) in Hsum.
  assert (Hfq : Forall (λ b, isFinite (lot_qty b)) (buyQueue st)).
  { eapply Forall_impl; [exact Hq|]. intros b. apply nonNegative_finite. }
  assert (Hft : Forall (λ rt, isFinite (rt_qty rt)) (allRoundTrips st)).
  { eapply Forall_impl; [exact Ht|]. intros b. apply nonNegative_finite. }
  assert (Hfb : Forall (λ o, isFinite (filled_qty o)) (buysOf sym orders)).
  { eapply Forall_impl; [exact Hbuys|]. intros b. apply nonNegative_finite. }
  destruct (sumBy_finite lot_qty _ Hfq) as (a & Ha & Hasum).
  destruct (sumBy_finite rt_qty _ Hft) as (b & Hb & Hbsum).
  destruct (sumBy_finite filled_qty _ Hfb) as (c & Hc & Hcsum).
  apply canonical_eq.
  - apply canonical_nadd; by eexists.
  - by apply sumBy_canonical_all.
  - rewrite Ha, Hb, Hc. cbn [nadd val]. rewrite Qred_correct, Hasum, Hbsum, Hcsum.
    rewrite Hsum. unfold buysOf. subst os. ring.
Qed.

Lemma X6_matched_and_open_make_bought_witness :
  nadd (sumBy rt_qty
          (tripsOf "AAPL"
             (Positions.roundTrips
                (Some [sell3 "AAPL" 3; buy1 "AAPL" 1; buy2 "AAPL" 2]))))
       (sumBy lot_qty (openLots "AAPL" [sell3 "AAPL" 3; buy1 "AAPL" 1; buy2 "AAPL" 2]))
  = sumBy filled_qty (buysOf "AAPL" [sell3 "AAPL" 3; buy1 "AAPL" 1; buy2 "AAPL" 2]).
Proof.
  refine (X6_matched_and_open_make_bought
            [sell3 "AAPL" 3; buy1 "AAPL" 1; buy2 "AAPL" 2] "AAPL" _ _).
  - repeat constructor.
    + exists 12%Z. split; [lia|reflexivity].
    + exists 10%Z. split; [lia|reflexivity].
    + exists 5%Z. split; [lia|reflexivity].
  - reflexivity.
Defined.

Lemma matchLoop_sold bought fuel sym price date : ∀ s st,
  quantitiesAccounted bought st → (0 <= s)%Q →
  ∃ r, fst (matchLoop fuel sym price date (Finite s) st) = Finite r
       ∧ (0 <= r)%Q
       ∧ (qsum rt_qty (allRoundTrips (snd (matchLoop fuel sym price date (Finite s) st)))
          + r == qsum rt_qty (allRoundTrips st) + s)%Q.
Proof.
  induction fuel as [|fuel IH]; intros s st H Hs.
  { exists s. by repeat split. }
  cbn [matchLoop]. destruct (ngtb (Finite s) zero) eqn:Hpos;
    [|exists s; by repeat split].
  destruct (buyQueue st) as [|buy rest] eqn:Hq; [exists s; by repeat split|].
  pose proof (matchOnce_accounted bought sym price date (Finite s) buy rest st H Hq Hpos)
    as H'.
  destruct H as (Hlots & _ & _). rewrite Hq in Hlots.
  apply Forall_cons_1 in Hlots as [(b & Hb & Hbpos) _].
  assert (Hm : ∃ m, nmin (Finite s) (lot_qty buy) = Finite m ∧ (0 <= m)%Q ∧ (m <= s)%Q).
  { rewrite Hb. cbn. destruct (Qle_bool s b) eqn:E.
    - exists s. repeat split; lra.
    - apply Qle_bool_false in E. exists b. repeat split; lra. }
  destruct Hm as (m & Hm & Hm0 & Hms).
  unfold matchOnce in *. rewrite Hm in *. cbn [nsub snd] in *.
  destruct (IH (Qred (s - m)) _ H') as (r & Hr & Hr0 & Hsum).
  { rewrite Qred_correct. lra. }
  exists r. repeat split; [done..|]. rewrite Hsum. cbn [allRoundTrips].
  rewrite qsum_app, qsum_cons, qsum_nil. cbn [tripOf rt_qty val].
  rewrite Qred_correct. ring.
Qed.

Lemma isBuy_not_isSell (o : order) : isBuy o = true → isSell o = false.
Proof.
  unfold isBuy, isSell. intros H. apply String.eqb_eq in H. by rewrite H.
Qed.

Lemma processOrder_sold bought sym st o :
  quantitiesAccounted bought st →
  nonNegative (filled_qty o) →
  (qsum rt_qty (allRoundTrips (processOrder sym st o))
   <= qsum rt_qty (allRoundTrips st) + qsum filled_qty (List.filter isSell [o]))%Q.
Proof.
  intros H (s & Hs & Hs0). unfold processOrder. cbn [List.filter].
  destruct (String.eqb (side o) "buy") eqn:Hbuy.
  { rewrite (isBuy_not_isSell o Hbuy), qsum_nil. cbn [allRoundTrips]. lra. }
  unfold isSell. destruct (String.eqb (side o) "sell"); cbn [andb];
    [|rewrite qsum_nil; lra].
  rewrite qsum_cons, qsum_nil, Hs. cbn [val].
  destruct (negb (Nat.eqb (length (buyQueue st)) 0)); [|lra].
  destruct (matchLoop_sold bought (S (length (buyQueue st))) sym
              (filled_avg_price o) (filled_at o) s st H Hs0) as (r & _ & Hr0 & Hsum).
  lra.
Qed.

Lemma fold_processOrder_sold sym os : ∀ bought st,
  quantitiesAccounted bought st →
  Forall (λ o, nonNegative (filled_qty o)) os →
  (qsum rt_qty (allRoundTrips (fold_left (processOrder sym) os st))
   <= qsum rt_qty (allRoundTrips st) + qsum filled_qty (List.filter isSell os))%Q.
Proof.
  induction os as [|o os IH]; intros bought st H Hos.
  { cbn [fold_left List.filter]. rewrite qsum_nil. lra. }
  apply Forall_cons_1 in Hos as [Ho Hos]. cbn [fold_left].
  pose proof (processOrder_sold bought sym st o H Ho) as Hstep.
  pose proof (IH _ _ (processOrder_accounted bought sym st o H (λ _, Ho)) Hos) as Hrest.
  change (o :: os) with ([o] ++ os). rewrite List.filter_app, qsum_app. lra.
Qed.

(** One symbol's pass matches at most what the symbol's sells sold. *)
Lemma symTrips_at_most_sold sym os :
  Forall (λ o, nonNegative (filled_qty o)) os →
  (qsum rt_qty (symTrips sym os) <= qsum filled_qty (List.filter isSell os))%Q.
Proof.
  intros Hos.
  assert (Hperm : List.filter isSell (sortBy byFilledAt os) ≡ₚ List.filter isSell os).
  { rewrite (sortBy_filter filled_at byFilledAt byFilledAt_key). apply sortBy_perm. }
  assert (Hstart : quantitiesAccounted 0 (startPass [])).
  { repeat split; try constructor. }
  pose proof (fold_processOrder_sold sym (sortBy byFilledAt os) 0 (startPass []) Hstart)
    as H.
  unfold symTrips, processSymbol. rewrite <- (qsum_perm filled_qty _ _ Hperm).
  eapply Qle_trans; [apply H|].
  - rewrite Forall_forall in Hos. rewrite Forall_forall. intros o Ho.
    apply Hos. by apply elem_of_sortBy in Ho.
  - cbn [startPass allRoundTrips]. rewrite qsum_nil. lra.
Qed.

(** X7: when the quantities of a symbol's filled orders are whole numbers
    and its buy quantities and its sell quantities each sum to at most 2^53,
    so that no subtraction or addition of quantities rounds, the matched
    quantities of the symbol's round trips sum to at most the sum of the
    quantities of its filled sell orders, on both pages. *)
Theorem X7_matched_at_most_sold (orders : list order) (sym : string) :
  Forall (λ o, wholeNumber (filled_qty o)) (symbolOrders sym orders) →
  nleb (sumBy filled_qty (buysOf sym orders)) twoTo53 = true →
  nleb (sumBy filled_qty (sellsOf sym orders)) twoTo53 = true →
  nleb (sumBy rt_qty (tripsOf sym (Positions.roundTrips (Some orders))))
       (sumBy filled_qty (sellsOf sym orders)) = true
  ∧ nleb (sumBy rt_qty (tripsOf sym (Analytics.roundTrips (Some orders))))
         (sumBy filled_qty (sellsOf sym orders)) = true.
Proof.
  intros Hwhole _ _.
  assert (Hos : Forall (λ o, nonNegative (filled_qty o)) (symbolOrders sym orders)).
  { eapply Forall_impl; [exact Hwhole|]. intros o. apply wholeNumber_nonNegative. }
  clear Hwhole.
  assert (Hbuys : Forall (λ o, nonNegative (filled_qty o))
                    (List.filter isBuy (symbolOrders sym orders))).
  { rewrite Forall_forall in Hos. rewrite Forall_forall. intros o Ho.
    apply Hos. apply list_elem_of_In, filter_In in Ho as [Ho _].
    by apply list_elem_of_In. }
  destruct (symTrips_at_most_bought sym (symbolOrders sym orders) Hbuys) as [Hfin _].
  pose proof (symTrips_at_most_sold sym (symbolOrders sym orders) Hos) as Hle.
  destruct (sumBy_finite filled_qty (sellsOf sym orders)) as (b & Hb & Hbsum).
  { rewrite Forall_forall in Hos. rewrite Forall_forall. intros o Ho.
    apply nonNegative_finite, Hos.
    apply list_elem_of_In, filter_In in Ho as [Ho _]. by apply list_elem_of_In. }
  assert (Hgen : ∀ rts, rts ≡ₚ symTrips sym (symbolOrders sym orders) →
            nleb (sumBy rt_qty rts) (sumBy filled_qty (sellsOf sym orders)) = true).
  { intros rts Hperm.
    destruct (sumBy_finite rt_qty rts) as (t & Ht & Htsum).
    { rewrite Forall_forall. intros rt Hrt. rewrite Hperm in Hrt.
      apply nonNegative_finite. by apply (proj1 (Forall_forall _ _) Hfin rt). }
    rewrite Ht, Hb. cbn [nleb]. apply Qle_bool_iff.
    rewrite Htsum, Hbsum, (qsum_perm rt_qty _ _ Hperm). exact Hle. }
  split; apply Hgen.
  - by rewrite tripsOf_Positions.
  - rewrite tripsOf_Analytics. apply sortBy_perm.
Qed.

Lemma X7_matched_at_most_sold_witness :
  nleb (sumBy rt_qty
          (tripsOf "AAPL"
             (Positions.roundTrips
                (Some [sell3 "AAPL" 3; buy1 "AAPL" 1; buy2 "AAPL" 2]))))
       (sumBy filled_qty
          (sellsOf "AAPL" [sell3 "AAPL" 3; buy1 "AAPL" 1; buy2 "AAPL" 2]))
  = true.
Proof.
  refine (proj1 (X7_matched_at_most_sold
                   [sell3 "AAPL" 3; buy1 "AAPL" 1; buy2 "AAPL" 2] "AAPL" _ _ _)).
  - repeat constructor.
    + exists 12%Z. split; [lia|reflexivity].
    + exists 10%Z. split; [lia|reflexivity].
    + exists 5%Z. split; [lia|reflexivity].
  - reflexivity.
  - reflexivity.
Defined.

(** ** Grouping by symbol *)

Lemma filter_disjoint_perm {A : Type} (p q : A → bool) (l : list A) :
  (∀ x, p x = true → q x = false) →
  List.filter p l ++ List.filter q l ≡ₚ List.filter (λ x, p x || q x) l.
Proof.
  intros Hpq. induction l as [|x l IH]; [done|]. cbn [List.filter].
  destruct (p x) eqn:Hp; cbn [orb].
  - rewrite (Hpq x Hp). cbn [app]. by constructor.
  - destruct (q x).
    + rewrite <- Permutation_middle. by constructor.
    + done.
Qed.

Lemma filter_all {A : Type} (p : A → bool) (l : list A) :
  (∀ x, x ∈ l → p x = true) → List.filter p l = l.
Proof.
  induction l as [|x l IH]; intros H; [done|]. cbn [List.filter].
  rewrite (H x) by apply list_elem_of_here. f_equal. apply IH.
  intros y Hy. by apply H, list_elem_of_further.
Qed.

Lemma concat_by_symbol (F : list order) (keys : list string) :
  NoDup keys →
  concat (map (λ s, List.filter (ofSymbol s) F) keys)
  ≡ₚ List.filter (λ o, existsb (λ s, ofSymbol s o) keys) F.
Proof.
  induction 1 as [|k keys Hk Hnd IH]; cbn [map concat existsb].
  - induction F as [|o F IHF]; [done|]. done.
  - rewrite IH. apply filter_disjoint_perm.
    intros o Ho. unfold ofSymbol in Ho. apply String.eqb_eq in Ho. subst k.
    apply Bool.not_true_iff_false. intros Hex.
    apply existsb_exists in Hex as (s & Hs & Heq).
    unfold ofSymbol in Heq. apply String.eqb_eq in Heq. subst s.
    by apply Hk, list_elem_of_In.
Qed.

(** X8: grouping by symbol loses and repeats nothing: the groups have
    different symbols, each group is not empty and holds the filled orders of
    its symbol in the order of the input, and the groups together hold every
    filled order once. *)
Theorem X8_groups_partition_filled_orders (orders : list order) :
  NoDup (map fst (ordersBySymbol orders))
  ∧ Forall (λ group, snd group ≠ [] ∧ snd group = symbolOrders (fst group) orders)
           (ordersBySymbol orders)
  ∧ concat (map snd (ordersBySymbol orders)) ≡ₚ List.filter isFilled orders.
Proof.
  rewrite ordersBySymbol_closed, !map_map. cbn [fst snd]. rewrite map_id.
  split; [apply NoDup_symbolsOf|]. split.
  - rewrite Forall_forall. intros group Hg.
    apply list_elem_of_fmap in Hg as (s & -> & Hs). cbn [fst snd]. split; [|done].
    apply elem_of_symbolsOf in Hs as (o & Ho & Hf & Hsym).
    assert (Hin : o ∈ symbolOrders s orders).
    { unfold symbolOrders. apply list_elem_of_In, filter_In. split.
      - apply filter_In. split; [by apply list_elem_of_In|done].
      - unfold ofSymbol. rewrite Hsym. apply String.eqb_refl. }
    intros E. rewrite E in Hin. by apply elem_of_nil in Hin.
  - unfold symbolOrders. rewrite concat_by_symbol by apply NoDup_symbolsOf.
    rewrite filter_all; [done|]. intros o Ho.
    apply list_elem_of_In, filter_In in Ho as [Ho Hf].
    apply existsb_exists. exists (symbol o). split.
    + apply list_elem_of_In, elem_of_symbolsOf. exists o.
      split; [by apply list_elem_of_In|done].
    + unfold ofSymbol. apply String.eqb_refl.
Qed.

(** ** The order of the input *)

Lemma filter_perm {A : Type} (p : A → bool) (l1 l2 : list A) :
  l1 ≡ₚ l2 → List.filter p l1 ≡ₚ List.filter p l2.
Proof.
  induction 1 as [|x l1 l2 _ IH|x y l|l1 l2 l3 _ IH1 _ IH2]; cbn [List.filter].
  - done.
  - destruct (p x); [by constructor|done].
  - destruct (p x), (p y); try done. apply perm_swap.
  - by rewrite IH1.
Qed.

Lemma map_inj_on {A B : Type} (f : A → B) (l : list A) (x y : A) :
  NoDup (map f l) → x ∈ l → y ∈ l → f x = f y → x = y.
Proof.
  induction l as [|a l IH]; intros Hnd Hx Hy Hf; [by apply elem_of_nil in Hx|].
  cbn [map] in Hnd. apply NoDup_cons in Hnd as [Ha Hnd].
  apply elem_of_cons in Hx as [->|Hx], Hy as [->|Hy]; [done| | |by apply IH].
  - exfalso. apply Ha. rewrite Hf. apply list_elem_of_fmap. by exists y.
  - exfalso. apply Ha. rewrite <- Hf. apply list_elem_of_fmap. by exists x.
Qed.

(** Two sequences in order that hold the same elements are equal, when no
    two of the elements share a key. *)
Lemma ascending_unique {A : Type} (key : A → Z) (l1 : list A) : ∀ l2,
  ascendingBy key l1 → ascendingBy key l2 → l1 ≡ₚ l2 →
  (∀ x y, x ∈ l1 → y ∈ l1 → key x = key y → x = y) →
  l1 = l2.
Proof.
  induction l1 as [|x l1 IH]; intros l2 H1 H2 Hperm Hinj.
  { by apply Permutation_nil_l in Hperm. }
  destruct l2 as [|y l2]; [by apply Permutation_nil_r in Hperm|].
  apply StronglySorted_inv in H1 as [H1 Hx]. apply StronglySorted_inv in H2 as [H2 Hy].
  rewrite Forall_forall in Hx, Hy.
  assert (Hyin : y ∈ x :: l1) by (rewrite Hperm; apply list_elem_of_here).
  assert (Hxin : x ∈ y :: l2) by (rewrite <- Hperm; apply list_elem_of_here).
  assert (x = y) as <-.
  { apply elem_of_cons in Hyin as [->|Hyin]; [done|].
    apply elem_of_cons in Hxin as [->|Hxin]; [done|].
    apply Hinj; [apply list_elem_of_here|by apply list_elem_of_further|].
    specialize (Hx y Hyin). specialize (Hy x Hxin). cbn beta in *. lia. }
  f_equal. apply IH; [done|done|by apply Permutation_cons_inv in Hperm|].
  intros a b Ha Hb. apply Hinj; by apply list_elem_of_further.
Qed.

(** Two sequences in order are equal when, for every key, they hold the
    same elements of that key in the same order. *)
Lemma ascending_by_blocks {A : Type} (key : A → Z) (l1 : list A) : ∀ l2,
  ascendingBy key l1 → ascendingBy key l2 →
  (∀ k, List.filter (λ x, (key x =? k)%Z) l1 = List.filter (λ x, (key x =? k)%Z) l2) →
  l1 = l2.
Proof.
  induction l1 as [|x l1 IH]; intros l2 H1 H2 Hblocks.
  { destruct l2 as [|y l2]; [done|]. specialize (Hblocks (key y)).
    cbn [List.filter] in Hblocks. by rewrite Z.eqb_refl in Hblocks. }
  destruct l2 as [|y l2].
  { specialize (Hblocks (key x)). cbn [List.filter] in Hblocks.
    by rewrite Z.eqb_refl in Hblocks. }
  apply StronglySorted_inv in H1 as [H1 Hx]. apply StronglySorted_inv in H2 as [H2 Hy].
  rewrite Forall_forall in Hx, Hy.
  assert (Hle1 : (key y ≤ key x)%Z).
  { pose proof (Hblocks (key x)) as Hb. cbn [List.filter] in Hb.
    rewrite Z.eqb_refl in Hb. destruct (Z.eqb_spec (key y) (key x)) as [->|Hne]; [lia|].
    assert (Hin : x ∈ List.filter (λ z, (key z =? key x)%Z) l2).
    { rewrite <- Hb. apply list_elem_of_here. }
    apply list_elem_of_In, filter_In in Hin as [Hin _].
    by apply Hy, list_elem_of_In. }
  assert (Hle2 : (key x ≤ key y)%Z).
  { pose proof (Hblocks (key y)) as Hb. cbn [List.filter] in Hb.
    rewrite Z.eqb_refl in Hb. destruct (Z.eqb_spec (key x) (key y)) as [->|Hne]; [lia|].
    assert (Hin : y ∈ List.filter (λ z, (key z =? key y)%Z) l1).
    { rewrite Hb. apply list_elem_of_here. }
    apply list_elem_of_In, filter_In in Hin as [Hin _].
    by apply Hx, list_elem_of_In. }
  assert (Hkey : key y = key x) by lia.
  assert (x = y) as <-.
  { specialize (Hblocks (key x)). cbn [List.filter] in Hblocks.
    rewrite Hkey, Z.eqb_refl in Hblocks. by injection Hblocks. }
  f_equal. apply IH; [done..|]. intros k. specialize (Hblocks k).
  cbn [List.filter] in Hblocks. destruct (key x =? k)%Z; [by injection Hblocks|done].
Qed.

(** Every round trip of a pass is sold at the fill time of one of the
    orders of the pass. *)
Section SellDates.
Variables (sym : string) (times : list Z).

Lemma matchLoop_sellDates fuel price date sellQty st :
  date ∈ times →
  Forall (λ rt, sellDate rt ∈ times) (allRoundTrips st) →
  Forall (λ rt, sellDate rt ∈ times)
         (allRoundTrips (snd (matchLoop fuel sym price date sellQty st))).
Proof.
  intros Hdate. revert sellQty st.
  induction fuel as [|fuel IH]; intros sellQty st H; [done|].
  cbn [matchLoop]. destruct (ngtb sellQty zero); [|done].
  destruct (buyQueue st) as [|buy rest]; [done|].
  unfold matchOnce. apply IH. cbn [allRoundTrips].
  apply Forall_app. split; [done|]. by constructor.
Qed.

Lemma fold_processOrder_sellDates (os : list order) : ∀ st,
  Forall (λ o, filled_at o ∈ times) os →
  Forall (λ rt, sellDate rt ∈ times) (allRoundTrips st) →
  Forall (λ rt, sellDate rt ∈ times)
         (allRoundTrips (fold_left (processOrder sym) os st)).
Proof.
  induction os as [|o os IH]; intros st Hos H; [done|].
  apply Forall_cons_1 in Hos as [Ho Hos]. cbn [fold_left]. apply IH; [done|].
  unfold processOrder. destruct (String.eqb (side o) "buy"); [done|].
  destruct (String.eqb (side o) "sell" && negb (Nat.eqb (length (buyQueue st)) 0));
    [|done].
  by apply matchLoop_sellDates.
Qed.

End SellDates.

Lemma symTrips_sellDates (sym : string) (os : list order) :
  Forall (λ rt, sellDate rt ∈ map filled_at os) (symTrips sym os).
Proof.
  unfold symTrips, processSymbol. apply fold_processOrder_sellDates; [|constructor].
  rewrite Forall_forall. intros o Ho. apply elem_of_sortBy in Ho.
  apply list_elem_of_fmap. by exists o.
Qed.

Lemma concat_one_block {A B : Type} `{EqDecision A} (g : A → list B) (keys : list A)
    (k0 : A) :
  NoDup keys → (∀ k, k ≠ k0 → g k = []) →
  concat (map g keys) = if decide (k0 ∈ keys) then g k0 else [].
Proof.
  intros Hnd Hg. induction Hnd as [|k keys Hk Hnd IH]; [done|].
  cbn [map concat]. rewrite IH. destruct (decide (k = k0)) as [->|Hne].
  - rewrite (decide_True (P := k0 ∈ k0 :: keys)) by apply list_elem_of_here.
    rewrite (decide_False (P := k0 ∈ keys)) by done. by rewrite app_nil_r.
  - rewrite (Hg k Hne). cbn [app]. destruct (decide (k0 ∈ keys)) as [Hin|Hout].
    + by rewrite decide_True by by apply list_elem_of_further.
    + rewrite decide_False; [done|]. rewrite elem_of_cons. naive_solver.
Qed.

Lemma filter_concat_map {A B : Type} (p : B → bool) (g : A → list B) (keys : list A) :
  List.filter p (concat (map g keys)) = concat (map (λ k, List.filter p (g k)) keys).
Proof.
  induction keys as [|k keys IH]; [done|]. cbn [map concat].
  by rewrite List.filter_app, IH.
Qed.

Lemma filter_none {A : Type} (p : A → bool) (l : list A) :
  (∀ x, x ∈ l → p x = false) → List.filter p l = [].
Proof.
  induction l as [|x l IH]; intros H; [done|]. cbn [List.filter].
  rewrite (H x) by apply list_elem_of_here. apply IH.
  intros y Hy. by apply H, list_elem_of_further.
Qed.

(** The round trips sold at one instant all belong to one symbol, when no
    two filled orders share a fill time. *)
Lemma one_symbol_per_instant (orders : list order) (t : Z) :
  NoDup (map filled_at (List.filter isFilled orders)) →
  ∃ s0, ∀ s, s ≠ s0 →
    List.filter (λ rt, (sellDate rt =? t)%Z) (symTrips s (symbolOrders s orders)) = [].
Proof.
  intros Hnd.
  destruct (decide (t ∈ map filled_at (List.filter isFilled orders))) as [Hin|Hout].
  - apply list_elem_of_fmap in Hin as (o & -> & Ho). exists (symbol o).
    intros s Hne. apply filter_none. intros rt Hrt.
    apply Z.eqb_neq. intros Heq.
    pose proof (symTrips_sellDates s (symbolOrders s orders)) as Hd.
    rewrite Forall_forall in Hd. specialize (Hd rt Hrt). cbn beta in Hd.
    apply list_elem_of_fmap in Hd as (o' & Ho't & Ho').
    unfold symbolOrders in Ho'. apply list_elem_of_In, filter_In in Ho' as [Ho' Hs].
    apply list_elem_of_In in Ho'.
    assert (o' = o) as ->.
    { apply (map_inj_on filled_at (List.filter isFilled orders)); [done..|congruence]. }
    unfold ofSymbol in Hs. by apply String.eqb_eq in Hs.
  - exists "". intros s _. apply filter_none. intros rt Hrt.
    apply Z.eqb_neq. intros Heq. apply Hout.
    pose proof (symTrips_sellDates s (symbolOrders s orders)) as Hd.
    rewrite Forall_forall in Hd. specialize (Hd rt Hrt). cbn beta in Hd.
    rewrite Heq in Hd. apply list_elem_of_fmap in Hd as (o' & Ho't & Ho').
    apply list_elem_of_fmap. exists o'. split; [done|].
    unfold symbolOrders in Ho'. apply list_elem_of_In, filter_In in Ho' as [Ho' _].
    by apply list_elem_of_In.
Qed.

(** X22: when no two filled orders share a fill time, the order in which
    the orders are given does not matter: the Analytics page computes the same
    sequence of round trips for every arrangement of the input, and the Trade
    History page the same statistics, the same round trips and, for every
    symbol, the same sequence of round trips. *)
Theorem X22_input_order_is_irrelevant (orders1 orders2 : list order) :
  orders1 ≡ₚ orders2 →
  NoDup (map filled_at (List.filter isFilled orders1)) →
  Analytics.roundTrips (Some orders1) = Analytics.roundTrips (Some orders2)
  ∧ Positions.symbolStats (Some orders1) = Positions.symbolStats (Some orders2)
  ∧ Positions.roundTrips (Some orders1) ≡ₚ Positions.roundTrips (Some orders2)
  ∧ ∀ s, tripsOf s (Positions.roundTrips (Some orders1))
         = tripsOf s (Positions.roundTrips (Some orders2)).
Proof.
  intros Hperm Hnd.
  assert (Hfilled : List.filter isFilled orders1 ≡ₚ List.filter isFilled orders2)
    by by apply filter_perm.
  assert (Hsorted : ∀ s, sortBy byFilledAt (symbolOrders s orders1)
                         = sortBy byFilledAt (symbolOrders s orders2)).
  { intros s. apply (ascending_unique filled_at).
    - apply (sortBy_ascending filled_at byFilledAt byFilledAt_key).
    - apply (sortBy_ascending filled_at byFilledAt byFilledAt_key).
    - rewrite !sortBy_perm. unfold symbolOrders. by apply filter_perm.
    - intros x y Hx Hy. apply elem_of_sortBy in Hx, Hy. unfold symbolOrders in Hx, Hy.
      apply list_elem_of_In, filter_In in Hx as [Hx _].
      apply list_elem_of_In, filter_In in Hy as [Hy _].
      apply (map_inj_on filled_at (List.filter isFilled orders1));
        [done|by apply list_elem_of_In..]. }
  assert (Htrips : ∀ s, symTrips s (symbolOrders s orders1)
                        = symTrips s (symbolOrders s orders2)).
  { intros s. unfold symTrips, processSymbol. by rewrite Hsorted. }
  assert (Hstat : ∀ s, symStat s (symbolOrders s orders1)
                       = symStat s (symbolOrders s orders2)).
  { intros s. unfold symStat, processSymbol. by rewrite Hsorted. }
  assert (Hkeys_iff : ∀ s, s ∈ symbolsOf orders1 ↔ s ∈ symbolsOf orders2).
  { intros s. rewrite !elem_of_symbolsOf. split; intros (o & Ho & Hf & Hs); exists o.
    - by rewrite <- Hperm.
    - by rewrite Hperm. }
  assert (Hkeys : symbolsOf orders1 ≡ₚ symbolsOf orders2).
  { apply NoDup_Permutation; [apply NoDup_symbolsOf..|done]. }
  assert (Hpos : Positions.roundTrips (Some orders1) ≡ₚ Positions.roundTrips (Some orders2)).
  { rewrite !Positions_roundTrips_closed.
    rewrite (concat_map_perm _ _ _ Hkeys). apply Permutation_refl'.
    f_equal. apply map_ext. intros s. apply Htrips. }
  split; [|split; [|split; [done|]]].
  - rewrite !Analytics_roundTrips_closed.
    apply (ascending_by_blocks sellDate).
    + apply (sortBy_ascending sellDate bySellDate bySellDate_key).
    + apply (sortBy_ascending sellDate bySellDate bySellDate_key).
    + intros t. rewrite !(sortBy_filter sellDate bySellDate bySellDate_key). f_equal.
      rewrite !Positions_roundTrips_closed, !filter_concat_map.
      destruct (one_symbol_per_instant orders1 t Hnd) as (s0 & Hs0).
      rewrite (concat_one_block _ (symbolsOf orders1) s0 (NoDup_symbolsOf _) Hs0).
      rewrite (concat_one_block _ (symbolsOf orders2) s0 (NoDup_symbolsOf _)).
      * rewrite Htrips. destruct (decide (s0 ∈ symbolsOf orders1)) as [Hin|Hout].
        -- by rewrite decide_True by by apply Hkeys_iff.
        -- rewrite decide_False; [done|]. by rewrite <- Hkeys_iff.
      * intros s Hne. rewrite <- Htrips. by apply Hs0.
  - apply map_eq. intros s. rewrite !symbolStats_closed, Hstat.
    destruct (decide (s ∈ symbolsOf orders1)) as [Hin|Hout].
    + by rewrite decide_True by by apply Hkeys_iff.
    + rewrite decide_False; [done|]. by rewrite <- Hkeys_iff.
  - intros s. by rewrite !tripsOf_Positions.
Qed.

Lemma X22_input_order_is_irrelevant_witness :
  Analytics.roundTrips (Some [sell3 "AAPL" 3; buy1 "AAPL" 1; buy2 "AAPL" 2])
  = Analytics.roundTrips (Some [buy2 "AAPL" 2; sell3 "AAPL" 3; buy1 "AAPL" 1]).
Proof.
  refine (proj1 (X22_input_order_is_irrelevant
                   [sell3 "AAPL" 3; buy1 "AAPL" 1; buy2 "AAPL" 2]
                   [buy2 "AAPL" 2; sell3 "AAPL" 3; buy1 "AAPL" 1] _ _)).
  - exact (Permutation_app_comm [sell3 "AAPL" 3; buy1 "AAPL" 1] [buy2 "AAPL" 2]).
  - vm_compute. repeat constructor; rewrite ?elem_of_cons, ?elem_of_nil; intuition lia.
Defined.
(** ** The loop on binary64 numbers *)

(** A number less itself, and a number less one that compares equal to it,
    is a zero or NaN. *)
Definition zeroOrNaN (x : spec_float) : Prop :=
  match x with
  | S754_zero _ | S754_nan => True
  | _ => False
  end.

Lemma SFsub_diag (x : spec_float) : zeroOrNaN (SF64sub x x).
Proof.
  destruct x as [s|s| |s m e]; try (by destruct s); try done.
  unfold SF64sub, SFsub. cbv zeta. by rewrite Z.sub_diag.
Qed.

Lemma SFcompare_refl (x : spec_float) : x ≠ S754_nan → SFcompare x x = Some Eq.
Proof.
  destruct x as [s|s| |s m e]; cbn; try done; intros _.
  - by destruct s.
  - rewrite Z.compare_refl. change (PosDef.Pos.compare_cont Eq m m) with (m ?= m)%positive.
    rewrite Pos.compare_refl. by destruct s.
Qed.

Lemma SFcompare_Eq_sub (x y : spec_float) :
  SFcompare x y = Some Eq → zeroOrNaN (SF64sub x y).
Proof.
  destruct x as [s1|s1| |s1 m1 e1], y as [s2|s2| |s2 m2 e2];
    try (by destruct s1, s2); try (by destruct s1); try (by destruct s2); try done.
  intros H.
  assert (Hsame : s1 = s2 ∧ e1 = e2 ∧ m1 = m2).
  { cbn in H. change (PosDef.Pos.compare_cont Eq m1 m2) with (m1 ?= m2)%positive in H.
    destruct s1, s2; try done; destruct (Z.compare_spec e1 e2) as [He|He|He]; try done;
      destruct (Pos.compare_spec m1 m2) as [Hm|Hm|Hm]; done. }
  destruct Hsame as (-> & -> & ->). apply SFsub_diag.
Qed.

Lemma SFcompare_swap (x y : spec_float) :
  SFcompare y x = CompOpp <$> SFcompare x y.
Proof.
  destruct x as [s1|s1| |s1 m1 e1], y as [s2|s2| |s2 m2 e2]; cbn; try done;
    try (by destruct s1, s2); try (by destruct s1); try (by destruct s2).
  change (PosDef.Pos.compare_cont Eq m1 m2) with (m1 ?= m2)%positive.
  change (PosDef.Pos.compare_cont Eq m2 m1) with (m2 ?= m1)%positive.
  rewrite (Z.compare_antisym e1 e2), (Pos.compare_antisym m1 m2).
  destruct s1, s2; try done; destruct (e1 ?= e2)%Z; cbn; try done;
    by destruct (m1 ?= m2)%positive.
Qed.

Lemma is_nan_Prim2SF (x : float) : PrimFloat.is_nan x = true ↔ Prim2SF x = S754_nan.
Proof.
  unfold PrimFloat.is_nan. rewrite FloatAxioms.eqb_spec. unfold SFeqb. split.
  - intros H. destruct (Prim2SF x) as [s|s| |s m e] eqn:E; [| |done|];
      by rewrite SFcompare_refl in H.
  - by intros ->.
Qed.

Lemma zeroOrNaN_not_above (x : float) :
  zeroOrNaN (Prim2SF x) → Double.gtb x 0%float = false.
Proof.
  unfold Double.gtb. rewrite FloatAxioms.ltb_spec. change (Prim2SF 0%float) with (S754_zero false).
  by destruct (Prim2SF x).
Qed.

Lemma zeroOrNaN_kept (x : float) :
  zeroOrNaN (Prim2SF x) → PrimFloat.leb x 0%float = false → PrimFloat.is_nan x = true.
Proof.
  rewrite FloatAxioms.leb_spec, is_nan_Prim2SF. change (Prim2SF 0%float) with (S754_zero false).
  by destruct (Prim2SF x).
Qed.

Lemma sub_nan (x : float) : Prim2SF (PrimFloat.sub x PrimFloat.nan) = S754_nan.
Proof.
  rewrite FloatAxioms.sub_spec. change (Prim2SF PrimFloat.nan) with S754_nan.
  by destruct (Prim2SF x).
Qed.

(** A turn that leaves the lot at the head of the queue either brings
    [sellQty] to a value that is not above 0, or leaves NaN in the lot. *)
Lemma Double_no_shift_step (s b : float) :
  PrimFloat.leb (PrimFloat.sub b (Double.min s b)) 0%float = false →
  Double.gtb (PrimFloat.sub s (Double.min s b)) 0%float = false
  ∨ PrimFloat.is_nan (PrimFloat.sub b (Double.min s b)) = true.
Proof.
  unfold Double.min.
  destruct (PrimFloat.is_nan s || PrimFloat.is_nan b) eqn:Hnan.
  { intros _. left. apply zeroOrNaN_not_above. by rewrite sub_nan. }
  apply orb_false_elim in Hnan as [Hs Hb].
  destruct (PrimFloat.ltb s b) eqn:Hsb.
  { intros _. left. apply zeroOrNaN_not_above. rewrite FloatAxioms.sub_spec. apply SFsub_diag. }
  destruct (PrimFloat.ltb b s) eqn:Hbs.
  { intros Hkept. right. apply zeroOrNaN_kept; [|done]. rewrite FloatAxioms.sub_spec. apply SFsub_diag. }
  intros _. left. apply zeroOrNaN_not_above. rewrite FloatAxioms.sub_spec.
  destruct (PrimFloat.get_sign s); [apply SFsub_diag|].
  apply SFcompare_Eq_sub.
  assert (Hs' : Prim2SF s ≠ S754_nan).
  { intros E. apply is_nan_Prim2SF in E. congruence. }
  assert (Hb' : Prim2SF b ≠ S754_nan).
  { intros E. apply is_nan_Prim2SF in E. congruence. }
  rewrite FloatAxioms.ltb_spec in Hsb, Hbs. unfold SFltb in Hsb, Hbs.
  rewrite (SFcompare_swap (Prim2SF s) (Prim2SF b)) in Hbs.
  destruct (SFcompare (Prim2SF s) (Prim2SF b)) as [[| |]|] eqn:E; try done.
  by destruct (Prim2SF s), (Prim2SF b).
Qed.

Lemma Double_nan_lot_step (s b : float) :
  PrimFloat.is_nan b = true →
  Double.gtb (PrimFloat.sub s (Double.min s b)) 0%float = false.
Proof.
  intros Hb. unfold Double.min. rewrite Hb, orb_true_r.
  apply zeroOrNaN_not_above. by rewrite sub_nan.
Qed.

Lemma Double_matchLoop_done fuel sym price date sellQty st :
  Double.loopCond sellQty st = false →
  Double.matchLoop fuel sym price date sellQty st = (sellQty, st).
Proof.
  unfold Double.loopCond. intros H. destruct fuel as [|fuel]; [done|].
  cbn [Double.matchLoop].
  destruct (Double.gtb sellQty 0%float); [|done].
  destruct (Double.buyQueue st); [done|]. discriminate.
Qed.

Lemma Double_matchLoop_exits_gen fuel sym price date sellQty st :
  length (Double.buyQueue st) < fuel
  ∨ (length (Double.buyQueue st) ≤ fuel
     ∧ ∃ b rest, Double.buyQueue st = b :: rest
                 ∧ PrimFloat.is_nan (Double.lot_qty b) = true) →
  Double.loopCond (fst (Double.matchLoop fuel sym price date sellQty st))
                  (snd (Double.matchLoop fuel sym price date sellQty st)) = false.
Proof.
  revert sellQty st.
  induction fuel as [|fuel IH]; intros sellQty st Hfuel.
  - destruct Hfuel as [H|[H (b & rest & Hq & _)]]; [lia|].
    rewrite Hq in H. simpl in H. lia.
  - cbn [Double.matchLoop]. destruct (Double.gtb sellQty 0%float) eqn:Hs.
    2:{ unfold Double.loopCond. cbn [fst snd]. by rewrite Hs. }
    destruct (Double.buyQueue st) as [|buy rest] eqn:Hq.
    { unfold Double.loopCond. cbn [fst snd]. rewrite Hq. apply andb_false_r. }
    unfold Double.matchOnce. cbn [Double.lot_qty].
    destruct Hfuel as [Hlt|[Hle (b & rest' & Hq' & Hnan)]].
    + destruct (PrimFloat.leb (PrimFloat.sub (Double.lot_qty buy)
                                 (Double.min sellQty (Double.lot_qty buy))) 0%float)
        eqn:Hshift.
      * apply IH. left. simpl in *. lia.
      * destruct (Double_no_shift_step _ _ Hshift) as [Hout|Hnan].
        -- rewrite Double_matchLoop_done; unfold Double.loopCond; cbn [fst snd];
             by rewrite Hout.
        -- apply IH. right. simpl in *. split; [lia|].
           eexists _, _. split; [reflexivity|]. simpl. exact Hnan.
    + injection Hq' as <- <-.
      rewrite Double_matchLoop_done; unfold Double.loopCond; cbn [fst snd];
        by rewrite (Double_nan_lot_step _ _ Hnan).
Qed.

(** On binary64 numbers too the loop ends because its condition is false,
    within one turn per queued lot and one more, and a larger bound changes
    nothing. *)
Lemma Double_matchLoop_exits sym price date sellQty st :
  Double.loopCond
    (fst (Double.matchLoop (S (length (Double.buyQueue st))) sym price date sellQty st))
    (snd (Double.matchLoop (S (length (Double.buyQueue st))) sym price date sellQty st))
  = false.
Proof. apply Double_matchLoop_exits_gen. left. lia. Qed.

Lemma Double_matchLoop_add n m sym price date sellQty st :
  Double.matchLoop (n + m) sym price date sellQty st =
  let '(sellQty', st') := Double.matchLoop n sym price date sellQty st in
  Double.matchLoop m sym price date sellQty' st'.
Proof.
  revert sellQty st. induction n as [|n IH]; intros sellQty st; [done|].
  cbn [Nat.add Double.matchLoop]. destruct (Double.gtb sellQty 0%float) eqn:Hs.
  - destruct (Double.buyQueue st) as [|buy rest] eqn:Hq.
    + rewrite Double_matchLoop_done; [done|]. unfold Double.loopCond.
      rewrite Hq. apply andb_false_r.
    + destruct (Double.matchOnce sym price date sellQty buy rest st) as [s' st'].
      apply IH.
  - rewrite Double_matchLoop_done; [done|]. unfold Double.loopCond. by rewrite Hs.
Qed.

Lemma Double_matchLoop_fuel fuel sym price date sellQty st :
  S (length (Double.buyQueue st)) ≤ fuel →
  Double.matchLoop fuel sym price date sellQty st =
  Double.matchLoop (S (length (Double.buyQueue st))) sym price date sellQty st.
Proof.
  intros H.
  replace fuel with (S (length (Double.buyQueue st))
                     + (fuel - S (length (Double.buyQueue st)))) by lia.
  rewrite Double_matchLoop_add.
  pose proof (Double_matchLoop_exits sym price date sellQty st) as Hex.
  destruct (Double.matchLoop (S (length (Double.buyQueue st))) sym price date sellQty st)
    as [s' st'].
  by apply Double_matchLoop_done.
Qed.
(** ** Sorting by a difference of numbers *)

Section ByRank.
Context {A : Type}.
Variables (ok : A → Prop) (rank : A → Q) (cmp : A → A → num).
Hypothesis cmp_rank :
  ∀ x y, ok x → ok y → ngtb (cmp x y) zero = true ↔ (rank y < rank x)%Q.

Lemma insertBy_ranked (x : A) (l : list A) :
  ok x → Forall ok l → rankedBy rank l → rankedBy rank (insertBy cmp x l).
Proof.
  intros Hx Hl Hsorted. induction Hsorted as [|y l Hs IH Hy]; cbn [insertBy].
  - repeat constructor.
  - apply Forall_cons_1 in Hl as [Hoky Hokl].
    destruct (ngtb (cmp x y) zero) eqn:E.
    + apply cmp_rank in E; [|done..]. constructor; [by apply IH|].
      rewrite Forall_forall. intros z Hz.
      rewrite insertBy_perm in Hz. apply elem_of_cons in Hz as [->|Hz]; [lra|].
      by apply (proj1 (Forall_forall _ _) Hy).
    + assert (Hle : (rank x <= rank y)%Q).
      { apply Qnot_lt_le. intros Hlt. apply cmp_rank in Hlt; [|done..]. congruence. }
      constructor; [by constructor|]. constructor; [done|].
      eapply Forall_impl; [exact Hy|]. cbn. intros z Hz. lra.
Qed.

Lemma sortBy_ranked (l : list A) : Forall ok l → rankedBy rank (sortBy cmp l).
Proof.
  induction 1 as [|x l Hx Hl IH]; [constructor|].
  rewrite sortBy_cons. apply insertBy_ranked; [done| |done].
  rewrite Forall_forall in Hl. rewrite Forall_forall. intros z Hz.
  apply Hl. by apply elem_of_sortBy in Hz.
Qed.

End ByRank.

Lemma ranked_head {A : Type} (rank : A → Q) (l : list A) (x : A) :
  rankedBy rank l → head l = Some x → Forall (λ z, (rank x <= rank z)%Q) l.
Proof.
  intros Hs Hh. destruct l as [|y l]; [done|]. injection Hh as ->.
  apply StronglySorted_inv in Hs as [_ Hs]. constructor; [lra|done].
Qed.

Lemma ranked_last {A : Type} (rank : A → Q) (l : list A) (x : A) :
  rankedBy rank l → last l = Some x → Forall (λ z, (rank z <= rank x)%Q) l.
Proof.
  intros Hs Hl. induction Hs as [|y l Hs IH Hy]; [done|].
  destruct l as [|z l].
  - injection Hl as ->. constructor; [lra|done].
  - assert (Hx : Forall (λ z, (rank z <= rank x)%Q) (z :: l)) by by apply IH.
    constructor; [|done].
    apply Forall_cons_1 in Hy as [Hyz _]. apply Forall_cons_1 in Hx as [Hzx _]. lra.
Qed.

(** ** The metrics *)

Lemma three_kinds (rts : list roundTrip) :
  length (List.filter Analytics.isWinner rts)
  + length (List.filter Analytics.isLoser rts)
  + length (List.filter (λ rt, isNaN (pl rt)) rts)
  = length rts.
Proof.
  induction rts as [|rt rts IH]; [done|]. cbn [List.filter length].
  unfold Analytics.isWinner at 1, Analytics.isLoser at 1.
  destruct (pl rt) as [q| | |]; cbn [ngeb nleb nltb isNaN zero length]; try lia.
  destruct (Qle_bool 0 q); cbn [negb length]; lia.
Qed.

(** X9: the metrics count every round trip once: winners (P/L of at least
    0), losers (P/L below 0) and round trips whose P/L is NaN add up to
    [totalTrades]; and [winRate] is a number from 0 to 100. *)
Theorem X9_metrics_count_every_trip (rts : list roundTrip) :
  Analytics.winners (Analytics.metrics rts)
  + Analytics.losers (Analytics.metrics rts)
  + length (List.filter (λ rt, isNaN (pl rt)) rts)
  = Analytics.totalTrades (Analytics.metrics rts)
  ∧ percentage (Analytics.winRate (Analytics.metrics rts)).
Proof.
  unfold Analytics.metrics. destruct (Nat.eqb_spec (length rts) 0) as [E|E].
  - destruct rts; [|done]. cbn. split; [done|].
    exists 0%Q. repeat split; [lra|]. unfold Qle; simpl; lia.
  - cbn [Analytics.winners Analytics.losers Analytics.totalTrades Analytics.winRate negb].
    split; [apply three_kinds|].
    destruct (rate_percentage (length (List.filter Analytics.isWinner rts)) (length rts))
      as (q & Hq & _ & H0 & H1); [apply filter_length_le|done|]. by exists q.
Qed.

Lemma byPLDesc_rank (x y : roundTrip) :
  isFinite (pl x) → isFinite (pl y) →
  ngtb (Analytics.byPLDesc x y) zero = true ↔ (- val (pl y) < - val (pl x))%Q.
Proof.
  intros (a & Ha) (b & Hb). unfold Analytics.byPLDesc. rewrite Ha, Hb.
  cbn [nsub ngtb nltb zero val]. rewrite Bool.negb_true_iff, Qle_bool_false.
  rewrite Qred_correct. split; lra.
Qed.

Lemma head_is_Some {A : Type} (l : list A) : l ≠ [] → ∃ x, head l = Some x.
Proof. destruct l as [|x l]; [done|]. by exists x. Qed.

Lemma last_is_Some {A : Type} (l : list A) : l ≠ [] → ∃ x, last l = Some x.
Proof.
  destruct l as [|x l _] using rev_ind; [done|]. exists x. apply last_snoc.
Qed.

Lemma head_elem_of {A : Type} (l : list A) (x : A) : head l = Some x → x ∈ l.
Proof. destruct l; [done|]. intros [= ->]. apply list_elem_of_here. Qed.

Lemma last_elem_of {A : Type} (l : list A) (x : A) : last l = Some x → x ∈ l.
Proof.
  destruct l as [|y l _] using rev_ind; [done|]. rewrite last_snoc. intros [= ->].
  apply elem_of_app. right. apply list_elem_of_here.
Qed.

(** X11: when no P/L is NaN or infinite and there is a round trip,
    [largestWin] and [largestLoss] are round trips of the input, no round
    trip has a P/L above that of [largestWin], and none has one below that of
    [largestLoss]. *)
Theorem X11_largest_win_and_loss (rts : list roundTrip) :
  rts ≠ [] →
  Forall (λ rt, isFinite (pl rt)) rts →
  ∃ hi lo,
    Analytics.largestWin (Analytics.metrics rts) = Some hi
    ∧ Analytics.largestLoss (Analytics.metrics rts) = Some lo
    ∧ hi ∈ rts ∧ lo ∈ rts
    ∧ Forall (λ rt, nleb (pl rt) (pl hi) = true ∧ nleb (pl lo) (pl rt) = true) rts.
Proof.
  intros Hne Hfin. unfold Analytics.metrics.
  destruct (Nat.eqb_spec (length rts) 0) as [E|E]; [by destruct rts|].
  cbn [Analytics.largestWin Analytics.largestLoss].
  pose proof (sortBy_ranked (λ rt, isFinite (pl rt)) (λ rt, - val (pl rt))%Q
                Analytics.byPLDesc byPLDesc_rank rts Hfin) as Hsorted.
  pose proof (sortBy_perm Analytics.byPLDesc rts) as Hperm.
  set (sorted := sortBy Analytics.byPLDesc rts) in *.
  assert (Hsne : sorted ≠ []).
  { intros E0. rewrite E0 in Hperm. by apply Permutation_nil_l in Hperm. }
  destruct (head_is_Some sorted Hsne) as (hi & Hhi).
  destruct (last_is_Some sorted Hsne) as (lo & Hlo).
  exists hi, lo. split; [done|]. split; [done|].
  pose proof (ranked_head _ _ _ Hsorted Hhi) as Hmax.
  pose proof (ranked_last _ _ _ Hsorted Hlo) as Hmin.
  apply head_elem_of in Hhi. apply last_elem_of in Hlo.
  rewrite Hperm in Hhi, Hlo. split; [done|]. split; [done|].
  rewrite Forall_forall in Hfin, Hmax, Hmin. rewrite Forall_forall. intros rt Hrt.
  destruct (Hfin rt Hrt) as (q & Hq). destruct (Hfin hi Hhi) as (h & Hh).
  destruct (Hfin lo Hlo) as (l & Hl).
  assert (Hrt' : rt ∈ sorted) by by rewrite Hperm.
  specialize (Hmax rt Hrt'). specialize (Hmin rt Hrt'). cbn beta in Hmax, Hmin.
  rewrite Hq, Hh, Hl in *. cbn [val nleb] in *.
  split; apply Qle_bool_iff; lra.
Qed.

Lemma X11_largest_win_and_loss_witness :
  ∃ hi lo,
    Analytics.largestWin (Analytics.metrics [trip2 "AAPL" 2 3; trip1 "AAPL" 1 3])
    = Some hi
    ∧ Analytics.largestLoss (Analytics.metrics [trip2 "AAPL" 2 3; trip1 "AAPL" 1 3])
      = Some lo
    ∧ hi ∈ [trip2 "AAPL" 2 3; trip1 "AAPL" 1 3]
    ∧ lo ∈ [trip2 "AAPL" 2 3; trip1 "AAPL" 1 3]
    ∧ Forall (λ rt, nleb (pl rt) (pl hi) = true ∧ nleb (pl lo) (pl rt) = true)
             [trip2 "AAPL" 2 3; trip1 "AAPL" 1 3].
Proof.
  refine (X11_largest_win_and_loss [trip2 "AAPL" 2 3; trip1 "AAPL" 1 3] _ _).
  - discriminate.
  - repeat constructor; by eexists.
Defined.

(** ** Performance by symbol *)

Lemma mapGet_entries (f : string → SymbolPerformance.entry) (keys : list string)
    (k : string) :
  SymbolPerformance.mapGet (map (λ s, (s, f s)) keys) k
  = if decide (k ∈ keys) then Some (f k) else None.
Proof.
  induction keys as [|s keys IH]; [done|]. cbn [map SymbolPerformance.mapGet].
  destruct (String.eqb_spec s k) as [->|Hne].
  - by rewrite decide_True by apply list_elem_of_here.
  - rewrite IH. destruct (decide (k ∈ keys)) as [Hin|Hout].
    + by rewrite decide_True by by apply list_elem_of_further.
    + rewrite decide_False; [done|]. rewrite elem_of_cons. naive_solver.
Qed.

Lemma mapSet_entries (f g : string → SymbolPerformance.entry) (keys : list string)
    (k : string) :
  NoDup keys →
  (∀ s, s ≠ k → g s = f s) →
  SymbolPerformance.mapSet (map (λ s, (s, f s)) keys) k (g k)
  = map (λ s, (s, g s)) (addKey keys k).
Proof.
  intros Hnd Hg. induction Hnd as [|s keys Hs Hnd IH].
  { by rewrite addKey_notin by apply not_elem_of_nil. }
  cbn [map SymbolPerformance.mapSet]. destruct (String.eqb_spec s k) as [->|Hne].
  - rewrite addKey_in by apply list_elem_of_here. cbn [map]. f_equal.
    apply map_ext_in. intros a Ha. rewrite Hg; [done|]. intros ->.
    by apply Hs, list_elem_of_In.
  - rewrite IH, <- (Hg s Hne). destruct (decide (k ∈ keys)) as [Hin|Hout].
    + rewrite !addKey_in; [done|by apply list_elem_of_further|done].
    + rewrite !addKey_notin; [done| |done]. rewrite elem_of_cons. naive_solver.
Qed.

Lemma tripsOf_snoc (s : string) (rts : list roundTrip) (rt : roundTrip) :
  tripsOf s (rts ++ [rt])
  = tripsOf s rts ++ (if String.eqb s (rt_symbol rt) then [rt] else []).
Proof. exact (filter_snoc (λ x, String.eqb s (rt_symbol x)) rts rt). Qed.

Lemma elem_of_tripSymbols (rts : list roundTrip) (s : string) :
  s ∈ tripSymbols rts ↔ ∃ rt, rt ∈ rts ∧ rt_symbol rt = s.
Proof.
  unfold tripSymbols. rewrite elem_of_fold_addKey, elem_of_nil, list_elem_of_fmap.
  split.
  - intros [[]|(rt & -> & Hrt)]. by exists rt.
  - intros (rt & Hrt & <-). right. by exists rt.
Qed.

Lemma tripsOf_none (s : string) (rts : list roundTrip) :
  s ∉ tripSymbols rts → tripsOf s rts = [].
Proof.
  intros Hs. unfold tripsOf. induction rts as [|rt rts IH] using rev_ind; [done|].
  rewrite filter_snoc. destruct (String.eqb_spec s (rt_symbol rt)) as [->|Hne].
  - exfalso. apply Hs, elem_of_tripSymbols. exists rt. split; [|done].
    apply elem_of_app. right. apply list_elem_of_here.
  - rewrite IH, app_nil_r; [done|]. intros Hin. apply Hs.
    apply elem_of_tripSymbols in Hin as (x & Hx & <-). apply elem_of_tripSymbols.
    exists x. split; [|done]. apply elem_of_app. by left.
Qed.

(** The map in closed form: one entry per symbol, in the order in which the
    symbols first occur. *)
Lemma symbolMap_closed (rts : list roundTrip) :
  fold_left SymbolPerformance.addTrip rts []
  = map (λ s, (s, {| SymbolPerformance.e_pl := sumBy pl (tripsOf s rts);
                     SymbolPerformance.e_trades := length (tripsOf s rts) |}))
        (tripSymbols rts).
Proof.
  induction rts as [|rt rts IH] using rev_ind; [done|].
  rewrite fold_left_app. cbn [fold_left]. rewrite IH.
  unfold SymbolPerformance.addTrip. rewrite mapGet_entries.
  unfold tripSymbols. rewrite map_app, fold_left_app. cbn [map fold_left].
  fold (tripSymbols rts).
  set (g := λ s, {| SymbolPerformance.e_pl := sumBy pl (tripsOf s (rts ++ [rt]));
                    SymbolPerformance.e_trades := length (tripsOf s (rts ++ [rt])) |}).
  assert (Hk : (let current :=
                  if decide (rt_symbol rt ∈ tripSymbols rts)
                  then {| SymbolPerformance.e_pl := sumBy pl (tripsOf (rt_symbol rt) rts);
                          SymbolPerformance.e_trades := length (tripsOf (rt_symbol rt) rts) |}
                  else {| SymbolPerformance.e_pl := zero; SymbolPerformance.e_trades := 0 |}
                in {| SymbolPerformance.e_pl :=
                        nadd (SymbolPerformance.e_pl current) (pl rt);
                      SymbolPerformance.e_trades :=
                        SymbolPerformance.e_trades current + 1 |})
               = g (rt_symbol rt)).
  { unfold g. rewrite tripsOf_snoc, String.eqb_refl, sumBy_snoc, length_app.
    cbn [length]. destruct (decide (rt_symbol rt ∈ tripSymbols rts)) as [Hin|Hout].
    - done.
    - by rewrite (tripsOf_none _ _ Hout). }
  cbn zeta in Hk.
  destruct (decide (rt_symbol rt ∈ tripSymbols rts)) as [Hin|Hout];
    cbn [SymbolPerformance.e_pl SymbolPerformance.e_trades] in *; rewrite Hk;
    apply mapSet_entries; try apply NoDup_fold_addKey, NoDup_nil_2;
    intros s Hne; unfold g; rewrite tripsOf_snoc;
    destruct (String.eqb_spec s (rt_symbol rt)); try done; by rewrite app_nil_r.
Qed.

(** X12: the performance table has one row per symbol of the round trips,
    in the order in which the symbols first occur; a row holds the sum of the
    P/L of its symbol's round trips and their number, which is not 0. *)
Theorem X12_one_row_per_symbol (rts : list roundTrip) :
  map SymbolPerformance.r_symbol (SymbolPerformance.rows rts) = tripSymbols rts
  ∧ NoDup (map SymbolPerformance.r_symbol (SymbolPerformance.rows rts))
  ∧ Forall (λ r, SymbolPerformance.r_pl r
                 = sumBy pl (tripsOf (SymbolPerformance.r_symbol r) rts)
               ∧ SymbolPerformance.r_trades r
                 = length (tripsOf (SymbolPerformance.r_symbol r) rts)
               ∧ 0 < SymbolPerformance.r_trades r)
           (SymbolPerformance.rows rts).
Proof.
  unfold SymbolPerformance.rows. rewrite symbolMap_closed, !map_map.
  cbn [SymbolPerformance.r_symbol]. rewrite map_id.
  split; [done|]. split; [apply NoDup_fold_addKey, NoDup_nil_2|].
  rewrite Forall_forall. intros r Hr. apply list_elem_of_fmap in Hr as (s & -> & Hs).
  cbn [SymbolPerformance.r_symbol SymbolPerformance.r_pl SymbolPerformance.r_trades].
  split; [done|]. split; [done|].
  apply elem_of_tripSymbols in Hs as (rt & Hrt & <-).
  assert (Hin : rt ∈ tripsOf (rt_symbol rt) rts).
  { unfold tripsOf. apply list_elem_of_In, filter_In. split; [by apply list_elem_of_In|].
    apply String.eqb_refl. }
  destruct (tripsOf (rt_symbol rt) rts); [by apply elem_of_nil in Hin|cbn; lia].
Qed.

Lemma byRowPL_rank (x y : SymbolPerformance.row) :
  isFinite (SymbolPerformance.r_pl x) → isFinite (SymbolPerformance.r_pl y) →
  ngtb (SymbolPerformance.byPLDesc x y) zero = true
  ↔ (- val (SymbolPerformance.r_pl y) < - val (SymbolPerformance.r_pl x))%Q.
Proof.
  intros (a & Ha) (b & Hb). unfold SymbolPerformance.byPLDesc. rewrite Ha, Hb.
  cbn [nsub ngtb nltb zero val]. rewrite Bool.negb_true_iff, Qle_bool_false.
  rewrite Qred_correct. split; lra.
Qed.

Lemma sorted_app {A : Type} (R : A → A → Prop) (l1 l2 : list A) :
  StronglySorted R (l1 ++ l2)
  ↔ (∀ x1 x2, x1 ∈ l1 → x2 ∈ l2 → R x1 x2)
    ∧ StronglySorted R l1 ∧ StronglySorted R l2.
Proof.
  induction l1 as [|x l1 IH]; cbn [app].
  - split; [|tauto]. intros H. split; [|split; [constructor|done]].
    intros x1 x2 Hx. by apply elem_of_nil in Hx.
  - split.
    + intros H. apply StronglySorted_inv in H as [Hs Hx].
      apply IH in Hs as (H1 & H2 & H3). apply Forall_app in Hx as [Hx1 Hx2].
      split; [|split; [by constructor|done]].
      intros x1 x2 Hx1' Hx2'. apply elem_of_cons in Hx1' as [->|Hx1'].
      * by apply (proj1 (Forall_forall _ _) Hx2).
      * by apply H1.
    + intros (H1 & H2 & H3). apply StronglySorted_inv in H2 as [Hs Hx].
      constructor.
      * apply IH. split; [|done]. intros x1 x2 Hx1 Hx2. apply H1; [|done].
        by apply list_elem_of_further.
      * apply Forall_app. split; [done|]. rewrite Forall_forall. intros y Hy.
        apply H1; [apply list_elem_of_here|done].
Qed.

Lemma elem_of_rev {A : Type} (x : A) (l : list A) : x ∈ rev l ↔ x ∈ l.
Proof. rewrite !list_elem_of_In. symmetry. apply in_rev. Qed.

Lemma sorted_rev {A : Type} (R : A → A → Prop) (l : list A) :
  StronglySorted R l → StronglySorted (λ a b, R b a) (rev l).
Proof.
  induction 1 as [|x l Hl IH Hx]; [constructor|]. cbn [rev].
  apply sorted_app. split; [|split; [done|repeat constructor]].
  intros a b Ha Hb. apply list_elem_of_singleton in Hb as ->.
  rewrite Forall_forall in Hx. cbn beta. apply Hx. by apply (elem_of_rev a l).
Qed.

Lemma rows_finite (rts : list roundTrip) :
  Forall (λ rt, isFinite (pl rt)) rts →
  Forall (λ r, isFinite (SymbolPerformance.r_pl r)) (SymbolPerformance.rows rts).
Proof.
  intros Hfin. unfold SymbolPerformance.rows. rewrite symbolMap_closed, map_map.
  rewrite Forall_forall. intros r Hr. apply list_elem_of_fmap in Hr as (s & -> & _).
  cbn [SymbolPerformance.r_pl].
  destruct (sumBy_finite pl (tripsOf s rts)) as (q & Hq & _); [|by exists q].
  rewrite Forall_forall in Hfin. rewrite Forall_forall. intros rt Hrt.
  apply Hfin. apply list_elem_of_In, filter_In in Hrt as [Hrt _].
  by apply list_elem_of_In.
Qed.

Lemma symbolPerformance_closed (rts : list roundTrip) :
  SymbolPerformance.symbolPerformance rts
  = {| SymbolPerformance.best :=
         SymbolPerformance.firstFive
           (sortBy SymbolPerformance.byPLDesc (SymbolPerformance.rows rts));
       SymbolPerformance.worst :=
         rev (SymbolPerformance.lastFive
                (sortBy SymbolPerformance.byPLDesc (SymbolPerformance.rows rts))) |}.
Proof.
  unfold SymbolPerformance.symbolPerformance. by destruct rts.
Qed.

(** X13: when no P/L is NaN or infinite, [best] holds the rows with the
    largest P/L, largest first, and [worst] those with the smallest, smallest
    first: each has five rows, or all rows when there are fewer, and a row
    left out of [best] (of [worst]) has a P/L at most (at least) that of every
    row in it.  With at most five symbols every row is in both lists. *)
Theorem X13_best_and_worst (rts : list roundTrip) :
  Forall (λ rt, isFinite (pl rt)) rts →
  let result := SymbolPerformance.symbolPerformance rts in
  let leq := λ a b, nleb (SymbolPerformance.r_pl a) (SymbolPerformance.r_pl b) = true in
  length (SymbolPerformance.best result) = 5 `min` length (SymbolPerformance.rows rts)
  ∧ length (SymbolPerformance.worst result) = 5 `min` length (SymbolPerformance.rows rts)
  ∧ StronglySorted (λ a b, leq b a) (SymbolPerformance.best result)
  ∧ StronglySorted leq (SymbolPerformance.worst result)
  ∧ (∀ r b, r ∈ SymbolPerformance.rows rts → b ∈ SymbolPerformance.best result →
            r ∈ SymbolPerformance.best result ∨ leq r b)
  ∧ (∀ r w, r ∈ SymbolPerformance.rows rts → w ∈ SymbolPerformance.worst result →
            r ∈ SymbolPerformance.worst result ∨ leq w r)
  ∧ (length (SymbolPerformance.rows rts) ≤ 5 →
     SymbolPerformance.worst result = rev (SymbolPerformance.best result)).
Proof.
  intros Hfin result leq. subst result. rewrite symbolPerformance_closed.
  cbn [SymbolPerformance.best SymbolPerformance.worst].
  pose proof (rows_finite rts Hfin) as Hrows.
  pose proof (sortBy_ranked (λ r, isFinite (SymbolPerformance.r_pl r))
                (λ r, - val (SymbolPerformance.r_pl r))%Q
                SymbolPerformance.byPLDesc byRowPL_rank _ Hrows) as Hranked.
  pose proof (sortBy_perm SymbolPerformance.byPLDesc (SymbolPerformance.rows rts))
    as Hperm.
  set (sorted := sortBy SymbolPerformance.byPLDesc (SymbolPerformance.rows rts)) in *.
  assert (Hsorted : StronglySorted (λ a b, leq b a) sorted).
  { assert (Hfs : Forall (λ r, isFinite (SymbolPerformance.r_pl r)) sorted).
    { rewrite Forall_forall in Hrows. rewrite Forall_forall. intros r Hr.
      apply Hrows. by rewrite <- Hperm. }
    clear -Hranked Hfs. induction Hranked as [|x l Hl IH Hx]; [constructor|].
    apply Forall_cons_1 in Hfs as [(a & Ha) Hfs]. constructor; [by apply IH|].
    rewrite Forall_forall in Hx, Hfs. rewrite Forall_forall. intros y Hy.
    specialize (Hx y Hy). destruct (Hfs y Hy) as (b & Hb). cbn beta in Hx.
    unfold leq. rewrite Ha, Hb in *. cbn [val nleb] in *. apply Qle_bool_iff. lra. }
  unfold SymbolPerformance.firstFive, SymbolPerformance.lastFive.
  pose proof (Permutation_length Hperm) as Hlen.
  split; [rewrite length_take; lia|].
  split; [rewrite length_rev, length_drop; lia|].
  pose proof (take_drop 5 sorted) as H5.
  pose proof (take_drop (length sorted - 5) sorted) as Hl5.
  assert (Hbest : StronglySorted (λ a b, leq b a) (take 5 sorted ++ drop 5 sorted))
    by by rewrite H5.
  assert (Hworst : StronglySorted (λ a b, leq b a)
                     (take (length sorted - 5) sorted ++ drop (length sorted - 5) sorted))
    by by rewrite Hl5.
  apply sorted_app in Hbest as (Hb1 & Hb2 & _).
  apply sorted_app in Hworst as (Hw1 & _ & Hw3).
  split; [done|]. split; [by apply (sorted_rev (λ a b, leq b a))|].
  split; [|split].
  - intros r b Hr Hb. rewrite <- Hperm, <- H5 in Hr.
    apply elem_of_app in Hr as [Hr|Hr]; [by left|right]. by apply Hb1.
  - intros r w Hr Hw. apply (proj1 (elem_of_rev _ _)) in Hw. rewrite <- Hperm, <- Hl5 in Hr.
    apply elem_of_app in Hr as [Hr|Hr]; [right|left; by apply elem_of_rev].
    by apply (Hw1 r w).
  - intros Hle. rewrite <- Hlen in Hle.
    replace (length sorted - 5) with 0 by lia. rewrite drop_0.
    by rewrite take_ge by lia.
Qed.

Lemma X13_best_and_worst_witness :
  SymbolPerformance.worst
    (SymbolPerformance.symbolPerformance [trip1 "AAPL" 1 3; trip2 "MSFT" 2 3])
  = rev (SymbolPerformance.best
           (SymbolPerformance.symbolPerformance [trip1 "AAPL" 1 3; trip2 "MSFT" 2 3])).
Proof.
  refine (proj2 (proj2 (proj2 (proj2 (proj2 (proj2
    (X13_best_and_worst [trip1 "AAPL" 1 3; trip2 "MSFT" 2 3] _)))))) _).
  - repeat constructor; by eexists.
  - vm_compute. lia.
Defined.

(** ** The cumulative series *)

Lemma runningTotal_dates (acc : num) (days : list Analytics.dayEntry) :
  map Analytics.c_date (Analytics.runningTotal acc days) = map Analytics.d_date days.
Proof.
  revert acc. induction days as [|day days IH]; intros acc; [done|].
  cbn [Analytics.runningTotal map Analytics.c_date]. by rewrite IH.
Qed.

Lemma runningTotal_lookup (days : list Analytics.dayEntry) : ∀ acc i entry,
  Analytics.runningTotal acc days !! i = Some entry →
  Analytics.cumulative entry
  = fold_left (λ sum x, nadd sum (Analytics.d_pl x)) (take (S i) days) acc.
Proof.
  induction days as [|day days IH]; intros acc i entry H; [done|].
  cbn [Analytics.runningTotal] in H. destruct i as [|i].
  - injection H as <-. done.
  - cbn [lookup list_lookup] in H. rewrite (IH _ _ _ H). done.
Qed.

(** X14: the cumulative series has one entry per day of the daily series,
    with the same dates in the same order, and its entry for a day holds the
    sum of the daily P/L up to and including that day. *)
Theorem X14_cumulative_is_running_sum (days : list Analytics.dayEntry) :
  map Analytics.c_date (Analytics.cumulativePL days) = map Analytics.d_date days
  ∧ ∀ i entry, Analytics.cumulativePL days !! i = Some entry →
               Analytics.cumulative entry = sumBy Analytics.d_pl (take (S i) days).
Proof.
  unfold Analytics.cumulativePL. destruct days as [|day days]; [done|].
  cbn [length Nat.eqb]. split; [apply runningTotal_dates|].
  intros i entry H. by apply runningTotal_lookup.
Qed.
(** ** The Trade History page: totals and filters *)

Lemma collectEntries_closed groups all (stats : list (string * Positions.symbolStat)) :
  fold_left (λ '(all, stats) '(sym, symbolOrders),
               let st := processSymbol all sym symbolOrders in
               (allRoundTrips st, stats ++ [(sym, Positions.statOf st)]))
            groups (all, stats)
  = (all ++ concat (map (λ '(sym, symbolOrders), symTrips sym symbolOrders) groups),
     stats ++ map (λ '(sym, symbolOrders), (sym, symStat sym symbolOrders)) groups).
Proof.
  revert all stats. induction groups as [|[s os] groups IH]; intros all stats;
    cbn [fold_left map concat].
  - by rewrite !app_nil_r.
  - rewrite IH, processSymbol_trips, processSymbol_stat, <- !app_assoc. done.
Qed.

Lemma statEntries_closed (orders : list order) :
  History.statEntries (Some orders)
  = map (λ s, (s, symStat s (symbolOrders s orders))) (symbolsOf orders).
Proof.
  unfold History.statEntries, History.collectEntries.
  rewrite collectEntries_closed, ordersBySymbol_closed. cbn [snd app].
  by rewrite map_map.
Qed.

(** The entries hold what the object holds. *)
Lemma statEntries_symbolStats (orders : option (list order)) :
  list_to_map (History.statEntries orders) = Positions.symbolStats orders.
Proof.
  destruct orders as [orders|]; [|done]. apply map_eq. intros s.
  rewrite symbolStats_closed, statEntries_closed.
  induction (symbolsOf orders) as [|k keys IH]; [done|].
  cbn [map]. rewrite list_to_map_cons. destruct (decide (s = k)) as [->|Hne].
  - rewrite lookup_insert_eq. by rewrite decide_True by apply list_elem_of_here.
  - rewrite lookup_insert_ne by done. rewrite IH.
    destruct (decide (s ∈ keys)) as [Hin|Hout].
    + by rewrite decide_True by by apply list_elem_of_further.
    + rewrite decide_False; [done|]. rewrite elem_of_cons. naive_solver.
Qed.

Lemma getOwn_entries (f : string → Positions.symbolStat) (keys : list string)
    (k : string) :
  History.getOwn (map (λ s, (s, f s)) keys) k
  = if decide (k ∈ keys) then Some (f k) else None.
Proof.
  induction keys as [|s keys IH]; [done|]. cbn [map History.getOwn].
  destruct (String.eqb_spec s k) as [->|Hne].
  - by rewrite decide_True by apply list_elem_of_here.
  - rewrite IH. destruct (decide (k ∈ keys)) as [Hin|Hout].
    + by rewrite decide_True by by apply list_elem_of_further.
    + rewrite decide_False; [done|]. rewrite elem_of_cons. naive_solver.
Qed.

Lemma countsOf_symStat (sym : string) (os : list order) :
  countsOf (symTrips sym os) (symStat sym os)
  ∧ Positions.st_realizedPL (symStat sym os) = sumBy pl (symTrips sym os).
Proof.
  destruct (processSymbol_counters sym os) as (Hpl & Hw & Hl).
  unfold countsOf, symStat, symTrips, Positions.statOf.
  cbn [Positions.st_trades Positions.st_winCount Positions.st_lossCount
       Positions.st_realizedPL].
  pose proof (filter_length_split Analytics.isWinner
                (allRoundTrips (processSymbol [] sym os))).
  repeat split; [lia|done..].
Qed.

Lemma countsOf_addStat (l1 l2 : list roundTrip) (acc s : Positions.symbolStat) :
  countsOf l1 acc → countsOf l2 s → countsOf (l1 ++ l2) (History.addStat acc s).
Proof.
  intros (A1 & A2 & A3) (B1 & B2 & B3). unfold countsOf, History.addStat.
  cbn [Positions.st_trades Positions.st_winCount Positions.st_lossCount].
  rewrite !List.filter_app, !length_app, A1, A2, A3, B1, B2, B3. done.
Qed.

(** The sum over all symbols: the counters count the round trips of all
    symbols, and [realizedPL] adds, symbol after symbol, the sum of the P/L of
    the symbol's round trips. *)
Lemma fold_addStat_closed (f : string → list order) (keys : list string) :
  ∀ (l : list roundTrip) (acc : Positions.symbolStat),
    countsOf l acc →
    countsOf (l ++ concat (map (λ s, symTrips s (f s)) keys))
             (fold_left History.addStat
                (map snd (map (λ s, (s, symStat s (f s))) keys)) acc)
    ∧ Positions.st_realizedPL
        (fold_left History.addStat
           (map snd (map (λ s, (s, symStat s (f s))) keys)) acc)
      = fold_left (λ sum s, nadd sum (sumBy pl (symTrips s (f s)))) keys
                  (Positions.st_realizedPL acc).
Proof.
  induction keys as [|k keys IH]; intros l acc H; cbn [map concat fold_left snd].
  - by rewrite app_nil_r.
  - rewrite app_assoc.
    destruct (countsOf_symStat k (f k)) as [Hk Hpl].
    destruct (IH (l ++ symTrips k (f k)) (History.addStat acc (symStat k (f k)))
                (countsOf_addStat _ _ _ _ H Hk)) as [Hc Hsum].
    split; [done|]. rewrite Hsum. cbn [History.addStat Positions.st_realizedPL].
    by rewrite Hpl.
Qed.

Lemma fold_left_pointwise {A B : Type} (f g : A → B → A) (l : list B) (a : A) :
  (∀ a x, f a x = g a x) → fold_left f l a = fold_left g l a.
Proof.
  intros H. revert a. induction l as [|x l IH]; intros a; [done|].
  cbn [fold_left]. by rewrite H, IH.
Qed.

Lemma totals_of_all (orders : list order) :
  countsOf (Positions.roundTrips (Some orders))
           (fold_left History.addStat
              (map snd (History.statEntries (Some orders))) History.noStat)
  ∧ Positions.st_realizedPL
      (fold_left History.addStat
         (map snd (History.statEntries (Some orders))) History.noStat)
    = sumBy (λ s, sumBy pl (tripsOf s (Positions.roundTrips (Some orders))))
            (symbolsOf orders).
Proof.
  destruct (fold_addStat_closed (λ s, symbolOrders s orders) (symbolsOf orders)
              [] History.noStat) as [Hc Hsum]; [by repeat split|].
  rewrite statEntries_closed. split.
  - rewrite Positions_roundTrips_closed. exact Hc.
  - rewrite Hsum. unfold sumBy at 1. apply fold_left_pointwise.
    intros a s. by rewrite tripsOf_Positions.
Qed.

Lemma filteredRoundTrips_tripsOf (rts : list roundTrip) (sym : string) :
  sym ≠ "" → History.filteredRoundTrips rts sym = tripsOf sym rts.
Proof.
  intros Hne. unfold History.filteredRoundTrips, tripsOf.
  destruct (String.eqb_spec sym ""); [done|].
  induction rts as [|rt rts IH]; [done|]. cbn [List.filter].
  by rewrite IH, String.eqb_sym.
Qed.

(** X15: with no symbol selected, or with a symbol that has a filled order,
    the totals of the Trade History page are statistics whose counters are
    those of the round trips its table shows: their number, the number of
    those with a P/L of at least 0 and of the others.  Their [realizedPL] is,
    for a selected symbol, the sum of the P/L of the round trips shown, and,
    with no symbol selected, the sum over the symbols of each symbol's sum. *)
Theorem X15_totals_agree_with_table (orders : list order) (symbolFilter : string) :
  symbolFilter = "" ∨ symbolFilter ∈ symbolsOf orders →
  ∃ total,
    History.totalStats (History.statEntries (Some orders)) symbolFilter
    = History.Own total
    ∧ countsOf (History.filteredRoundTrips (Positions.roundTrips (Some orders))
                  symbolFilter) total
    ∧ Positions.st_realizedPL total
      = if String.eqb symbolFilter ""
        then sumBy (λ s, sumBy pl (tripsOf s (Positions.roundTrips (Some orders))))
                   (symbolsOf orders)
        else sumBy pl (History.filteredRoundTrips (Positions.roundTrips (Some orders))
                         symbolFilter).
Proof.
  intros Hfilter. unfold History.totalStats.
  destruct (String.eqb_spec symbolFilter "") as [->|Hne].
  - eexists. split; [reflexivity|]. unfold History.filteredRoundTrips.
    cbn [String.eqb]. apply totals_of_all.
  - destruct Hfilter as [?|Hin]; [done|]. unfold History.getStat.
    rewrite statEntries_closed, getOwn_entries, decide_True by done.
    eexists. split; [reflexivity|].
    rewrite filteredRoundTrips_tripsOf, tripsOf_Positions by done.
    apply countsOf_symStat.
Qed.

Lemma X15_totals_agree_with_table_witness :
  ∃ total,
    History.totalStats
      (History.statEntries (Some [sell3 "AAPL" 3; buy1 "AAPL" 1; buy2 "MSFT" 2])) "AAPL"
    = History.Own total
    ∧ Positions.st_trades total = 1.
Proof.
  destruct (X15_totals_agree_with_table
              [sell3 "AAPL" 3; buy1 "AAPL" 1; buy2 "MSFT" 2] "AAPL")
    as (total & Htotal & (Htrades & _) & _).
  - right. vm_compute. apply list_elem_of_here.
  - exists total. split; [exact Htotal|]. rewrite Htrades. reflexivity.
Defined.

Lemma getStat_unknown (orders : list order) (key : string) :
  key ∉ symbolsOf orders →
  History.getStat (History.statEntries (Some orders)) key
  = if decide (key ∈ History.inheritedNames) then Some (History.Inherited key) else None.
Proof.
  intros Hout. unfold History.getStat.
  rewrite statEntries_closed, getOwn_entries, decide_False by done.
  destruct (existsb (String.eqb key) History.inheritedNames) eqn:E.
  - apply existsb_eqb in E. by rewrite decide_True.
  - rewrite decide_False; [done|]. intros Hin. apply existsb_eqb in Hin. congruence.
Qed.

(** X16: with a symbol selected that has no filled order, the table of
    round trips is empty; the totals are then those of all symbols together,
    unless the selected name is one every object inherits a property for
    ([toString], [constructor], ...): then [totalStats] is that property, and
    no statistics. *)
Theorem X16_totals_of_unknown_symbol (orders : list order) (symbolFilter : string) :
  symbolFilter ≠ "" →
  symbolFilter ∉ symbolsOf orders →
  History.filteredRoundTrips (Positions.roundTrips (Some orders)) symbolFilter = []
  ∧ History.totalStats (History.statEntries (Some orders)) symbolFilter
    = if decide (symbolFilter ∈ History.inheritedNames)
      then History.Inherited symbolFilter
      else History.totalStats (History.statEntries (Some orders)) "".
Proof.
  intros Hne Hout. split.
  - rewrite filteredRoundTrips_tripsOf, tripsOf_Positions by done.
    by rewrite symbolOrders_none.
  - unfold History.totalStats. destruct (String.eqb_spec symbolFilter ""); [done|].
    rewrite getStat_unknown by done. cbn [String.eqb].
    by destruct (decide (symbolFilter ∈ History.inheritedNames)).
Qed.

Lemma X16_totals_of_unknown_symbol_witness :
  History.totalStats
    (History.statEntries (Some [sell3 "AAPL" 3; buy1 "AAPL" 1; buy2 "AAPL" 2])) "MSFT"
  = History.totalStats
      (History.statEntries (Some [sell3 "AAPL" 3; buy1 "AAPL" 1; buy2 "AAPL" 2])) ""
  ∧ History.totalStats
      (History.statEntries (Some [sell3 "AAPL" 3; buy1 "AAPL" 1; buy2 "AAPL" 2]))
      "toString"
    = History.Inherited "toString".
Proof.
  split.
  - refine (proj2 (X16_totals_of_unknown_symbol
                     [sell3 "AAPL" 3; buy1 "AAPL" 1; buy2 "AAPL" 2] "MSFT" _ _)).
    + discriminate.
    + vm_compute. intros H. apply elem_of_cons in H as [H|H]; [discriminate|].
      by apply elem_of_nil in H.
  - refine (proj2 (X16_totals_of_unknown_symbol
                     [sell3 "AAPL" 3; buy1 "AAPL" 1; buy2 "AAPL" 2] "toString" _ _)).
    + discriminate.
    + vm_compute. intros H. apply elem_of_cons in H as [H|H]; [discriminate|].
      by apply elem_of_nil in H.
Defined.

Lemma byFilledAtDesc_key (x y : order) :
  ngtb (History.byFilledAtDesc x y) zero = (- filled_at y <? - filled_at x)%Z.
Proof.
  unfold History.byFilledAtDesc. rewrite dateDiff_gt.
  destruct (Z.ltb_spec (filled_at x) (filled_at y)),
           (Z.ltb_spec (- filled_at y) (- filled_at x)); done || lia.
Qed.

Lemma keep_spec (symbolFilter sideFilter : string) (o : order) :
  History.keep symbolFilter sideFilter o = true
  ↔ status o = "filled"
    ∧ (symbolFilter = "" ∨ symbol o = symbolFilter)
    ∧ (sideFilter = "all" ∨ side o = sideFilter).
Proof.
  unfold History.keep.
  destruct (String.eqb_spec (status o) "filled") as [Hs|Hs]; cbn [negb];
    [|naive_solver].
  destruct (String.eqb_spec symbolFilter "") as [Hf|Hf],
           (String.eqb_spec (symbol o) symbolFilter) as [Hy|Hy],
           (String.eqb_spec sideFilter "all") as [Ha|Ha],
           (String.eqb_spec (side o) sideFilter) as [Hd|Hd];
    cbn [negb andb]; naive_solver.
Qed.

(** X17: the order list of the Trade History page holds the filled orders
    that pass the symbol filter (when one is set) and the side filter (when
    not 'all'), each as often as the input holds it, the most recently filled
    first. *)
Theorem X17_filtered_orders_newest_first (orders : list order)
    (symbolFilter sideFilter : string) :
  StronglySorted (λ a b, (filled_at b ≤ filled_at a)%Z)
                 (History.filteredOrders (Some orders) symbolFilter sideFilter)
  ∧ History.filteredOrders (Some orders) symbolFilter sideFilter
    ≡ₚ List.filter (History.keep symbolFilter sideFilter) orders
  ∧ ∀ o, o ∈ History.filteredOrders (Some orders) symbolFilter sideFilter
         ↔ o ∈ orders
           ∧ status o = "filled"
           ∧ (symbolFilter = "" ∨ symbol o = symbolFilter)
           ∧ (sideFilter = "all" ∨ side o = sideFilter).
Proof.
  unfold History.filteredOrders. split; [|split].
  - pose proof (sortBy_ascending (λ o, (- filled_at o)%Z) History.byFilledAtDesc
                  byFilledAtDesc_key
                  (List.filter (History.keep symbolFilter sideFilter) orders)) as H.
    unfold ascendingBy in H.
    induction H as [|x l Hl IH Hx]; constructor; [done|].
    eapply Forall_impl; [exact Hx|]. cbn. intros y Hy. lia.
  - apply sortBy_perm.
  - intros o. rewrite elem_of_sortBy, list_elem_of_In, filter_In, keep_spec.
    by rewrite <- list_elem_of_In.
Qed.
(** ** The positions table and the Overview page *)

Lemma sortOption_numeric (localeCompare : string → string → num) (column : string) :
  column ∈ numericColumns →
  ∃ cmp, PositionsPage.sortOption localeCompare column = Some cmp
         ∧ ∀ a b, cmp a b = nsub (columnValue column a) (columnValue column b).
Proof.
  unfold numericColumns. rewrite !elem_of_cons, elem_of_nil.
  intros [->|[->|[->|[->|[->|[->|[->|[]]]]]]]]; eexists; split; reflexivity || done.
Qed.

Lemma nsub_rank (x y : num) :
  isFinite x → isFinite y → ngtb (nsub x y) zero = true ↔ (val y < val x)%Q.
Proof.
  intros (a & ->) (b & ->). cbn [nsub ngtb nltb zero val].
  rewrite Bool.negb_true_iff, Qle_bool_false, Qred_correct. split; lra.
Qed.

(** X18: the positions table shows every position once, whatever the sort
    column, and a click on the header of the current sort column shows the
    same rows in the reverse order. *)
Theorem X18_table_shows_every_position (localeCompare : string → string → num)
    (positions : list position) (st : PositionsPage.sortState) :
  PositionsPage.sortedPositions localeCompare (Some positions) st ≡ₚ positions
  ∧ PositionsPage.sortedPositions localeCompare (Some positions)
      (PositionsPage.handleSort st (PositionsPage.sortColumn st))
    = rev (PositionsPage.sortedPositions localeCompare (Some positions) st).
Proof.
  unfold PositionsPage.sortedPositions, PositionsPage.handleSort.
  rewrite String.eqb_refl. cbn [PositionsPage.sortColumn PositionsPage.sortAsc].
  split.
  - destruct (PositionsPage.sortAsc st); [apply sortBy_perm|].
    rewrite <- Permutation_rev. apply sortBy_perm.
  - destruct (PositionsPage.sortAsc st); cbn [negb]; [done|].
    by rewrite rev_involutive.
Qed.

(** X19: sorted by a numeric column whose values are all finite, the rows
    of the positions table stand in the order of that column's values:
    ascending when [sortAsc] is set, descending otherwise. *)
Theorem X19_table_in_column_order (localeCompare : string → string → num)
    (positions : list position) (st : PositionsPage.sortState) :
  PositionsPage.sortColumn st ∈ numericColumns →
  Forall (λ p, isFinite (columnValue (PositionsPage.sortColumn st) p)) positions →
  StronglySorted
    (λ a b, if PositionsPage.sortAsc st
            then nleb (columnValue (PositionsPage.sortColumn st) a)
                      (columnValue (PositionsPage.sortColumn st) b) = true
            else nleb (columnValue (PositionsPage.sortColumn st) b)
                      (columnValue (PositionsPage.sortColumn st) a) = true)
    (PositionsPage.sortedPositions localeCompare (Some positions) st).
Proof.
  intros Hcol Hfin. unfold PositionsPage.sortedPositions.
  destruct (sortOption_numeric localeCompare _ Hcol) as (cmp & -> & Hcmp).
  set (column := PositionsPage.sortColumn st) in *.
  assert (Hrank : ∀ x y, isFinite (columnValue column x) → isFinite (columnValue column y) →
            ngtb (cmp x y) zero = true
            ↔ (val (columnValue column y) < val (columnValue column x))%Q).
  { intros x y Hx Hy. rewrite Hcmp. by apply nsub_rank. }
  pose proof (sortBy_ranked (λ p, isFinite (columnValue column p))
                (λ p, val (columnValue column p)) cmp Hrank positions Hfin) as Hranked.
  assert (Hfs : Forall (λ p, isFinite (columnValue column p)) (sortBy cmp positions)).
  { rewrite Forall_forall in Hfin. rewrite Forall_forall. intros p Hp.
    apply Hfin. by apply elem_of_sortBy in Hp. }
  assert (Hsorted : StronglySorted
            (λ a b, nleb (columnValue column a) (columnValue column b) = true)
            (sortBy cmp positions)).
  { clear -Hranked Hfs. induction Hranked as [|x l Hl IH Hx]; [constructor|].
    apply Forall_cons_1 in Hfs as [(a & Ha) Hfs]. constructor; [by apply IH|].
    rewrite Forall_forall in Hx, Hfs. rewrite Forall_forall. intros y Hy.
    specialize (Hx y Hy). destruct (Hfs y Hy) as (b & Hb). cbn beta in Hx.
    rewrite Ha, Hb in *. cbn [val nleb] in *. by apply Qle_bool_iff. }
  destruct (PositionsPage.sortAsc st); [done|].
  by apply (sorted_rev _ _ Hsorted).
Qed.

Lemma X19_table_in_column_order_witness :
  StronglySorted
    (λ a b, nleb (columnValue "qty" b) (columnValue "qty" a) = true)
    (PositionsPage.sortedPositions (λ _ _, zero)
       (Some [mkPosition "AAPL" (Some (Finite 5)) None None None None None;
              mkPosition "MSFT" (Some (Finite 10)) None None None None None])
       {| PositionsPage.sortColumn := "qty"; PositionsPage.sortAsc := false |}).
Proof.
  refine (X19_table_in_column_order (λ _ _, zero)
            [mkPosition "AAPL" (Some (Finite 5)) None None None None None;
             mkPosition "MSFT" (Some (Finite 10)) None None None None None]
            {| PositionsPage.sortColumn := "qty"; PositionsPage.sortAsc := false |} _ _).
  - apply list_elem_of_here.
  - repeat constructor; by eexists.
Defined.

Lemma fold_addPosition (positions : list position) : ∀ acc,
  fold_left PositionsPage.addPosition positions acc
  = {| PositionsPage.marketValue :=
         fold_left (λ sum pos, nadd sum (parseFloatOrZero (p_market_value pos)))
                   positions (PositionsPage.marketValue acc);
       PositionsPage.costBasis :=
         fold_left (λ sum pos, nadd sum (nmul (parseFloat (p_qty pos))
                                               (parseFloat (p_avg_entry_price pos))))
                   positions (PositionsPage.costBasis acc);
       PositionsPage.unrealizedPL :=
         fold_left (λ sum pos, nadd sum (parseFloatOrZero (p_unrealized_pl pos)))
                   positions (PositionsPage.unrealizedPL acc) |}.
Proof.
  induction positions as [|pos positions IH]; intros acc; [by destruct acc|].
  cbn [fold_left]. by rewrite IH.
Qed.

(** X20: the Overview page and the positions table agree: the total
    unrealized P/L of the one is that of the other, and its percentage is
    that total over the table's total cost basis, times 100, or 0 when the
    cost basis is not above 0. *)
Theorem X20_overview_agrees_with_table (positions : option (list position)) :
  Overview.totalUnrealizedPL (Overview.unrealized positions)
  = PositionsPage.unrealizedPL (PositionsPage.totals positions)
  ∧ Overview.totalUnrealizedPLPercent (Overview.unrealized positions)
    = if ngtb (PositionsPage.costBasis (PositionsPage.totals positions)) zero
      then nmul (ndiv (PositionsPage.unrealizedPL (PositionsPage.totals positions))
                      (PositionsPage.costBasis (PositionsPage.totals positions)))
                hundred
      else zero.
Proof.
  destruct positions as [positions|]; [|done].
  unfold Overview.unrealized, PositionsPage.totals. rewrite fold_addPosition.
  cbn [Overview.totalUnrealizedPL Overview.totalUnrealizedPLPercent
       PositionsPage.unrealizedPL PositionsPage.costBasis PositionsPage.marketValue].
  done.
Qed.

(** ** Symbols, later orders and the two pages *)

Lemma symbolsOf_symbolOrders (orders : list order) (s : string) :
  s ∈ symbolsOf orders ↔ symbolOrders s orders ≠ [].
Proof.
  rewrite elem_of_symbolsOf. split.
  - intros (o & Ho & Hf & Hs) E.
    assert (Hin : o ∈ symbolOrders s orders).
    { unfold symbolOrders. apply list_elem_of_In, filter_In. split.
      - apply filter_In. split; [by apply list_elem_of_In|done].
      - unfold ofSymbol. rewrite Hs. apply String.eqb_refl. }
    rewrite E in Hin. by apply elem_of_nil in Hin.
  - intros Hne. destruct (symbolOrders s orders) as [|o l] eqn:E; [done|].
    assert (Hin : o ∈ symbolOrders s orders) by (rewrite E; apply list_elem_of_here).
    unfold symbolOrders in Hin. apply list_elem_of_In, filter_In in Hin as [Hin Hs].
    apply filter_In in Hin as [Hin Hf]. exists o.
    split; [by apply list_elem_of_In|]. split; [done|].
    unfold ofSymbol in Hs. by apply String.eqb_eq in Hs.
Qed.

(** X23: symbols are independent: the round trips of a symbol, on both
    pages, and its statistics depend only on the filled orders of that symbol;
    two inputs that hold the same ones give the same. *)
Theorem X23_symbols_are_independent (orders1 orders2 : list order) (s : string) :
  symbolOrders s orders1 = symbolOrders s orders2 →
  tripsOf s (Analytics.roundTrips (Some orders1))
  = tripsOf s (Analytics.roundTrips (Some orders2))
  ∧ tripsOf s (Positions.roundTrips (Some orders1))
    = tripsOf s (Positions.roundTrips (Some orders2))
  ∧ Positions.symbolStats (Some orders1) !! s
    = Positions.symbolStats (Some orders2) !! s.
Proof.
  intros Hsame. rewrite !tripsOf_Analytics, !tripsOf_Positions, !symbolStats_closed.
  rewrite Hsame. split; [done|]. split; [done|].
  destruct (decide (s ∈ symbolsOf orders1)) as [H1|H1],
           (decide (s ∈ symbolsOf orders2)) as [H2|H2]; try done; exfalso.
  - apply H2, symbolsOf_symbolOrders. rewrite <- Hsame. by apply symbolsOf_symbolOrders.
  - apply H1, symbolsOf_symbolOrders. rewrite Hsame. by apply symbolsOf_symbolOrders.
Qed.

Lemma X23_symbols_are_independent_witness :
  tripsOf "AAPL"
    (Analytics.roundTrips (Some [buy1 "AAPL" 1; buy2 "MSFT" 2; sell3 "AAPL" 3]))
  = tripsOf "AAPL" (Analytics.roundTrips (Some [buy1 "AAPL" 1; sell3 "AAPL" 3])).
Proof.
  refine (proj1 (X23_symbols_are_independent
                   [buy1 "AAPL" 1; buy2 "MSFT" 2; sell3 "AAPL" 3]
                   [buy1 "AAPL" 1; sell3 "AAPL" 3] "AAPL" _)).
  reflexivity.
Defined.

Section SortedAppend.
Context {A : Type}.
Variables (key : A → Z) (cmp : A → A → num).
Hypothesis cmp_key : ∀ x y, ngtb (cmp x y) zero = (key y <? key x)%Z.

(** Sorting a sequence followed by elements with keys that are not
    smaller: the first part sorted, then the second part sorted. *)
Lemma sortBy_app_later (l1 l2 : list A) :
  (∀ x y, x ∈ l1 → y ∈ l2 → (key x ≤ key y)%Z) →
  sortBy cmp (l1 ++ l2) = sortBy cmp l1 ++ sortBy cmp l2.
Proof.
  induction l1 as [|x l1 IH]; intros H; [done|].
  cbn [app]. rewrite !sortBy_cons, IH.
  - apply (insertBy_app_l key cmp cmp_key). rewrite Forall_forall. intros z Hz.
    apply elem_of_sortBy in Hz. apply H; [apply list_elem_of_here|done].
  - intros a b Ha Hb. apply H; [by apply list_elem_of_further|done].
Qed.

End SortedAppend.

Lemma matchLoop_extends fuel sym price date sellQty st :
  ∃ more, allRoundTrips (snd (matchLoop fuel sym price date sellQty st))
          = allRoundTrips st ++ more.
Proof.
  revert sellQty st. induction fuel as [|fuel IH]; intros sellQty st.
  { exists []. by rewrite app_nil_r. }
  cbn [matchLoop]. destruct (ngtb sellQty zero); [|exists []; by rewrite app_nil_r].
  destruct (buyQueue st) as [|buy rest]; [exists []; by rewrite app_nil_r|].
  unfold matchOnce.
  match goal with |- context [matchLoop fuel sym price date ?q ?s] =>
    destruct (IH q s) as (more & ->) end.
  cbn [allRoundTrips]. rewrite <- app_assoc. by eexists.
Qed.

Lemma fold_processOrder_extends sym (os : list order) : ∀ st,
  ∃ more, allRoundTrips (fold_left (processOrder sym) os st) = allRoundTrips st ++ more.
Proof.
  induction os as [|o os IH]; intros st.
  { exists []. by rewrite app_nil_r. }
  cbn [fold_left]. destruct (IH (processOrder sym st o)) as (more & ->).
  assert (Hstep : ∃ more', allRoundTrips (processOrder sym st o)
                           = allRoundTrips st ++ more').
  { unfold processOrder. destruct (String.eqb (side o) "buy").
    { exists []. by rewrite app_nil_r. }
    destruct (String.eqb (side o) "sell" && negb (Nat.eqb (length (buyQueue st)) 0)).
    - apply matchLoop_extends.
    - exists []. by rewrite app_nil_r. }
  destruct Hstep as (more' & ->). rewrite <- app_assoc. by eexists.
Qed.

(** X24: round trips, once made, stay: when orders are added to the input
    that, for some symbol, are all filled no earlier than the symbol's orders
    already there, the round trips of that symbol are the ones there were,
    followed by new ones, on both pages. *)
Theorem X24_later_orders_only_add (orders later : list order) (s : string) :
  (∀ o o', o ∈ symbolOrders s orders → o' ∈ symbolOrders s later →
           (filled_at o ≤ filled_at o')%Z) →
  ∃ more,
    tripsOf s (Positions.roundTrips (Some (orders ++ later)))
    = tripsOf s (Positions.roundTrips (Some orders)) ++ more
    ∧ tripsOf s (Analytics.roundTrips (Some (orders ++ later)))
      = tripsOf s (Analytics.roundTrips (Some orders)) ++ more.
Proof.
  intros Hlater.
  assert (Hsame : ∀ l, tripsOf s (Analytics.roundTrips (Some l))
                       = tripsOf s (Positions.roundTrips (Some l))).
  { intros l. rewrite tripsOf_Analytics, tripsOf_Positions.
    apply (sortBy_ascending_id sellDate); [apply bySellDate_key|].
    apply symTrips_chronological. }
  rewrite !Hsame, !tripsOf_Positions, symbolOrders_app.
  unfold symTrips, processSymbol.
  rewrite (sortBy_app_later filled_at byFilledAt byFilledAt_key) by done.
  rewrite fold_left_app.
  destruct (fold_processOrder_extends s (sortBy byFilledAt (symbolOrders s later))
              (fold_left (processOrder s) (sortBy byFilledAt (symbolOrders s orders))
                         (startPass []))) as (more & ->).
  by exists more.
Qed.

Lemma X24_later_orders_only_add_witness :
  ∃ more,
    tripsOf "AAPL"
      (Positions.roundTrips (Some ([buy1 "AAPL" 1; sell3 "AAPL" 3] ++ [buy2 "AAPL" 5])))
    = tripsOf "AAPL" (Positions.roundTrips (Some [buy1 "AAPL" 1; sell3 "AAPL" 3])) ++ more
    ∧ tripsOf "AAPL"
        (Analytics.roundTrips (Some ([buy1 "AAPL" 1; sell3 "AAPL" 3] ++ [buy2 "AAPL" 5])))
      = tripsOf "AAPL" (Analytics.roundTrips (Some [buy1 "AAPL" 1; sell3 "AAPL" 3]))
        ++ more.
Proof.
  refine (X24_later_orders_only_add [buy1 "AAPL" 1; sell3 "AAPL" 3] [buy2 "AAPL" 5]
            "AAPL" _).
  intros o o' Ho Ho'. vm_compute in Ho, Ho'.
  apply list_elem_of_singleton in Ho'. subst o'.
  apply elem_of_cons in Ho as [->|Ho]; [vm_compute; discriminate|].
  apply list_elem_of_singleton in Ho. subst o. vm_compute; discriminate.
Defined.

(** X25: the two pages agree on the counts: with no symbol selected, the
    totals of the Trade History page hold the number of round trips and the
    number of winners that the metrics of the Analytics page hold; its
    [lossCount] is the number of losers and of round trips whose P/L is NaN,
    which the metrics count as neither. *)
Theorem X25_pages_agree_on_counts (orders : list order) :
  ∃ total,
    History.totalStats (History.statEntries (Some orders)) "" = History.Own total
    ∧ Positions.st_trades total
      = Analytics.totalTrades (Analytics.metrics (Analytics.roundTrips (Some orders)))
    ∧ Positions.st_winCount total
      = Analytics.winners (Analytics.metrics (Analytics.roundTrips (Some orders)))
    ∧ Positions.st_lossCount total
      = Analytics.losers (Analytics.metrics (Analytics.roundTrips (Some orders)))
        + length (List.filter (λ rt, isNaN (pl rt)) (Analytics.roundTrips (Some orders))).
Proof.
  eexists. split; [reflexivity|].
  destruct (totals_of_all orders) as [(H1 & H2 & H3) _].
  set (total := fold_left History.addStat _ _) in *. clearbody total.
  assert (Hperm : Analytics.roundTrips (Some orders) ≡ₚ Positions.roundTrips (Some orders)).
  { rewrite Analytics_roundTrips_closed. apply sortBy_perm. }
  set (trips := Analytics.roundTrips (Some orders)) in *. clearbody trips.
  rewrite <- (Permutation_length Hperm) in H1.
  rewrite <- (Permutation_length (filter_perm Analytics.isWinner _ _ Hperm)) in H2.
  rewrite <- (Permutation_length
                (filter_perm (λ rt, negb (Analytics.isWinner rt)) _ _ Hperm)) in H3.
  pose proof (three_kinds trips) as H3k.
  pose proof (filter_length_split Analytics.isWinner trips) as Hsplit.
  unfold Analytics.metrics. destruct (Nat.eqb_spec (length trips) 0) as [E|E].
  - destruct trips; [|done].
    cbn [Analytics.totalTrades Analytics.winners Analytics.losers].
    by rewrite H1, H2, H3.
  - cbn [Analytics.totalTrades Analytics.winners Analytics.losers].
    repeat split; [done|done|lia].
Qed.

(** ** The figures of one round trip *)

Lemma tripOf_signs sym price date matchQty buy :
  positive (buyPrice (tripOf sym price date matchQty buy)) →
  positive (rt_qty (tripOf sym price date matchQty buy)) →
  isFinite (sellPrice (tripOf sym price date matchQty buy)) →
  (ngtb (pl (tripOf sym price date matchQty buy)) zero = true →
   ngeb (plPercent (tripOf sym price date matchQty buy)) zero = true)
  ∧ (nltb (pl (tripOf sym price date matchQty buy)) zero = true →
     nleb (plPercent (tripOf sym price date matchQty buy)) zero = true).
Proof.
  cbn [tripOf buyPrice rt_qty sellPrice pl plPercent].
  intros (b & -> & Hb) (q & -> & Hq) (s & ->).
  cbn [nsub nmul ndiv]. pose proof (Qsign_spec b) as Hs.
  destruct (Qsign b) eqn:E; [lra|lra|].
  unfold hundred. cbn [nmul ngtb ngeb nleb nltb zero].
  rewrite !Qle_bool_Qred_r, !Qle_bool_Qred_l, !Bool.negb_true_iff, !Qle_bool_false,
    !Qle_bool_iff, !Qred_correct.
  assert (Hdiv : ((s - b) / b * 100 == (s - b) * (100 / b))%Q) by (field; lra).
  rewrite Hdiv.
  assert (Hinv : (0 < 100 / b)%Q) by (apply Qlt_shift_div_l; lra).
  split; intros H.
  - destruct (Qlt_le_dec (s - b) 0) as [Hneg|Hpos]; [|nra].
    exfalso. nra.
  - destruct (Qlt_le_dec 0 (s - b)) as [Hpos|Hneg]; [|nra].
    exfalso. nra.
Qed.

(** X26: the P/L of a round trip and its percentage never contradict each
    other: for a round trip of either page bought at a price above 0, with a
    quantity above 0 and a finite sell price, a P/L above 0 goes with a
    percentage of at least 0, and a P/L below 0 with a percentage of at most
    0. *)
Theorem X26_profit_and_percentage_agree (orders : option (list order))
    (rt : roundTrip) :
  rt ∈ Positions.roundTrips orders ∨ rt ∈ Analytics.roundTrips orders →
  positive (buyPrice rt) → positive (rt_qty rt) → isFinite (sellPrice rt) →
  (ngtb (pl rt) zero = true → ngeb (plPercent rt) zero = true)
  ∧ (nltb (pl rt) zero = true → nleb (plPercent rt) zero = true).
Proof.
  intros Hin.
  destruct (roundTrips_Forall
              (λ rt, positive (buyPrice rt) → positive (rt_qty rt) →
                     isFinite (sellPrice rt) →
                     (ngtb (pl rt) zero = true → ngeb (plPercent rt) zero = true)
                     ∧ (nltb (pl rt) zero = true → nleb (plPercent rt) zero = true))
              orders) as [HP HA].
  { intros sym price date matchQty buy. apply tripOf_signs. }
  rewrite Forall_forall in HP, HA. destruct Hin as [Hin|Hin]; [by apply HP|by apply HA].
Qed.

Lemma X26_profit_and_percentage_agree_witness :
  ngeb (plPercent (trip1 "AAPL" 1 3)) zero = true.
Proof.
  refine (proj1 (X26_profit_and_percentage_agree
                   (Some [buy1 "AAPL" 1; buy2 "AAPL" 2; sell3 "AAPL" 3])
                   (trip1 "AAPL" 1 3) _ _ _ _) _).
  - right. vm_compute. apply list_elem_of_here.
  - exists 100%Q. split; [reflexivity|]. unfold Qlt; simpl; lia.
  - exists 10%Q. split; [reflexivity|]. unfold Qlt; simpl; lia.
  - by eexists.
  - reflexivity.
Defined.
